(** * zc_hashtable: the chained hash table of libzlog

    A shallow embedding of [src/libzlog/zc_hashtable.c] and the proofs of
    its specification.

    The table is an array of bucket heads; every bucket is a doubly linked
    chain of heap-allocated entries.  Entries live in an explicit store (a
    finite map from addresses to entry records) so that the pointer updates
    of the C code (head push, unlinking, relinking during a rehash) are
    modelled as they are written, aliasing included.

    Conventions
    - a pointer is an integer address, [NULL] is [0];
    - [unsigned int] is a [Z] reduced modulo [2^32], [size_t] a [Z] reduced
      modulo [2^64] (LP64, the platform of the pthread based library);
    - a function returns [None] when the C code would have undefined
      behaviour (a load or store through a dangling or null pointer, a
      division by zero, an array access out of bounds) or when a chain walk
      does not end; on well-formed tables every function returns [Some];
    - the results of [calloc] are inputs of the functions that allocate;
    - [zc_error] only writes to the library's log and is not modelled. *)

From Stdlib Require Import ZArith Lia Strings.Byte.
From Stdlib Require Import Floats.PrimFloat Numbers.Cyclic.Int63.Uint63.
From stdpp Require Import gmap list.

Local Open Scope Z_scope.

(** ** Machine integers and pointers *)

Abbreviation NULL := 0 (only parsing).

Definition UINT_MOD : Z := 2 ^ 32.
Definition SIZE_MOD : Z := 2 ^ 64.

(** Conversion to [unsigned int], and the result of [unsigned int]
    arithmetic. *)
Definition to_uint (z : Z) : Z := z mod UINT_MOD.

(** Conversion to [size_t], and the result of [size_t] arithmetic. *)
Definition to_size (z : Z) : Z := z mod SIZE_MOD.

(** [a % b] on unsigned operands; a zero divisor is undefined behaviour. *)
Definition umod (a b : Z) : option Z :=
  if b =? 0 then None else Some (a mod b).

(** [(double) n] for a [size_t] [n]: exact below [2^63]; above, the value
    is halved with a sticky low bit, converted and doubled, which rounds
    to nearest as the hardware conversion does. *)
Definition double_of_size (n : Z) : float :=
  if n <? 2 ^ 63 then PrimFloat.of_uint63 (Uint63.of_Z n)
  else PrimFloat.mul
         (PrimFloat.of_uint63 (Uint63.of_Z (Z.lor (Z.shiftr n 1) (Z.land n 1))))
         2%float.

(** The constant [1.3] of the load test, as the binary64 number the
    compiler stores. *)
Definition load_factor : float := 0x1.4cccccccccccdp+0%float.

(** [nelem > tab_size * 1.3]: both operands are converted to [double]. *)
Definition load_exceeded (nelem tab_size : Z) : bool :=
  PrimFloat.ltb (PrimFloat.mul (double_of_size tab_size) load_factor)
                (double_of_size nelem).

(** ** The string strategy: [zc_hashtable_str_hash] *)

Section StrHash.

(** Whether plain [char] is signed is implementation defined (it is on
    x86, it is not on ARM Linux). *)
Variable char_signed : bool.

(** The value a byte has when it is read through a [const char *]. *)
Definition char_value (b : byte) : Z :=
  let u := Z.of_N (Byte.to_N b) in
  if char_signed && (128 <=? u) then u - 256 else u.

(** The loop of the hash: while the char at [p] is not the terminator,
    [h = h * 129 + (unsigned int) c] for that char [c], and [p] moves
    on.  Running off the buffer before a terminator is met is undefined
    behaviour. *)
Fixpoint str_hash_loop (h : Z) (p : list byte) : option Z :=
  match p with
  | [] => None
  | c :: p' =>
      if char_value c =? 0 then Some h
      else str_hash_loop (to_uint (to_uint (h * 129) + to_uint (char_value c))) p'
  end.

Definition zc_hashtable_str_hash (str : list byte) : option Z :=
  str_hash_loop 0 str.

(** The accumulator the hash computes, on the values of the chars. *)
Definition str_hash_acc (s : list byte) : Z :=
  fold_left (fun h b => (h * 129 + char_value b) mod 2 ^ 32) s 0.

End StrHash.

(** Modelled from the spec: the macro [STRCMP] of [zc_defs.h], through
    which [zc_hashtable_str_equal] compares two keys: equality is a
    byte-wise comparison of the contents, up to and including the
    terminator.  Running off a buffer is undefined behaviour. *)
Fixpoint zc_hashtable_str_equal (key1 key2 : list byte) : option bool :=
  match key1, key2 with
  | c1 :: key1', c2 :: key2' =>
      if negb (Byte.eqb c1 c2) then Some false
      else if Byte.eqb c1 x00 then Some true
           else zc_hashtable_str_equal key1' key2'
  | _, _ => None
  end.

(** The accumulator as the specification words it: [h = 0], then
    [h = h * 129 + b] for each byte [b], everything modulo [2^32]. *)
Definition spec_str_hash (s : list byte) : Z :=
  fold_left (fun h b => (h * 129 + Z.of_N (Byte.to_N b)) mod 2 ^ 32) s 0.

(** ** Data model *)

Section Table.

(** [K] are the key objects a non-null [void *key] can point to, [V] the
    value objects; a value pointer may be null ([None]).  [W] is the part
    of the program state the destructor callbacks act on.  The hash and
    equality callbacks are functions of the key objects: keys are not
    mutated while they are in a table. *)
Context {K V W : Type}.

(** Modelled from the spec: the two struct declarations of
    [zc_hashtable.h], the header the source file includes: an entry
    holds the cached hash, the key, the value and the links to its
    neighbours in the bucket; a table holds the count of entries, the
    bucket array with its length, and the four callbacks, of which
    the two destructors may be null. *)
Record zc_hashtable_entry_t : Type := Entry {
  hash_key : Z;
  key : K;
  value : option V;
  prev : Z;
  next : Z
}.

Record zc_hashtable_t : Type := Table {
  nelem : Z;
  tab : list Z;
  tab_size : Z;
  hash_fn : K -> Z;
  equal_fn : K -> K -> bool;
  key_del_fn : option (K -> W -> W);
  value_del_fn : option (option V -> W -> W)
}.

(** The state the functions act on: the table record, the store of the
    entries, and the state of the destructors' world. *)
Record state : Type := State {
  table : zc_hashtable_t;
  heap : gmap Z zc_hashtable_entry_t;
  world : W
}.

(** Field updates. *)
Definition set_next (e : zc_hashtable_entry_t) (q : Z) : zc_hashtable_entry_t :=
  Entry (hash_key e) (key e) (value e) (prev e) q.
Definition set_prev (e : zc_hashtable_entry_t) (q : Z) : zc_hashtable_entry_t :=
  Entry (hash_key e) (key e) (value e) q (next e).
Definition set_key_value (e : zc_hashtable_entry_t) (k : K) (v : option V)
  : zc_hashtable_entry_t :=
  Entry (hash_key e) k v (prev e) (next e).

Definition set_tab (t : zc_hashtable_t) (a : list Z) : zc_hashtable_t :=
  Table (nelem t) a (tab_size t) (hash_fn t) (equal_fn t)
        (key_del_fn t) (value_del_fn t).
Definition set_tab_size (t : zc_hashtable_t) (n : Z) : zc_hashtable_t :=
  Table (nelem t) (tab t) n (hash_fn t) (equal_fn t)
        (key_del_fn t) (value_del_fn t).
Definition set_nelem (t : zc_hashtable_t) (n : Z) : zc_hashtable_t :=
  Table n (tab t) (tab_size t) (hash_fn t) (equal_fn t)
        (key_del_fn t) (value_del_fn t).
Definition set_hash_fn (t : zc_hashtable_t) (f : K -> Z) : zc_hashtable_t :=
  Table (nelem t) (tab t) (tab_size t) f (equal_fn t)
        (key_del_fn t) (value_del_fn t).

(** [p->next = q] and [p->prev = q]: a store through [p]. *)
Definition store_next (h : gmap Z zc_hashtable_entry_t) (p q : Z)
  : option (gmap Z zc_hashtable_entry_t) :=
  e ← h !! p; Some (<[p := set_next e q]> h).
Definition store_prev (h : gmap Z zc_hashtable_entry_t) (p q : Z)
  : option (gmap Z zc_hashtable_entry_t) :=
  e ← h !! p; Some (<[p := set_prev e q]> h).

(** [a_table->hash_fn(a_key)]: the callback returns an [unsigned int]. *)
Definition call_hash (t : zc_hashtable_t) (k : K) : Z := to_uint (hash_fn t k).

(** [if (del_fn) del_fn(x);] *)
Definition call_del {A : Type} (del_fn : option (A -> W -> W)) (x : A) (w : W) : W :=
  match del_fn with
  | Some f => f x w
  | None => w
  end.

(** Modelled from the spec: the macro [zc_assert(expr, rv)] of
    [zc_defs.h], which makes the function return [rv] at once when
    [expr] is null or zero (the spec's [InvalidArgument] of [New]), and
    goes on otherwise. *)
Definition zc_assert {A : Type} (expr : bool) (rv : A) (continue : A) : A :=
  if expr then continue else rv.

(** [for (i = from; i < from + n; i++) body], threading a state. *)
Fixpoint for_loop {St : Type} (n : nat) (i : Z) (body : Z -> St -> option St) (st : St)
  : option St :=
  match n with
  | O => Some st
  | S n' => st' ← body i st; for_loop n' (i + 1) body st'
  end.

(** Chain walks are given the number of stored entries as fuel: a chain
    without a cycle cannot be longer. *)
Definition chain_fuel (h : gmap Z zc_hashtable_entry_t) : nat := size h.

(** ** Construction *)

(** [calloc(n, sizeof( *tab ))] for a bucket array, pointers being 8
    bytes wide: the request fails when the allocator says so ([ok] is
    false) and when the byte count does not fit [size_t]; a request for
    no bytes at all is counted as a failure too. *)
Definition calloc_tab (ok : bool) (n : Z) : option (list Z) :=
  if ok && (0 <? n) && (n * 8 <? SIZE_MOD)
  then Some (replicate (Z.to_nat n) NULL) else None.

(** [zc_hashtable_new]: [None] is the null pointer the function returns
    on an invalid argument or a failed allocation.  [table_alloc] and
    [tab_alloc] say whether the two [calloc] calls succeed. *)
Definition zc_hashtable_new (a_size : Z)
    (hash_fn : option (K -> Z)) (equal_fn : option (K -> K -> bool))
    (key_del_fn : option (K -> W -> W))
    (value_del_fn : option (option V -> W -> W))
    (table_alloc tab_alloc : bool) : option zc_hashtable_t :=
  zc_assert (negb (a_size =? 0)) None (
  match hash_fn with None => None | Some hash_fn =>
  match equal_fn with None => None | Some equal_fn =>
    if negb table_alloc then None else
    match calloc_tab tab_alloc a_size with
    | None => None
    | Some a_tab =>
        Some (Table 0 a_tab a_size hash_fn equal_fn key_del_fn value_del_fn)
    end
  end end).

(** ** Clean *)

(** The inner loop of [zc_hashtable_clean]: destroy and free every entry
    of the chain that starts at [p]. *)
Fixpoint clean_chain (fuel : nat) (t : zc_hashtable_t) (p : Z)
    (st : gmap Z zc_hashtable_entry_t * W)
  : option (gmap Z zc_hashtable_entry_t * W) :=
  if p =? NULL then Some st else
  match fuel with
  | O => None
  | S n =>
      e ← st.1 !! p;
      let q := next e in
      let w := call_del (key_del_fn t) (key e) st.2 in
      let w := call_del (value_del_fn t) (value e) w in
      clean_chain n t q (delete p st.1, w)
  end.

Definition clean_bucket (fuel : nat) (t : zc_hashtable_t) (i : Z)
    (st : list Z * (gmap Z zc_hashtable_entry_t * W))
  : option (list Z * (gmap Z zc_hashtable_entry_t * W)) :=
  p ← st.1 !! Z.to_nat i;
  hw ← clean_chain fuel t p st.2;
  Some (<[Z.to_nat i := NULL]> st.1, hw).

Definition zc_hashtable_clean (s : state) : option state :=
  let t := table s in
  '(a_tab, (h, w)) ← for_loop (Z.to_nat (tab_size t)) 0
                       (clean_bucket (chain_fuel (heap s)) t)
                       (tab t, (heap s, world s));
  Some (State (set_nelem (set_tab t a_tab) 0) h w).

(** ** Destruction *)

(** [zc_hashtable_del] walks the chains as [zc_hashtable_clean] does,
    then frees the bucket array and the table record: what is left is
    the store and the world. *)
Definition del_bucket (fuel : nat) (t : zc_hashtable_t) (i : Z)
    (st : gmap Z zc_hashtable_entry_t * W)
  : option (gmap Z zc_hashtable_entry_t * W) :=
  p ← tab t !! Z.to_nat i;
  clean_chain fuel t p st.

Definition zc_hashtable_del (s : state)
  : option (gmap Z zc_hashtable_entry_t * W) :=
  let t := table s in
  for_loop (Z.to_nat (tab_size t)) 0 (del_bucket (chain_fuel (heap s)) t)
           (heap s, world s).

(** ** Rehash *)

(** [if (tab[j]) { tab[j]->prev = p; p->next = tab[j]; } tab[j] = p;]
    the head push that [zc_hashtable_rehash] and [zc_hashtable_put]
    both end with. *)
Definition push_head (a_tab : list Z) (h : gmap Z zc_hashtable_entry_t) (j p : Z)
  : option (list Z * gmap Z zc_hashtable_entry_t) :=
  tj ← a_tab !! Z.to_nat j;
  h' ← (if tj =? NULL then Some h
        else h1 ← store_prev h tj p; store_next h1 p tj);
  Some (<[Z.to_nat j := p]> a_tab, h').

(** The body of the inner loop of [zc_hashtable_rehash]; it returns the
    [q] the loop goes on with. *)
Definition relink (new_size : Z) (p : Z)
    (st : list Z * gmap Z zc_hashtable_entry_t)
  : option (Z * (list Z * gmap Z zc_hashtable_entry_t)) :=
  e ← st.2 !! p;
  let q := next e in
  let h := <[p := set_prev (set_next e NULL) NULL]> st.2 in
  j ← umod (hash_key e) new_size;
  st' ← push_head st.1 h j p;
  Some (q, st').

Fixpoint rehash_chain (fuel : nat) (new_size : Z) (p : Z)
    (st : list Z * gmap Z zc_hashtable_entry_t)
  : option (list Z * gmap Z zc_hashtable_entry_t) :=
  if p =? NULL then Some st else
  match fuel with
  | O => None
  | S n => '(q, st') ← relink new_size p st; rehash_chain n new_size q st'
  end.

Definition rehash_bucket (fuel : nat) (t : zc_hashtable_t) (new_size : Z) (i : Z)
    (st : list Z * gmap Z zc_hashtable_entry_t)
  : option (list Z * gmap Z zc_hashtable_entry_t) :=
  p ← tab t !! Z.to_nat i;
  rehash_chain fuel new_size p st.

(** [zc_hashtable_rehash]: the returned integer is the C return code. *)
Definition zc_hashtable_rehash (s : state) (tab_alloc : bool) : option (Z * state) :=
  let t := table s in
  let new_size := to_size (2 * tab_size t) in
  match calloc_tab tab_alloc new_size with
  | None => Some (-1, s)
  | Some new_tab =>
      '(new_tab, h) ← for_loop (Z.to_nat (tab_size t)) 0
                        (rehash_bucket (chain_fuel (heap s)) t new_size)
                        (new_tab, heap s);
      Some (0, State (set_tab_size (set_tab t new_tab) new_size) h (world s))
  end.

(** ** Lookup *)

(** [for (p = first; p; p = p->next) if (equal_fn(a_key, p->key)) break;]
    the search that lookup, insertion and removal all start with; the
    result is the [p] the loop ends with. *)
Fixpoint chain_find (fuel : nat) (h : gmap Z zc_hashtable_entry_t)
    (t : zc_hashtable_t) (a_key : K) (p : Z) : option Z :=
  if p =? NULL then Some NULL else
  match fuel with
  | O => None
  | S n =>
      e ← h !! p;
      if equal_fn t a_key (key e) then Some p
      else chain_find n h t a_key (next e)
  end.

(** [i = a_table->hash_fn(a_key) % a_table->tab_size] into an
    [unsigned int i], then the search of bucket [i]. *)
Definition find_entry (s : state) (a_key : K) : option Z :=
  let t := table s in
  i ← umod (call_hash t a_key) (tab_size t);
  p ← tab t !! Z.to_nat (to_uint i);
  chain_find (chain_fuel (heap s)) (heap s) t a_key p.

Definition zc_hashtable_get_entry (s : state) (a_key : option K) : option Z :=
  match a_key with
  | None => Some NULL
  | Some a_key => find_entry s a_key
  end.

(** [zc_hashtable_get]: the inner option is the value pointer that is
    returned, null when no entry is found. *)
Definition zc_hashtable_get (s : state) (a_key : option K) : option (option V) :=
  p ← zc_hashtable_get_entry s a_key;
  if p =? NULL then Some None else e ← heap s !! p; Some (value e).

(** ** Insertion and update *)

(** The end of the insertion: the fresh entry at [p] is filled, pushed
    on the head of its bucket and counted. *)
Definition put_new_entry (s : state) (a_key : K) (a_value : option V) (p : Z)
  : option state :=
  let t := table s in
  let e := Entry (call_hash t a_key) a_key a_value NULL NULL in
  let h := <[p := e]> (heap s) in
  i ← umod (hash_key e) (tab_size t);
  '(a_tab, h) ← push_head (tab t) h (to_uint i) p;
  Some (State (set_nelem (set_tab t a_tab) (to_size (nelem t + 1))) h (world s)).

(** The update of the entry at [p], found with an equal key: the old
    key and value go to the destructors, the new ones are stored. *)
Definition put_update (s : state) (a_key : K) (a_value : option V) (p : Z)
  : option state :=
  e ← heap s !! p;
  let w := call_del (key_del_fn (table s)) (key e) (world s) in
  let w := call_del (value_del_fn (table s)) (value e) w in
  Some (State (table s) (<[p := set_key_value e a_key a_value]> (heap s)) w).

(** [zc_hashtable_put].  [tab_alloc] says whether the [calloc] of a
    rehash succeeds; [entry_alloc] is the pointer the [calloc] of the
    entry returns, null when it fails. *)
Definition zc_hashtable_put (s : state) (a_key : option K) (a_value : option V)
    (tab_alloc : bool) (entry_alloc : Z) : option (Z * state) :=
  match a_key with
  | None => Some (-1, s)
  | Some a_key =>
      p ← find_entry s a_key;
      if negb (p =? NULL) then
        s' ← put_update s a_key a_value p; Some (0, s')
      else
        '(rc, s1) ← (if load_exceeded (nelem (table s)) (tab_size (table s))
                     then zc_hashtable_rehash s tab_alloc
                     else Some (0, s));
        if negb (rc =? 0) then Some (-1, s1)
        else
          let p := entry_alloc in
          if p =? NULL then Some (-1, s1)
          else s' ← put_new_entry s1 a_key a_value p; Some (0, s')
  end.

(** ** Removal *)

(** The removal of the entry found at [p]: the destructors are called,
    the neighbours and, for a first entry, the bucket head are linked
    past it, and it is freed and no longer counted. *)
Definition remove_entry (s : state) (p : Z) : option state :=
  let t := table s in
  e ← heap s !! p;
  let w := call_del (key_del_fn t) (key e) (world s) in
  let w := call_del (value_del_fn t) (value e) w in
  h ← (if negb (next e =? NULL) then store_prev (heap s) (next e) (prev e)
       else Some (heap s));
  e ← h !! p;
  '(a_tab, h) ← (if negb (prev e =? NULL)
                 then h' ← store_next h (prev e) (next e); Some (tab t, h')
                 else
                   i ← umod (hash_key e) (tab_size t);
                   _ ← tab t !! Z.to_nat (to_uint i);
                   Some (<[Z.to_nat (to_uint i) := next e]> (tab t), h));
  _ ← h !! p;
  Some (State (set_nelem (set_tab t a_tab) (to_size (nelem t - 1)))
              (delete p h) w).

Definition zc_hashtable_remove (s : state) (a_key : option K) : option state :=
  match a_key with
  | None => Some s
  | Some a_key =>
      p ← find_entry s a_key;
      if p =? NULL then Some s else remove_entry s p
  end.

(** ** Iteration *)

(** The first non-null head among the [n] buckets from [i] on, null
    when there is none: the scan of [zc_hashtable_begin] and of the
    tail of [zc_hashtable_next]. *)
Fixpoint first_head (n : nat) (a_tab : list Z) (i : Z) : option Z :=
  match n with
  | O => Some NULL
  | S n' =>
      p ← a_tab !! Z.to_nat i;
      if negb (p =? NULL) then Some p else first_head n' a_tab (i + 1)
  end.

Definition zc_hashtable_begin (s : state) : option Z :=
  let t := table s in
  first_head (Z.to_nat (tab_size t)) (tab t) 0.

Definition zc_hashtable_next (s : state) (a_entry : Z) : option Z :=
  let t := table s in
  zc_assert (negb (a_entry =? NULL)) (Some NULL) (
    e ← heap s !! a_entry;
    if negb (next e =? NULL) then Some (next e)
    else
      i ← umod (hash_key e) (tab_size t);
      first_head (Z.to_nat (tab_size t - (i + 1))) (tab t) (i + 1)).

(** The entries an iteration visits: [Begin], then [Next] until it
    answers null. *)
Fixpoint iterate_from (fuel : nat) (s : state) (p : Z) : option (list Z) :=
  if p =? NULL then Some [] else
  match fuel with
  | O => None
  | S n => q ← zc_hashtable_next s p; l ← iterate_from n s q; Some (p :: l)
  end.

Definition iterate (s : state) : option (list Z) :=
  p ← zc_hashtable_begin s; iterate_from (chain_fuel (heap s)) s p.

End Table.

(** ** Well-formed tables *)

Section Representation.

Context {K V W : Type}.

Implicit Types (h : gmap Z (@zc_hashtable_entry_t K V)).
Implicit Types (t : @zc_hashtable_t K V W) (s : @state K V W).
Implicit Types (l : list Z) (bs : list (list Z)).

(** [chain h pv p l]: in the store [h], the pointer [p] is the head of a
    doubly linked chain whose entries are, in order, at the addresses
    [l]; the first entry's [prev] is [pv], the last entry's [next] is
    null. *)
Fixpoint chain h (pv p : Z) l : Prop :=
  match l with
  | [] => p = NULL
  | a :: l' =>
      p = a /\ a <> NULL /\
      exists e, h !! a = Some e /\ prev e = pv /\ chain h a (next e) l'
  end.

(** The fields of an entry that are not links. *)
Definition payload (e : @zc_hashtable_entry_t K V) : Z * K * option V :=
  (hash_key e, key e, value e).

(** [Rep s bs]: the state [s] holds a well-formed table whose bucket
    [i] is the chain of the addresses [bs !! i].  It contains the two
    invariants of the data model ([rep_count] and [rep_bucket]) and
    what the pointer structure needs for them to make sense. *)
Record Rep s bs : Prop := {
  rep_size : 0 < tab_size (table s) /\ tab_size (table s) * 8 < SIZE_MOD;
  rep_len : Z.of_nat (length (tab (table s))) = tab_size (table s);
  rep_chains : Forall2 (chain (heap s) NULL) (tab (table s)) bs;
  rep_nodup : NoDup (concat bs);
  rep_count : nelem (table s) = Z.of_nat (length (concat bs));
  rep_bucket : forall i l a e,
    bs !! i = Some l -> a ∈ l -> heap s !! a = Some e ->
    hash_key e mod tab_size (table s) = Z.of_nat i;
  rep_hash : forall a e,
    a ∈ concat bs -> heap s !! a = Some e -> 0 <= hash_key e < UINT_MOD;
  rep_addr : forall a, a ∈ concat bs -> 0 < a < SIZE_MOD
}.

(** The two invariants of the data model, as the specification states
    them, on a table whose chains are [bs]. *)
Definition count_invariant s bs : Prop :=
  nelem (table s) = Z.of_nat (length (concat bs)).

Definition bucket_invariant s bs : Prop :=
  forall i l a e,
    bs !! i = Some l -> a ∈ l -> heap s !! a = Some e ->
    hash_key e mod tab_size (table s) = Z.of_nat i.

(** What [calloc] may return for an entry: null, or an address that is
    not in use. *)
Definition alloc_ok h (p : Z) : Prop :=
  p = NULL \/ (h !! p = None /\ 0 < p < SIZE_MOD).

(** The strategy functions fit together: [equal_fn] is symmetric and
    transitive, and keys it judges equal have the same hash. *)
Record lawful t : Prop := {
  equal_sym : forall k1 k2, equal_fn t k1 k2 = true -> equal_fn t k2 k1 = true;
  equal_trans : forall k1 k2 k3,
    equal_fn t k1 k2 = true -> equal_fn t k2 k3 = true -> equal_fn t k1 k3 = true;
  equal_hash : forall k1 k2, equal_fn t k1 k2 = true -> call_hash t k1 = call_hash t k2
}.

(** The keys of a table: the cached hash of every entry is the hash of
    its key, and no two entries have keys that [equal_fn] judges equal. *)
Record KeysRep s bs : Prop := {
  keys_hash : forall a e,
    a ∈ concat bs -> heap s !! a = Some e -> hash_key e = call_hash (table s) (key e);
  keys_uniq : forall a b ea eb,
    a ∈ concat bs -> b ∈ concat bs -> a <> b ->
    heap s !! a = Some ea -> heap s !! b = Some eb ->
    equal_fn (table s) (key ea) (key eb) = false
}.

(** The chains a rehash builds: the entries, in the order the old table
    is walked, are pushed one by one on the head of their new bucket.
    [hk] gives the cached hash of an entry. *)
Definition push_abs (j : nat) (a : Z) bs : list (list Z) := alter (cons a) j bs.

Definition relink_abs (hk : Z -> Z) (new_size : Z) l : list (list Z) :=
  foldl (fun nbs a => push_abs (Z.to_nat (hk a mod new_size)) a nbs)
        (replicate (Z.to_nat new_size) []) l.

Definition cached_hash h (a : Z) : Z :=
  match h !! a with Some e => hash_key e | None => 0 end.

(** No entry of [l] has a key that [equal_fn] judges equal to [k]. *)
Definition no_match h t (k : K) l : Prop :=
  forall a e, a ∈ l -> h !! a = Some e -> equal_fn t k (key e) = false.

(** The search answers [p] on the chain [l]: null when nothing matches,
    the first entry that matches otherwise. *)
Definition found_in h t (k : K) l (p : Z) : Prop :=
  (p = NULL /\ no_match h t k l) \/
  (exists l1 l2 e, l = l1 ++ p :: l2 /\ p <> NULL /\ h !! p = Some e /\
                   equal_fn t k (key e) = true /\ no_match h t k l1).

(** The bucket a key is searched in. *)
Definition bucket_index t (k : K) : nat :=
  Z.to_nat (call_hash t k mod tab_size t).

(** The entry at [a] is in the table and its key is judged equal to [k]. *)
Definition matches s bs (k : K) (a : Z) : Prop :=
  a ∈ concat bs /\
  exists e, heap s !! a = Some e /\ equal_fn (table s) k (key e) = true.

(** The entry at [p] is the one a [Put] or a [Remove] of the key [k]
    acts on: the search of the bucket answers [p]; or the table has
    lawful strategy functions and well-kept keys and [p] is the entry
    whose key is judged equal to [k], which the search then answers. *)
Definition reaches s bs (k : K) (p : Z) : Prop :=
  (find_entry s k = Some p /\ p <> NULL) \/
  (KeysRep s bs /\ lawful (table s) /\ matches s bs k p).

(** The loop invariant of the relinking: [h0] is the store the rehash
    starts from, [done_l] the entries relinked so far, in order. *)
Definition rehash_inv h0 (new_size : Z) (done_l : list Z)
    (st : list Z * gmap Z (@zc_hashtable_entry_t K V)) : Prop :=
  length st.1 = Z.to_nat new_size /\
  Forall2 (chain st.2 NULL) st.1 (relink_abs (cached_hash h0) new_size done_l) /\
  (forall x, payload <$> st.2 !! x = payload <$> h0 !! x) /\
  (forall x, x ∉ done_l -> st.2 !! x = h0 !! x).

(** The store after the entry [e] at [a] is unlinked and freed. *)
Definition unlink_heap h (a : Z) (e : @zc_hashtable_entry_t K V)
  : gmap Z (@zc_hashtable_entry_t K V) :=
  let h1 := if next e =? NULL then h
            else alter (fun x => set_prev x (prev e)) (next e) h in
  let h2 := if prev e =? NULL then h1
            else alter (fun x => set_next x (next e)) (prev e) h1 in
  delete a h2.

(** The world after the destructors have been called on the entries at
    [l], in order; [h0] is the store the entries are read from. *)
Definition clean_world t h0 l (w : W) : W :=
  foldl (fun w a =>
           match h0 !! a with
           | Some e => call_del (value_del_fn t) (value e)
                         (call_del (key_del_fn t) (key e) w)
           | None => w
           end) w l.

(** The store when the entries at [done_l] of the store [h0] have been
    freed. *)
Definition freed h0 (done_l : list Z) h : Prop :=
  (forall x, x ∈ done_l -> h !! x = None) /\
  (forall x, x ∉ done_l -> h !! x = h0 !! x).

(** [l] is what is left of the traversal from some entry on. *)
Definition rest_of bs l : Prop :=
  exists i l1 l2, bs !! i = Some (l1 ++ l2) /\ l = l2 ++ concat (drop (S i) bs).

(** Executable counterparts of [chain], [Rep] and [KeysRep], to check a
    table that is given explicitly. *)
Fixpoint chain_check h (pv p : Z) l : bool :=
  match l with
  | [] => p =? NULL
  | a :: l' =>
      (p =? a) && negb (a =? NULL) &&
      match h !! a with
      | Some e => (prev e =? pv) && chain_check h a (next e) l'
      | None => false
      end
  end.

Fixpoint chains_check h (a_tab : list Z) bs : bool :=
  match a_tab, bs with
  | [], [] => true
  | p :: a_tab', l :: bs' => chain_check h NULL p l && chains_check h a_tab' bs'
  | _, _ => false
  end.

Definition entry_check h (size : Z) (i : Z) (a : Z) : bool :=
  match h !! a with
  | Some e => (hash_key e mod size =? i) && (0 <=? hash_key e)
              && (hash_key e <? UINT_MOD) && (0 <? a) && (a <? SIZE_MOD)
  | None => false
  end.

Fixpoint buckets_check h (size : Z) (i : Z) bs : bool :=
  match bs with
  | [] => true
  | l :: bs' => forallb (entry_check h size i) l && buckets_check h size (i + 1) bs'
  end.

Definition rep_check s bs : bool :=
  (0 <? tab_size (table s)) && (tab_size (table s) * 8 <? SIZE_MOD)
  && (Z.of_nat (length (tab (table s))) =? tab_size (table s))
  && chains_check (heap s) (tab (table s)) bs
  && bool_decide (NoDup (concat bs))
  && (nelem (table s) =? Z.of_nat (length (concat bs)))
  && buckets_check (heap s) (tab_size (table s)) 0 bs.

Definition keys_check s bs : bool :=
  forallb (fun a =>
    match heap s !! a with
    | Some ea =>
        (hash_key ea =? call_hash (table s) (key ea))
        && forallb (fun b =>
             (a =? b) ||
             match heap s !! b with
             | Some eb => negb (equal_fn (table s) (key ea) (key eb))
             | None => true
             end) (concat bs)
    | None => true
    end) (concat bs).

(** The rehash a [Put] of an absent key starts with, when one is due:
    [s1] and [bs1] are the table the insertion goes on with. *)
Definition rehash_step s bs (b : bool) s1 bs1 : Prop :=
  (load_exceeded (nelem (table s)) (tab_size (table s)) = false /\
   s1 = s /\ bs1 = bs) \/
  (load_exceeded (nelem (table s)) (tab_size (table s)) = true /\
   zc_hashtable_rehash s b = Some (0, s1) /\
   bs1 = relink_abs (cached_hash (heap s)) (2 * tab_size (table s)) (concat bs)).

(** The state [s] with another hash function in the table record. *)
Definition with_hash_fn s (f : K -> Z) : @state K V W :=
  State (set_hash_fn (table s) f) (heap s) (world s).

End Representation.

(** ** Concrete tables *)

(** A table of integer keys and values whose destructors log their
    calls, in the order they are made. *)
Inductive del_event : Type :=
  | KeyDel (k : Z)
  | ValueDel (v : option Z).

Definition log_key (k : Z) (w : list del_event) : list del_event := w ++ [KeyDel k].

Definition log_value (v : option Z) (w : list del_event) : list del_event :=
  w ++ [ValueDel v].

Definition int_hash (k : Z) : Z := k.

Definition int_table (n : Z) (a_tab : list Z) (size : Z)
  : @zc_hashtable_t Z Z (list del_event) :=
  Table n a_tab size int_hash Z.eqb (Some log_key) (Some log_value).

(** Two buckets and three entries: keys 3 and 1 chained in bucket 1, key 2
    alone in bucket 0; the load test [3 > 2 * 1.3] holds. *)
Definition ex_state : @state Z Z (list del_event) :=
  State (int_table 3 [104; 102] 2)
        (list_to_map [(100, Entry 1 1 (Some 10) 102 0);
                      (102, Entry 3 3 (Some 30) 0 100);
                      (104, Entry 2 2 (Some 20) 0 0)])
        [].

Definition ex_chains : list (list Z) := [[104]; [102; 100]].

(** [Put] after [Put], every allocation succeeding: the list gives the
    key, the value and the address [calloc] returns for a new entry. *)
Fixpoint put_all {K V W : Type} (s : @state K V W) (l : list (K * V * Z))
  : option (@state K V W) :=
  match l with
  | [] => Some s
  | (k, v, a) :: l' =>
      '(_, s') ← zc_hashtable_put s (Some k) (Some v) true a; put_all s' l'
  end.

(** A table of string keys, as the example of the specification has it:
    the keys are NUL-terminated buffers, the strategy functions are the
    string hash and the string comparison (on a platform with signed
    chars), and there are no destructors. *)
Definition str_hash_fn (k : list byte) : Z :=
  default 0 (zc_hashtable_str_hash true k).

Definition str_equal_fn (k1 k2 : list byte) : bool :=
  default false (zc_hashtable_str_equal k1 k2).

Definition str_start (a_size : Z) : option (@state (list byte) Z unit) :=
  t ← zc_hashtable_new a_size (Some str_hash_fn) (Some str_equal_fn) None None true true;
  Some (State t ∅ tt).

Definition cstr (c : byte) : list byte := [c; x00].

(** [Put("a",1)], [Put("b",2)], [Put("a",3)], then the keys ["c"], ["d"]
    and ["e"], and then two more. *)
Definition spec_puts_3 : list (list byte * Z * Z) :=
  [(cstr "a", 1, 1000); (cstr "b", 2, 1001); (cstr "a", 3, 1002)].

Definition spec_puts_6 : list (list byte * Z * Z) :=
  spec_puts_3 ++ [(cstr "c", 4, 1003); (cstr "d", 5, 1004); (cstr "e", 6, 1005)].

Definition spec_puts_7 : list (list byte * Z * Z) :=
  spec_puts_6 ++ [(cstr "f", 7, 1006)].

Definition spec_puts_8 : list (list byte * Z * Z) :=
  spec_puts_7 ++ [(cstr "g", 8, 1007)].

Definition run_puts (a_size : Z) (l : list (list byte * Z * Z))
  : option (@state (list byte) Z unit) :=
  s ← str_start a_size; put_all s l.

(** What is observed of a table: count, capacity, and the values the
    given keys are looked up to. *)
Definition observe (os : option (@state (list byte) Z unit)) (keys : list (list byte))
  : option (Z * Z * list (option (option Z))) :=
  s ← os;
  Some (nelem (table s), tab_size (table s),
        map (fun k => zc_hashtable_get s (Some k)) keys).

Definition spec_keys : list (list byte) :=
  [cstr "a"; cstr "b"; cstr "c"; cstr "d"; cstr "e"; cstr "f"; cstr "g"]%byte.

(** [x] comes before [y] in the list [l]. *)
Definition comes_before (l : list Z) (x y : Z) : Prop := [x; y] `sublist_of` l.

(** The order the claim words: of two entries of one bucket, the one
    inserted later is visited first.  [inserted] lists the entries in
    the order of their insertion. *)
Definition newest_first {K V W : Type} (s : @state K V W) (inserted : list Z) : Prop :=
  forall visited, iterate s = Some visited ->
  forall x y, comes_before inserted x y ->
    cached_hash (heap s) x mod tab_size (table s)
    = cached_hash (heap s) y mod tab_size (table s) ->
    comes_before visited y x.

(** The tables that no rehash has relinked: a new table, and what a
    [Put] that inserts while the load test is negative, a [Put] that
    updates, and a [Remove] make of such a table.  [grown s ins] lists in
    [ins] the entries of the table in the order of their insertion. *)
Inductive grown {K V W : Type} : @state K V W -> list Z -> Prop :=
| grown_new a_size hf ef kd vd ta tb t h w :
    zc_hashtable_new a_size hf ef kd vd ta tb = Some t ->
    grown (State t h w) []
| grown_insert s ins k v b a s' :
    grown s ins ->
    find_entry s k = Some NULL ->
    load_exceeded (nelem (table s)) (tab_size (table s)) = false ->
    alloc_ok (heap s) a ->
    zc_hashtable_put s (Some k) v b a = Some (0, s') ->
    grown s' (ins ++ [a])
| grown_update s ins k v b a p s' :
    grown s ins ->
    find_entry s k = Some p -> p <> NULL ->
    zc_hashtable_put s (Some k) v b a = Some (0, s') ->
    grown s' ins
| grown_remove s ins k p s' :
    grown s ins ->
    find_entry s k = Some p -> p <> NULL ->
    zc_hashtable_remove s (Some k) = Some s' ->
    grown s' (filter (fun a => a <> p) ins).

(** An empty table of integer keys with [n] buckets, and the table after
    the keys 0, 2 and 4 are put into one bucket: the third [Put] finds
    [2 > 1 * 1.3] and rehashes first. *)
Definition int_start (n : Z) : @state Z Z (list del_event) :=
  State (int_table 0 (replicate (Z.to_nat n) NULL) n) ∅ [].

Definition three_puts : option (@state Z Z (list del_event)) :=
  put_all (int_start 1) [(0, 0, 101); (2, 20, 102); (4, 40, 103)].

(** ** The thread strategy: [zc_hashtable_tid_hash], [zc_hashtable_tid_equal] *)

Section TidStrategy.

(** [pthread_t] is an opaque type of the platform.  The source reads a
    thread identifier through the key pointer, hashes it by the cast
    [(unsigned int) tid] and compares two of them by [pthread_equal].
    [tid_value] is the integer the cast converts (the identifier itself
    where [pthread_t] is [unsigned long]); [pthread_equal] is the
    comparison of the platform, whose [int] result is read as a truth
    value. *)
Variable pthread_t : Type.
Variable tid_value : pthread_t -> Z.
Variable pthread_equal : pthread_t -> pthread_t -> bool.

Definition zc_hashtable_tid_hash (ptid : pthread_t) : Z :=
  let tid := ptid in to_uint (tid_value tid).

Definition zc_hashtable_tid_equal (ptid1 ptid2 : pthread_t) : bool :=
  let tid1 := ptid1 in
  let tid2 := ptid2 in
  pthread_equal tid1 tid2.

End TidStrategy.

(** ** The states of the interface *)

(** The states a program gets to through the interface: a table that
    [zc_hashtable_new] returns for lawful strategy functions, beside any
    store and world, and what a [Put] (whatever the allocations answer:
    a refused or granted bucket array, null or an unused address for the
    entry), a [Remove] and a [Clean] make of such a state. *)
Inductive reachable {K V W : Type} : @state K V W -> Prop :=
| reach_new a_size hf ef kd vd ta tb t h w :
    zc_hashtable_new a_size hf ef kd vd ta tb = Some t ->
    lawful t ->
    reachable (State t h w)
| reach_put s k v b a rc s' :
    reachable s -> alloc_ok (heap s) a ->
    zc_hashtable_put s k v b a = Some (rc, s') ->
    reachable s'
| reach_remove s k s' :
    reachable s -> zc_hashtable_remove s k = Some s' -> reachable s'
| reach_clean s s' :
    reachable s -> zc_hashtable_clean s = Some s' -> reachable s'.

(** ** More concrete tables *)

(** The example table before its third entry: the keys 3 and 1 chained
    in bucket 1; no rehash is due ([2 > 2 * 1.3] does not hold). *)
Definition small_state : @state Z Z (list del_event) :=
  State (int_table 2 [0; 102] 2)
        (list_to_map [(100, Entry 1 1 (Some 10) 102 0);
                      (102, Entry 3 3 (Some 30) 0 100)])
        [].

Definition small_chains : list (list Z) := [[]; [102; 100]].

(** A table whose integer keys are compared by their last decimal
    digit: the keys 13 and 4, in a table of two buckets. *)
Definition digit_hash (k : Z) : Z := k mod 10.

Definition digit_equal (k1 k2 : Z) : bool := k1 mod 10 =? k2 mod 10.

Definition digit_state : @state Z Z (list del_event) :=
  State (Table 2 [102; 100] 2 digit_hash digit_equal (Some log_key) (Some log_value))
        (list_to_map [(100, Entry 3 13 (Some 1) 0 0);
                      (102, Entry 4 4 (Some 2) 0 0)])
        [].

Definition digit_chains : list (list Z) := [[102]; [100]].

(** A table that has no destructor: the keys 3 and 1 chained in
    bucket 1. *)
Definition plain_state : @state Z Z (list del_event) :=
  State (Table 2 [0; 102] 2 int_hash Z.eqb None None)
        (list_to_map [(100, Entry 1 1 (Some 10) 102 0);
                      (102, Entry 3 3 (Some 30) 0 100)])
        [].

(** * Proofs *)

Section Chains.

Context {K V : Type}.
Implicit Types (h : gmap Z (@zc_hashtable_entry_t K V)).
Implicit Types (l : list Z) (bs : list (list Z)).

Lemma chain_frame h h' pv p l :
  (forall a, a ∈ l -> h' !! a = h !! a) -> chain h pv p l -> chain h' pv p l.
Proof.
  revert pv p. induction l as [|a l IH]; intros pv p Hfr; simpl; [done|].
  intros (-> & Hnz & e & He & Hpv & Hc). split; [done|]. split; [done|].
  exists e. split; [rewrite Hfr; [done | left] |]. split; [done|].
  apply IH; [|done]. intros b Hb. apply Hfr. by right.
Qed.

Lemma chain_head h pv p l : chain h pv p l -> p = hd NULL l.
Proof. destruct l; simpl; [done | by intros [-> _]]. Qed.

Lemma chain_nonnull h pv p l : chain h pv p l -> NULL ∉ l.
Proof.
  revert pv p. induction l as [|a l IH]; intros pv p; simpl.
  - intros _ Hin. by apply elem_of_nil in Hin.
  - intros (-> & Hnz & e & _ & _ & Hc) Hin.
    apply elem_of_cons in Hin as [Heq | Hin]; [congruence|].
    by apply (IH _ _ Hc).
Qed.

Lemma chain_alloc h pv p l a : chain h pv p l -> a ∈ l -> is_Some (h !! a).
Proof.
  revert pv p. induction l as [|b l IH]; intros pv p; simpl.
  - intros _ Hin. by apply elem_of_nil in Hin.
  - intros (-> & Hnz & e & He & _ & Hc) Hin.
    apply elem_of_cons in Hin as [-> | Hin]; [by eexists|].
    by apply (IH _ _ Hc).
Qed.

Lemma chain_null_nil h pv l : chain h pv NULL l -> l = [].
Proof. destruct l; simpl; [done|]. intros (<- & Hnz & _). done. Qed.

(** A list of distinct allocated addresses is not longer than the store
    is large: the fuel of the chain walks is enough. *)
Lemma alloc_length h l :
  NoDup l -> (forall a, a ∈ l -> is_Some (h !! a)) -> (length l <= size h)%nat.
Proof.
  intros Hnd Hal.
  rewrite <- (size_dom (D := gset Z) h).
  rewrite <- (size_list_to_set (C := gset Z) l Hnd).
  apply subseteq_size. intros a Ha.
  apply elem_of_list_to_set in Ha. apply elem_of_dom. by apply Hal.
Qed.

Lemma chain_fuel_enough h pv p l :
  NoDup l -> chain h pv p l -> (length l <= chain_fuel h)%nat.
Proof.
  intros Hnd Hc. apply alloc_length; [done|].
  intros a Ha. by apply (chain_alloc _ _ _ _ _ Hc).
Qed.

End Chains.

(** ** Arithmetic of the bucket index *)

Section Arith.

Lemma to_uint_range z : 0 <= to_uint z < UINT_MOD.
Proof. unfold to_uint, UINT_MOD. apply Z.mod_pos_bound. lia. Qed.

Lemma to_uint_small z : 0 <= z < UINT_MOD -> to_uint z = z.
Proof. unfold to_uint. apply Z.mod_small. Qed.

Lemma to_size_small z : 0 <= z < SIZE_MOD -> to_size z = z.
Proof. unfold to_size. apply Z.mod_small. Qed.

Lemma index_range x m : 0 <= x -> 0 < m -> 0 <= x mod m < m /\ x mod m <= x.
Proof.
  intros Hx Hm. split; [apply Z.mod_pos_bound; lia|].
  apply Z.mod_le; lia.
Qed.

Lemma to_uint_index x m : 0 <= x < UINT_MOD -> 0 < m -> to_uint (x mod m) = x mod m.
Proof.
  intros Hx Hm. apply to_uint_small.
  pose proof (index_range x m ltac:(lia) Hm). lia.
Qed.

Lemma umod_pos a b : 0 < b -> umod a b = Some (a mod b).
Proof. intros Hb. unfold umod. destruct (Z.eqb_spec b 0); [lia | done]. Qed.

End Arith.

(** ** The search of a chain *)

Section Find.

Context {K V W : Type}.
Implicit Types (h : gmap Z (@zc_hashtable_entry_t K V)).
Implicit Types (t : @zc_hashtable_t K V W) (s : @state K V W).
Implicit Types (l : list Z) (bs : list (list Z)).

Lemma chain_find_spec h t k l : forall fuel pv p,
  chain h pv p l -> (length l <= fuel)%nat ->
  exists r, chain_find fuel h t k p = Some r /\ found_in h t k l r.
Proof.
  induction l as [|a l IH]; intros fuel pv p Hc Hlen; simpl in Hc.
  - subst p. exists NULL. split; [by destruct fuel|].
    left. split; [done|]. intros a e Ha. by apply elem_of_nil in Ha.
  - destruct Hc as (-> & Hnz & e & He & Hpv & Hc).
    destruct fuel as [|fuel]; simpl in Hlen; [lia|]. simpl.
    destruct (Z.eqb_spec a 0) as [|_]; [done|].
    rewrite He. simpl.
    destruct (equal_fn t k (key e)) eqn:Heq.
    + exists a. split; [done|]. right. exists [], l, e.
      repeat split; try done. intros b eb Hb. by apply elem_of_nil in Hb.
    + destruct (IH fuel a (next e) Hc ltac:(lia)) as (r & Hr & Hf).
      exists r. split; [done|].
      destruct Hf as [[-> Hno] | (l1 & l2 & e' & -> & Hrz & He' & Heq' & Hno)].
      * left. split; [done|]. intros b eb Hb Heb.
        apply elem_of_cons in Hb as [-> | Hb]; [congruence | by eapply Hno].
      * right. exists (a :: l1), l2, e'. repeat split; try done.
        intros b eb Hb Heb.
        apply elem_of_cons in Hb as [-> | Hb]; [congruence | by eapply Hno].
Qed.

End Find.

(** ** Lists of buckets *)

Section Buckets.

Implicit Types (l : list Z) (bs : list (list Z)).

Lemma concat_split bs i l :
  bs !! i = Some l ->
  concat bs = concat (take i bs) ++ l ++ concat (drop (S i) bs).
Proof.
  intros Hi. rewrite <- (take_drop_middle bs i l Hi) at 1.
  by rewrite concat_app, concat_cons.
Qed.

Lemma concat_insert bs i l l' :
  bs !! i = Some l ->
  concat (<[i := l']> bs) = concat (take i bs) ++ l' ++ concat (drop (S i) bs).
Proof.
  intros Hi. rewrite insert_take_drop by (by eapply lookup_lt_Some).
  by rewrite concat_app, concat_cons.
Qed.

Lemma alter_insert_lookup (f : list Z -> list Z) bs i l :
  bs !! i = Some l -> alter f i bs = <[i := f l]> bs.
Proof.
  intros Hi. apply list_eq. intros j.
  destruct (decide (i = j)) as [<- | Hne].
  - rewrite list_lookup_alter_eq, Hi. simpl.
    by rewrite list_lookup_insert_eq by (by eapply lookup_lt_Some).
  - by rewrite list_lookup_alter_ne, list_lookup_insert_ne.
Qed.

Lemma elem_of_concat a bs :
  a ∈ concat bs <-> exists i l, bs !! i = Some l /\ a ∈ l.
Proof.
  split.
  - induction bs as [|l bs IH]; simpl; [by intros ?%elem_of_nil|].
    intros [Ha | Ha]%elem_of_app.
    + by exists 0%nat, l.
    + destruct (IH Ha) as (i & l' & Hi & Hl'). by exists (S i), l'.
  - intros (i & l & Hi & Ha). rewrite (concat_split _ _ _ Hi).
    apply elem_of_app. right. apply elem_of_app. by left.
Qed.

Lemma NoDup_concat_bucket bs i l : NoDup (concat bs) -> bs !! i = Some l -> NoDup l.
Proof.
  intros Hnd Hi. rewrite (concat_split _ _ _ Hi) in Hnd.
  apply NoDup_app in Hnd as (_ & _ & Hnd). by apply NoDup_app in Hnd as (? & _).
Qed.

Lemma NoDup_concat_inj bs i j l1 l2 a :
  NoDup (concat bs) -> bs !! i = Some l1 -> bs !! j = Some l2 ->
  a ∈ l1 -> a ∈ l2 -> i = j.
Proof.
  revert i j. induction bs as [|l bs IH]; intros i j Hnd Hi Hj H1 H2; [done|].
  simpl in Hnd. apply NoDup_app in Hnd as (_ & Hdis & Hnd).
  destruct i as [|i], j as [|j]; simpl in *; simplify_eq; try done.
  - exfalso. apply (Hdis a H1). apply elem_of_concat. by exists j, l2.
  - exfalso. apply (Hdis a H2). apply elem_of_concat. by exists i, l1.
  - f_equal. by apply IH.
Qed.

Lemma concat_push_perm bs j a :
  (j < length bs)%nat -> concat (push_abs j a bs) ≡ₚ a :: concat bs.
Proof.
  intros Hj. destruct (lookup_lt_is_Some_2 bs j Hj) as [l Hl].
  unfold push_abs. rewrite (alter_insert_lookup _ _ _ _ Hl).
  rewrite (concat_insert _ _ _ _ Hl), (concat_split _ _ _ Hl).
  solve_Permutation.
Qed.

Lemma concat_unlink_perm bs i l1 a l2 :
  bs !! i = Some (l1 ++ a :: l2) ->
  a :: concat (<[i := l1 ++ l2]> bs) ≡ₚ concat bs.
Proof.
  intros Hl. rewrite (concat_insert _ _ _ _ Hl), (concat_split _ _ _ Hl).
  solve_Permutation.
Qed.

Lemma push_abs_length bs j a : length (push_abs j a bs) = length bs.
Proof. unfold push_abs. apply length_alter. Qed.

End Buckets.

(** ** Well-formed tables: basic facts *)

Section RepFacts.

Context {K V W : Type}.
Implicit Types (h : gmap Z (@zc_hashtable_entry_t K V)).
Implicit Types (t : @zc_hashtable_t K V W) (s : @state K V W).
Implicit Types (l : list Z) (bs : list (list Z)).

Lemma payload_eq_Some h h' a e' :
  payload <$> h' !! a = payload <$> h !! a -> h' !! a = Some e' ->
  exists e, h !! a = Some e /\ hash_key e = hash_key e' /\
            key e = key e' /\ value e = value e'.
Proof.
  intros Hp He'. rewrite He' in Hp. simpl in Hp.
  destruct (h !! a) as [e|]; simpl in Hp; [|done].
  exists e. split; [done|]. unfold payload in Hp. by simplify_eq.
Qed.

Lemma rep_length s bs : Rep s bs -> length bs = length (tab (table s)).
Proof. intros HR. symmetry. exact (Forall2_length _ _ _ (rep_chains _ _ HR)). Qed.

Lemma rep_length_Z s bs : Rep s bs -> Z.of_nat (length bs) = tab_size (table s).
Proof. intros HR. rewrite (rep_length _ _ HR). exact (rep_len _ _ HR). Qed.

Lemma rep_lookup s bs i :
  Rep s bs -> 0 <= i < tab_size (table s) ->
  exists p l, tab (table s) !! Z.to_nat i = Some p /\
              bs !! Z.to_nat i = Some l /\ chain (heap s) NULL p l.
Proof.
  intros HR Hi. pose proof (rep_len _ _ HR) as Hlen.
  destruct (lookup_lt_is_Some_2 (tab (table s)) (Z.to_nat i)) as [p Hp]; [lia|].
  destruct (lookup_lt_is_Some_2 bs (Z.to_nat i)) as [l Hl].
  { rewrite (rep_length _ _ HR). lia. }
  exists p, l. repeat split; try done.
  by apply (Forall2_lookup_lr _ _ _ _ _ _ (rep_chains _ _ HR) Hp Hl).
Qed.

Lemma rep_bucket_chain s bs i l :
  Rep s bs -> bs !! i = Some l ->
  exists p, tab (table s) !! i = Some p /\ chain (heap s) NULL p l.
Proof.
  intros HR Hl.
  destruct (lookup_lt_is_Some_2 (tab (table s)) i) as [p Hp].
  { rewrite <- (rep_length _ _ HR). by eapply lookup_lt_Some. }
  exists p. split; [done|].
  by apply (Forall2_lookup_lr _ _ _ _ _ _ (rep_chains _ _ HR) Hp Hl).
Qed.

Lemma rep_entry s bs a :
  Rep s bs -> a ∈ concat bs -> a <> NULL /\ is_Some (heap s !! a).
Proof.
  intros HR (i & l & Hl & Ha)%elem_of_concat.
  destruct (rep_bucket_chain _ _ _ _ HR Hl) as (p & _ & Hc). split.
  - intros ->. by apply (chain_nonnull _ _ _ _ Hc).
  - by apply (chain_alloc _ _ _ _ _ Hc).
Qed.

Lemma rep_fuel s bs i l :
  Rep s bs -> bs !! i = Some l -> (length l <= chain_fuel (heap s))%nat.
Proof.
  intros HR Hl. destruct (rep_bucket_chain _ _ _ _ HR Hl) as (p & _ & Hc).
  eapply chain_fuel_enough; [|done].
  exact (NoDup_concat_bucket _ _ _ (rep_nodup _ _ HR) Hl).
Qed.

Lemma rep_fuel_all s bs :
  Rep s bs -> (length (concat bs) <= chain_fuel (heap s))%nat.
Proof.
  intros HR. apply alloc_length; [exact (rep_nodup _ _ HR)|].
  intros a Ha. by apply (rep_entry _ _ _ HR).
Qed.

Lemma find_entry_spec s bs k :
  Rep s bs ->
  exists l r, bs !! bucket_index (table s) k = Some l /\
              find_entry s k = Some r /\ found_in (heap s) (table s) k l r.
Proof.
  intros HR. destruct (rep_size _ _ HR) as [Hpos _].
  assert (Hh : 0 <= call_hash (table s) k < UINT_MOD) by apply to_uint_range.
  pose proof (index_range (call_hash (table s) k) _ ltac:(lia) Hpos) as [Hi _].
  destruct (rep_lookup _ _ _ HR Hi) as (p & l & Hp & Hl & Hc).
  destruct (chain_find_spec (heap s) (table s) k l (chain_fuel (heap s)) _ _ Hc
              (rep_fuel _ _ _ _ HR Hl)) as (r & Hr & Hf).
  exists l, r. split; [done|]. split; [|done].
  unfold find_entry. rewrite (umod_pos _ _ Hpos). simpl.
  rewrite (to_uint_index _ _ Hh Hpos), Hp. simpl. done.
Qed.

End RepFacts.

(** ** The head push *)

Section PushHead.

Context {K V : Type}.
Implicit Types (h : gmap Z (@zc_hashtable_entry_t K V)).
Implicit Types (l : list Z) (bs : list (list Z)).

Lemma chains_frame h h' (a_tab : list Z) bs :
  (forall a, a ∈ concat bs -> h' !! a = h !! a) ->
  Forall2 (chain h NULL) a_tab bs -> Forall2 (chain h' NULL) a_tab bs.
Proof.
  intros Hfr HF. apply Forall2_same_length_lookup. split.
  - by eapply Forall2_length.
  - intros i p l Hp Hl.
    apply (chain_frame h); [|by apply (Forall2_lookup_lr _ _ _ _ _ _ HF Hp Hl)].
    intros a Ha. apply Hfr. apply elem_of_concat. by exists i, l.
Qed.

Lemma push_head_spec h (a_tab : list Z) bs j p ep :
  Forall2 (chain h NULL) a_tab bs ->
  NoDup (concat bs) -> p ∉ concat bs -> p <> NULL ->
  h !! p = Some ep -> prev ep = NULL -> next ep = NULL ->
  (Z.to_nat j < length a_tab)%nat ->
  exists h',
    push_head a_tab h j p = Some (<[Z.to_nat j := p]> a_tab, h') /\
    Forall2 (chain h' NULL) (<[Z.to_nat j := p]> a_tab) (push_abs (Z.to_nat j) p bs) /\
    (forall x, payload <$> h' !! x = payload <$> h !! x) /\
    (forall x, x <> p -> x ∉ concat bs -> h' !! x = h !! x).
Proof.
  intros HF Hnd Hp Hpz Hep Hpv Hnx Hj.
  pose proof (Forall2_length _ _ _ HF) as Hlen.
  destruct (lookup_lt_is_Some_2 a_tab (Z.to_nat j) Hj) as [tj Htj].
  destruct (lookup_lt_is_Some_2 bs (Z.to_nat j)) as [lj Hlj]; [lia|].
  pose proof (Forall2_lookup_lr _ _ _ _ _ _ HF Htj Hlj) as Hcj.
  unfold push_head. rewrite Htj. simpl.
  (* the other buckets are framed out *)
  assert (Hothers : forall h',
    (forall x, x <> p -> x ∉ lj -> h' !! x = h !! x) ->
    chain h' NULL p (p :: lj) ->
    Forall2 (chain h' NULL) (<[Z.to_nat j := p]> a_tab) (push_abs (Z.to_nat j) p bs)).
  { intros h' Hfr Hnew. apply Forall2_same_length_lookup. split.
    - by rewrite length_insert, push_abs_length.
    - intros i x y Hx Hy. unfold push_abs in Hy.
      destruct (decide (Z.to_nat j = i)) as [<- | Hne].
      + rewrite list_lookup_insert_eq in Hx by done.
        rewrite list_lookup_alter_eq, Hlj in Hy. by simplify_eq/=.
      + rewrite list_lookup_insert_ne in Hx by done.
        rewrite list_lookup_alter_ne in Hy by done.
        apply (chain_frame h); [|by apply (Forall2_lookup_lr _ _ _ _ _ _ HF Hx Hy)].
        intros a Ha. apply Hfr.
        * intros ->. apply Hp. apply elem_of_concat. by exists i, y.
        * intros Ha'. apply Hne. symmetry.
          by apply (NoDup_concat_inj bs i (Z.to_nat j) y lj a). }
  destruct (Z.eqb_spec tj 0) as [-> | Hnz].
  - apply chain_null_nil in Hcj as ->.
    exists h. split; [done|]. split; [|done].
    apply Hothers; [done|]. simpl. repeat split; try done.
    exists ep. by rewrite Hnx.
  - destruct lj as [|a lj']; simpl in Hcj; [done|].
    destruct Hcj as (-> & _ & ea & Hea & Hpva & Hca).
    assert (Hin : a ∈ concat bs).
    { apply elem_of_concat. exists (Z.to_nat j), (a :: lj'). split; [done | left]. }
    assert (Hpa : p <> a) by (by intros ->).
    pose proof (NoDup_concat_bucket _ _ _ Hnd Hlj) as [Hnin Hndj]%NoDup_cons.
    unfold store_prev. rewrite Hea. simpl.
    unfold store_next. rewrite lookup_insert_ne, Hep by done. simpl.
    eexists. split; [done|]. split; [|split].
    + apply Hothers.
      * intros x Hxp Hxl. rewrite lookup_insert_ne by done.
        rewrite lookup_insert_ne; [done|]. intros ->. apply Hxl. left.
      * simpl. split; [done|]. split; [done|].
        eexists. rewrite lookup_insert_eq. split; [done|]. simpl.
        split; [done|]. split; [done|]. split; [done|].
        eexists. rewrite lookup_insert_ne, lookup_insert_eq by done.
        split; [done|]. simpl. split; [done|].
        apply (chain_frame h); [|done].
        intros x Hx. rewrite !lookup_insert_ne; [done | |].
        -- intros ->. by apply Hnin.
        -- intros ->. apply Hp. apply elem_of_concat.
           exists (Z.to_nat j), (a :: lj'). split; [done | by right].
    + intros x. destruct (decide (x = p)) as [-> | Hxp].
      { by rewrite lookup_insert_eq, Hep. }
      rewrite lookup_insert_ne by done.
      destruct (decide (x = a)) as [-> | Hxa].
      { by rewrite lookup_insert_eq, Hea. }
      by rewrite lookup_insert_ne.
    + intros x Hxp Hx. rewrite lookup_insert_ne by done.
      rewrite lookup_insert_ne; [done|]. by intros ->.
Qed.

End PushHead.

(** ** Counted loops *)

Section ForLoop.

Context {St : Type}.

(** Invariant rule: [Inv k] holds before round [k]. *)
Lemma for_loop_ind (Inv : nat -> St -> Prop) (body : Z -> St -> option St) (n : nat) :
  (forall k st, (k < n)%nat -> Inv k st ->
                exists st', body (Z.of_nat k) st = Some st' /\ Inv (S k) st') ->
  forall st, Inv 0%nat st ->
  exists st', for_loop n 0 body st = Some st' /\ Inv n st'.
Proof.
  intros Hbody.
  assert (Hgen : forall m k st, (k + m = n)%nat -> Inv k st ->
    exists st', for_loop m (Z.of_nat k) body st = Some st' /\ Inv n st').
  { induction m as [|m IH]; intros k st Hk HI; simpl.
    - exists st. split; [done|]. by replace n with k by lia.
    - destruct (Hbody k st ltac:(lia) HI) as (st1 & -> & HI1). simpl.
      replace (Z.of_nat k + 1) with (Z.of_nat (S k)) by lia.
      apply IH; [lia | done]. }
  intros st HI. apply (Hgen n 0%nat st); [lia | done].
Qed.

End ForLoop.

(** ** Rehash *)

Section RelinkAbs.

Variables (hk : Z -> Z) (new_size : Z).
Hypothesis new_size_pos : 0 < new_size.

Implicit Types (l : list Z) (bs : list (list Z)).

Lemma relink_abs_snoc l a :
  relink_abs hk new_size (l ++ [a])
  = push_abs (Z.to_nat (hk a mod new_size)) a (relink_abs hk new_size l).
Proof. unfold relink_abs. by rewrite foldl_app. Qed.

Lemma relink_abs_length l : length (relink_abs hk new_size l) = Z.to_nat new_size.
Proof.
  induction l as [|a l IH] using rev_ind.
  - unfold relink_abs. simpl. apply length_replicate.
  - by rewrite relink_abs_snoc, push_abs_length.
Qed.

Lemma relink_index a : (Z.to_nat (hk a mod new_size) < Z.to_nat new_size)%nat.
Proof. pose proof (Z.mod_pos_bound (hk a) new_size new_size_pos). lia. Qed.

Lemma concat_replicate_nil (n : nat) : concat (replicate n (@nil Z)) = [].
Proof. induction n; simpl; [done | by rewrite IHn]. Qed.

Lemma relink_abs_perm l : concat (relink_abs hk new_size l) ≡ₚ l.
Proof.
  induction l as [|a l IH] using rev_ind.
  - unfold relink_abs. simpl. by rewrite concat_replicate_nil.
  - rewrite relink_abs_snoc, concat_push_perm, IH.
    + by rewrite Permutation_cons_append.
    + rewrite relink_abs_length. apply relink_index.
Qed.

(** Every entry lands in the bucket of its cached hash. *)
Lemma relink_abs_bucket l i lb a :
  relink_abs hk new_size l !! i = Some lb -> a ∈ lb ->
  hk a mod new_size = Z.of_nat i.
Proof.
  revert i lb. induction l as [|b l IH] using rev_ind; intros i lb Hi Ha.
  - unfold relink_abs in Hi. simpl in Hi.
    apply lookup_replicate in Hi as [-> _]. by apply elem_of_nil in Ha.
  - rewrite relink_abs_snoc in Hi. unfold push_abs in Hi.
    destruct (decide (Z.to_nat (hk b mod new_size) = i)) as [Hbi | Hne].
    + subst i. rewrite list_lookup_alter_eq in Hi.
      destruct (relink_abs hk new_size l !! _) as [lb'|] eqn:Hlb'; [|done].
      simpl in Hi. simplify_eq.
      apply elem_of_cons in Ha as [-> | Ha].
      * pose proof (Z.mod_pos_bound (hk b) new_size new_size_pos). lia.
      * by apply (IH _ lb').
    + rewrite list_lookup_alter_ne in Hi by done. by apply (IH _ lb).
Qed.

End RelinkAbs.

Section Rehash.

Context {K V W : Type}.
Implicit Types (h : gmap Z (@zc_hashtable_entry_t K V)).
Implicit Types (t : @zc_hashtable_t K V W) (s : @state K V W).
Implicit Types (l : list Z) (bs : list (list Z)).

Lemma relink_spec h0 new_size done_l st a e0 :
  0 < new_size ->
  rehash_inv h0 new_size done_l st ->
  NoDup (done_l ++ [a]) -> a <> NULL -> h0 !! a = Some e0 ->
  exists st', relink new_size a st = Some (next e0, st') /\
              rehash_inv h0 new_size (done_l ++ [a]) st'.
Proof.
  intros Hpos (Hlen & HF & Hpay & Hfr) Hnd Haz He0.
  apply NoDup_app in Hnd as (Hnd & Hdis & _).
  assert (Ha : a ∉ done_l).
  { intros Ha. apply (Hdis a Ha). left. }
  destruct st as [ntab h]. simpl in *.
  unfold relink. simpl. rewrite (Hfr a Ha), He0. simpl.
  rewrite (umod_pos _ _ Hpos). simpl.
  set (h1 := <[a := set_prev (set_next e0 NULL) NULL]> h).
  assert (Hperm := relink_abs_perm (cached_hash h0) new_size Hpos done_l).
  assert (Hacc : a ∉ concat (relink_abs (cached_hash h0) new_size done_l)).
  { by rewrite Hperm. }
  destruct (push_head_spec h1 ntab (relink_abs (cached_hash h0) new_size done_l)
              (hash_key e0 mod new_size) a
              (set_prev (set_next e0 NULL) NULL)) as (h' & -> & HF' & Hpay' & Hfr').
  - apply (chains_frame h); [|done]. intros x Hx.
    unfold h1. rewrite lookup_insert_ne; [done|]. by intros ->.
  - by rewrite Hperm.
  - done.
  - done.
  - unfold h1. by rewrite lookup_insert_eq.
  - done.
  - done.
  - rewrite Hlen. pose proof (Z.mod_pos_bound (hash_key e0) new_size Hpos). lia.
  - simpl. eexists. split; [done|]. repeat split; simpl.
    + by rewrite length_insert.
    + rewrite relink_abs_snoc.
      replace (cached_hash h0 a) with (hash_key e0); [done|].
      unfold cached_hash. by rewrite He0.
    + intros x. rewrite Hpay'. unfold h1.
      destruct (decide (x = a)) as [-> | Hne].
      * by rewrite lookup_insert_eq, He0.
      * rewrite lookup_insert_ne by done. apply Hpay.
    + intros x Hx. rewrite Hfr'.
      * unfold h1. rewrite lookup_insert_ne; [apply Hfr|].
        -- intros Hx'. apply Hx. apply elem_of_app. by left.
        -- intros ->. apply Hx. apply elem_of_app. right. left.
      * intros ->. apply Hx. apply elem_of_app. right. left.
      * rewrite Hperm. intros Hx'. apply Hx. apply elem_of_app. by left.
Qed.

Lemma rehash_chain_spec h0 new_size l : forall fuel pv p done_l st,
  0 < new_size ->
  chain h0 pv p l -> NoDup (done_l ++ l) -> (length l <= fuel)%nat ->
  rehash_inv h0 new_size done_l st ->
  exists st', rehash_chain fuel new_size p st = Some st' /\
              rehash_inv h0 new_size (done_l ++ l) st'.
Proof.
  induction l as [|a l IH]; intros fuel pv p done_l st Hpos Hc Hnd Hlen HI; simpl in Hc.
  - subst p. exists st. split; [by destruct fuel|]. by rewrite app_nil_r.
  - destruct Hc as (-> & Hnz & e0 & He0 & _ & Hc).
    destruct fuel as [|fuel]; simpl in Hlen; [lia|]. simpl.
    destruct (Z.eqb_spec a 0) as [|_]; [done|].
    replace (done_l ++ a :: l) with ((done_l ++ [a]) ++ l) in *
      by (by rewrite <- app_assoc).
    destruct (relink_spec h0 new_size done_l st a e0 Hpos HI) as (st1 & -> & HI1);
      try done.
    { by apply NoDup_app in Hnd as (? & _). }
    simpl. apply (IH fuel a); try done. lia.
Qed.

Lemma calloc_tab_Some ok n a_tab :
  calloc_tab ok n = Some a_tab ->
  ok = true /\ 0 < n /\ n * 8 < SIZE_MOD /\ a_tab = replicate (Z.to_nat n) NULL.
Proof.
  unfold calloc_tab. destruct ok; simpl; [|done].
  destruct (Z.ltb_spec 0 n); simpl; [|done].
  destruct (Z.ltb_spec (n * 8) SIZE_MOD); simpl; [|done].
  by intros [= <-].
Qed.

Lemma calloc_tab_true n :
  0 < n -> n * 8 < SIZE_MOD -> calloc_tab true n = Some (replicate (Z.to_nat n) NULL).
Proof.
  intros H1 H2. unfold calloc_tab. simpl.
  destruct (Z.ltb_spec 0 n); [|lia]. destruct (Z.ltb_spec (n * 8) SIZE_MOD); [done | lia].
Qed.

Lemma chains_replicate h (n : nat) :
  Forall2 (chain h NULL) (replicate n NULL) (replicate n []).
Proof. induction n; simpl; by constructor. Qed.

(** The relinking loops of a rehash, on a well-formed table. *)
Lemma rehash_loops_spec s bs new_size :
  Rep s bs -> 0 < new_size ->
  exists st',
    for_loop (Z.to_nat (tab_size (table s))) 0
      (rehash_bucket (chain_fuel (heap s)) (table s) new_size)
      (replicate (Z.to_nat new_size) NULL, heap s) = Some st' /\
    rehash_inv (heap s) new_size (concat bs) st'.
Proof.
  intros HR Hpos.
  pose proof (rep_length_Z _ _ HR) as Hlen.
  destruct (for_loop_ind
    (fun k st => rehash_inv (heap s) new_size (concat (take k bs)) st)
    (rehash_bucket (chain_fuel (heap s)) (table s) new_size)
    (Z.to_nat (tab_size (table s)))) with (st := (replicate (Z.to_nat new_size) NULL, heap s))
    as (st' & Hrun & HI).
  - intros k st Hk HI.
    destruct (lookup_lt_is_Some_2 bs k) as [l Hl]; [lia|].
    destruct (rep_bucket_chain _ _ _ _ HR Hl) as (p & Hp & Hc).
    unfold rehash_bucket. rewrite Nat2Z.id, Hp. simpl.
    rewrite (take_S_r _ _ _ Hl), concat_app. simpl. rewrite app_nil_r.
    apply (rehash_chain_spec _ _ _ _ NULL); try done.
    + pose proof (rep_nodup _ _ HR) as Hnd.
      rewrite (concat_split _ _ _ Hl), (assoc_L (++)) in Hnd.
      by apply NoDup_app in Hnd as (? & _).
    + by eapply rep_fuel.
  - simpl. repeat split; simpl.
    + apply length_replicate.
    + apply chains_replicate.
  - exists st'. split; [done|].
    rewrite take_ge in HI by lia. done.
Qed.

Lemma rehash_spec s bs tab_alloc :
  Rep s bs ->
  zc_hashtable_rehash s tab_alloc = Some (-1, s) \/
  exists s',
    zc_hashtable_rehash s tab_alloc = Some (0, s') /\
    Rep s' (relink_abs (cached_hash (heap s)) (2 * tab_size (table s)) (concat bs)) /\
    table s' = set_tab_size (set_tab (table s) (tab (table s')))
                            (2 * tab_size (table s)) /\
    world s' = world s /\
    (forall x, payload <$> heap s' !! x = payload <$> heap s !! x) /\
    (forall x, x ∉ concat bs -> heap s' !! x = heap s !! x).
Proof.
  intros HR. destruct (rep_size _ _ HR) as [Hpos Hfit].
  unfold zc_hashtable_rehash.
  rewrite (to_size_small (2 * tab_size (table s))) by (unfold SIZE_MOD in *; lia).
  set (ns := 2 * tab_size (table s)).
  destruct (calloc_tab tab_alloc ns) as [new_tab|] eqn:Hcal; [|by left].
  right. apply calloc_tab_Some in Hcal as (_ & Hns & Hnfit & ->).
  destruct (rehash_loops_spec s bs ns HR Hns) as ([ntab h'] & -> & HI).
  destruct HI as (Hlen' & HF & Hpay & Hfr). simpl in *.
  pose proof (relink_abs_perm (cached_hash (heap s)) ns Hns (concat bs)) as Hperm.
  eexists. split; [done|]. simpl. split; [|done].
  constructor; simpl.
  - lia.
  - lia.
  - done.
  - rewrite Hperm. exact (rep_nodup _ _ HR).
  - rewrite Hperm. exact (rep_count _ _ HR).
  - intros i l a e Hl Ha He.
    destruct (payload_eq_Some _ _ _ _ (Hpay a) He) as (e0 & He0 & <- & _).
    pose proof (relink_abs_bucket _ _ Hns _ _ _ _ Hl Ha) as Hb.
    unfold cached_hash in Hb. by rewrite He0 in Hb.
  - intros a e Ha He.
    destruct (payload_eq_Some _ _ _ _ (Hpay a) He) as (e0 & He0 & <- & _).
    rewrite Hperm in Ha. exact (rep_hash _ _ HR a e0 Ha He0).
  - intros a Ha. rewrite Hperm in Ha. exact (rep_addr _ _ HR a Ha).
Qed.

(** With the allocation granted and room for the doubled array, the
    rehash of a well-formed table succeeds. *)
Lemma rehash_succeeds s bs :
  Rep s bs -> 2 * tab_size (table s) * 8 < SIZE_MOD ->
  exists s', zc_hashtable_rehash s true = Some (0, s').
Proof.
  intros HR Hfit. destruct (rep_size _ _ HR) as [Hpos _].
  destruct (rehash_spec s bs true HR) as [Hfail | (s' & Hok & _)]; [|by exists s'].
  exfalso. unfold zc_hashtable_rehash in Hfail.
  rewrite (to_size_small (2 * tab_size (table s))) in Hfail
    by (unfold SIZE_MOD in *; lia).
  rewrite calloc_tab_true in Hfail by lia.
  destruct (rehash_loops_spec s bs (2 * tab_size (table s)) HR ltac:(lia))
    as ([ntab h'] & Hrun & _).
  rewrite Hrun in Hfail. simpl in Hfail. congruence.
Qed.

End Rehash.

(** ** Insertion and update *)

Section Put.

Context {K V W : Type}.
Implicit Types (h : gmap Z (@zc_hashtable_entry_t K V)).
Implicit Types (t : @zc_hashtable_t K V W) (s : @state K V W).
Implicit Types (l : list Z) (bs : list (list Z)).

(** Distinct addresses below [n] are fewer than [n]. *)
Lemma addr_count (n : Z) l :
  0 < n -> NoDup l -> (forall a, a ∈ l -> 0 < a < n) -> Z.of_nat (length l) < n.
Proof.
  intros Hn Hnd Hr.
  assert (Hsub : l ⊆+ seqZ 1 (n - 1)).
  { apply NoDup_submseteq; [done|]. intros a Ha.
    apply elem_of_seqZ. specialize (Hr a Ha). lia. }
  apply submseteq_length in Hsub. rewrite length_seqZ in Hsub. lia.
Qed.

Lemma chain_set_key_value h a e k v l : forall pv p,
  h !! a = Some e -> chain h pv p l ->
  chain (<[a := set_key_value e k v]> h) pv p l.
Proof.
  induction l as [|b l IH]; intros pv p Ha; simpl; [done|].
  intros (-> & Hnz & eb & Heb & Hpv & Hc). split; [done|]. split; [done|].
  destruct (decide (a = b)) as [-> | Hne].
  - simplify_eq. eexists. rewrite lookup_insert_eq. split; [done|].
    simpl. split; [done|]. by apply IH.
  - exists eb. rewrite lookup_insert_ne by done.
    split; [done|]. split; [done|]. by apply IH.
Qed.

Lemma put_update_spec s bs k v p e :
  Rep s bs -> p ∈ concat bs -> heap s !! p = Some e ->
  exists s',
    put_update s k v p = Some s' /\
    s' = State (table s) (<[p := set_key_value e k v]> (heap s))
               (call_del (value_del_fn (table s)) (value e)
                  (call_del (key_del_fn (table s)) (key e) (world s))) /\
    Rep s' bs.
Proof.
  intros HR Hp He. unfold put_update. rewrite He. simpl.
  eexists. split; [done|]. split; [done|].
  constructor; simpl.
  - exact (rep_size _ _ HR).
  - exact (rep_len _ _ HR).
  - eapply Forall2_impl; [exact (rep_chains _ _ HR)|].
    intros q l Hc. by apply chain_set_key_value.
  - exact (rep_nodup _ _ HR).
  - exact (rep_count _ _ HR).
  - intros i l a e' Hl Ha He'.
    destruct (decide (p = a)) as [-> | Hne].
    + rewrite lookup_insert_eq in He'. simplify_eq. simpl.
      exact (rep_bucket _ _ HR i l a e Hl Ha He).
    + rewrite lookup_insert_ne in He' by done.
      exact (rep_bucket _ _ HR i l a e' Hl Ha He').
  - intros a e' Ha He'.
    destruct (decide (p = a)) as [-> | Hne].
    + rewrite lookup_insert_eq in He'. simplify_eq. simpl.
      exact (rep_hash _ _ HR a e Ha He).
    + rewrite lookup_insert_ne in He' by done.
      exact (rep_hash _ _ HR a e' Ha He').
  - exact (rep_addr _ _ HR).
Qed.

Lemma put_new_entry_spec s bs k v p :
  Rep s bs -> heap s !! p = None -> 0 < p < SIZE_MOD ->
  exists s',
    put_new_entry s k v p = Some s' /\
    Rep s' (push_abs (bucket_index (table s) k) p bs) /\
    table s' = set_nelem (set_tab (table s) (tab (table s')))
                         (nelem (table s) + 1) /\
    world s' = world s /\
    (exists e, heap s' !! p = Some e /\
               payload e = (call_hash (table s) k, k, v)) /\
    (forall x, x <> p -> payload <$> heap s' !! x = payload <$> heap s !! x) /\
    (forall x, x <> p -> x ∉ concat bs -> heap s' !! x = heap s !! x).
Proof.
  intros HR Hfresh Hp. destruct (rep_size _ _ HR) as [Hpos Hfit].
  assert (Hh : 0 <= call_hash (table s) k < UINT_MOD) by apply to_uint_range.
  pose proof (index_range (call_hash (table s) k) _ ltac:(lia) Hpos) as [Hi _].
  assert (Hnin : p ∉ concat bs).
  { intros Hin. destruct (rep_entry _ _ _ HR Hin) as [_ [e He]]. congruence. }
  unfold put_new_entry. simpl. rewrite (umod_pos _ _ Hpos). simpl.
  rewrite (to_uint_index _ _ Hh Hpos).
  set (e := Entry (call_hash (table s) k) k v NULL NULL).
  destruct (push_head_spec (<[p := e]> (heap s)) (tab (table s)) bs
              (call_hash (table s) k mod tab_size (table s)) p e)
    as (h' & -> & HF & Hpay & Hfr); try done.
  - apply (chains_frame (heap s)); [|exact (rep_chains _ _ HR)].
    intros a Ha. rewrite lookup_insert_ne; [done|]. by intros ->.
  - exact (rep_nodup _ _ HR).
  - lia.
  - by rewrite lookup_insert_eq.
  - pose proof (rep_len _ _ HR). lia.
  - simpl.
    assert (Hcnt : Z.of_nat (length (p :: concat bs)) < SIZE_MOD).
    { apply addr_count.
      - done.
      - apply NoDup_cons. split; [done | exact (rep_nodup _ _ HR)].
      - intros a [-> | Ha]%elem_of_cons; [done | exact (rep_addr _ _ HR a Ha)]. }
    simpl length in Hcnt.
    pose proof (rep_count _ _ HR) as Hcount.
    rewrite (to_size_small (nelem (table s) + 1)) by lia.
    assert (Hperm : concat (push_abs (bucket_index (table s) k) p bs) ≡ₚ p :: concat bs).
    { apply concat_push_perm. rewrite (rep_length _ _ HR).
      pose proof (rep_len _ _ HR). unfold bucket_index. lia. }
    eexists. split; [done|]. split; [|split; [done|split; [done|split; [|split]]]].
    + constructor; simpl.
      * done.
      * rewrite length_insert. exact (rep_len _ _ HR).
      * exact HF.
      * rewrite Hperm. apply NoDup_cons. split; [done | exact (rep_nodup _ _ HR)].
      * rewrite Hperm. simpl length. lia.
      * intros i l a e' Hl Ha He'.
        unfold push_abs, bucket_index in Hl.
        destruct (payload_eq_Some _ _ _ _ (Hpay a) He') as (e0 & He0 & <- & _).
        destruct (decide (Z.to_nat (call_hash (table s) k mod tab_size (table s)) = i))
          as [<- | Hne].
        -- rewrite list_lookup_alter_eq in Hl.
           destruct (bs !! _) as [l0|] eqn:Hl0; [|done]. simpl in Hl. simplify_eq.
           apply elem_of_cons in Ha as [-> | Ha].
           ++ rewrite lookup_insert_eq in He0. simplify_eq. simpl. lia.
           ++ rewrite lookup_insert_ne in He0.
              ** exact (rep_bucket _ _ HR _ _ _ _ Hl0 Ha He0).
              ** intros ->. apply Hnin. apply elem_of_concat. eauto.
        -- rewrite list_lookup_alter_ne in Hl by done.
           rewrite lookup_insert_ne in He0.
           ++ exact (rep_bucket _ _ HR _ _ _ _ Hl Ha He0).
           ++ intros ->. apply Hnin. apply elem_of_concat. eauto.
      * intros a e' Ha He'. rewrite Hperm in Ha.
        destruct (payload_eq_Some _ _ _ _ (Hpay a) He') as (e0 & He0 & <- & _).
        apply elem_of_cons in Ha as [-> | Ha].
        -- rewrite lookup_insert_eq in He0. by simplify_eq.
        -- rewrite lookup_insert_ne in He0 by (by intros ->).
           exact (rep_hash _ _ HR a e0 Ha He0).
      * intros a Ha. rewrite Hperm in Ha.
        apply elem_of_cons in Ha as [-> | Ha]; [done | exact (rep_addr _ _ HR a Ha)].
    + simpl. specialize (Hpay p). rewrite lookup_insert_eq in Hpay.
      destruct (h' !! p) as [e'|]; [|done]. exists e'. split; [done|].
      simpl in Hpay. assert (Hq : payload e' = payload e) by congruence.
      by rewrite Hq.
    + simpl. intros x Hx. rewrite Hpay. by rewrite lookup_insert_ne.
    + simpl. intros x Hx Hxb. rewrite Hfr by done. by rewrite lookup_insert_ne.
Qed.

End Put.

(** ** Removal *)

Section Remove.

Context {K V W : Type}.
Implicit Types (h : gmap Z (@zc_hashtable_entry_t K V)).
Implicit Types (t : @zc_hashtable_t K V W) (s : @state K V W).
Implicit Types (l : list Z) (bs : list (list Z)).

Lemma unlink_heap_other h a e x :
  x <> a -> x <> next e -> x <> prev e -> unlink_heap h a e !! x = h !! x.
Proof.
  intros H1 H2 H3. unfold unlink_heap. rewrite lookup_delete_ne by done.
  destruct (prev e =? 0); [|rewrite lookup_alter_ne by done];
    (destruct (next e =? 0); [|rewrite lookup_alter_ne by done]); done.
Qed.

Lemma unlink_heap_self h a e : unlink_heap h a e !! a = None.
Proof. unfold unlink_heap. apply lookup_delete_eq. Qed.

Lemma unlink_heap_next h a e ec :
  next e <> NULL -> next e <> a -> next e <> prev e -> h !! next e = Some ec ->
  unlink_heap h a e !! next e = Some (set_prev ec (prev e)).
Proof.
  intros H1 H2 H3 Hc. unfold unlink_heap. rewrite lookup_delete_ne by done.
  destruct (Z.eqb_spec (next e) 0); [done|].
  destruct (prev e =? 0); [|rewrite lookup_alter_ne by done];
    by rewrite lookup_alter_eq, Hc.
Qed.

Lemma unlink_heap_prev h a e eb :
  prev e <> NULL -> prev e <> a -> next e <> prev e -> h !! prev e = Some eb ->
  unlink_heap h a e !! prev e = Some (set_next eb (next e)).
Proof.
  intros H1 H2 H3 Hb. unfold unlink_heap. rewrite lookup_delete_ne by done.
  destruct (Z.eqb_spec (prev e) 0); [done|].
  rewrite lookup_alter_eq.
  destruct (next e =? 0); [|rewrite lookup_alter_ne by done]; by rewrite Hb.
Qed.

Lemma unlink_heap_payload h a e x :
  x <> a -> payload <$> unlink_heap h a e !! x = payload <$> h !! x.
Proof.
  intros H1. unfold unlink_heap. rewrite lookup_delete_ne by done.
  assert (Hal : forall (f : @zc_hashtable_entry_t K V -> @zc_hashtable_entry_t K V) q h0,
    (forall y, payload (f y) = payload y) ->
    payload <$> alter f q h0 !! x = payload <$> h0 !! x).
  { intros f q h0 Hf. destruct (decide (q = x)) as [-> | Hne].
    - rewrite lookup_alter_eq. destruct (h0 !! x); simpl; [by rewrite Hf | done].
    - by rewrite lookup_alter_ne. }
  destruct (prev e =? 0); [|rewrite Hal by done];
    (destruct (next e =? 0); [|rewrite Hal by done]); done.
Qed.

(** The neighbours of an entry in the middle of a chain. *)
Lemma chain_mid h a e l2 : forall l1 pv p,
  chain h pv p (l1 ++ a :: l2) -> h !! a = Some e ->
  prev e = default pv (last l1) /\ next e = hd NULL l2.
Proof.
  induction l1 as [|b l1 IH]; intros pv p Hc He; simpl in Hc.
  - destruct Hc as (-> & _ & e' & He' & Hpv & Hc).
    rewrite He in He'. injection He' as <-.
    split; [done|]. by eapply chain_head.
  - destruct Hc as (-> & _ & eb & Heb & Hpv & Hc).
    destruct (IH _ _ Hc He) as [Hp Hn]. split; [|done].
    rewrite Hp, last_cons. by destruct (last l1).
Qed.

Lemma chain_unlink h a e l2 : forall l1 pv p,
  chain h pv p (l1 ++ a :: l2) -> NoDup (l1 ++ a :: l2) ->
  pv ∉ l1 ++ a :: l2 -> h !! a = Some e ->
  chain (unlink_heap h a e) pv (match l1 with [] => next e | _ => p end) (l1 ++ l2).
Proof.
  induction l1 as [|b l1 IH]; intros pv p Hc Hnd Hpv He.
  - simpl in *. destruct Hc as (-> & Hnz & e' & He' & Hpv' & Hc).
    rewrite He in He'. injection He' as <-. subst pv.
    apply NoDup_cons in Hnd as [Hnin Hnd].
    destruct l2 as [|c l2]; simpl in *; [done|].
    destruct Hc as (Hnx & Hcz & ec & Hec & Hpc & Hc).
    split; [done|]. split; [done|].
    apply NoDup_cons in Hnd as [Hcnin Hnd].
    assert (Hca : c <> a). { intros ->. apply Hnin. left. }
    assert (Hcp : c <> prev e).
    { intros ->. apply Hpv. right. left. }
    exists (set_prev ec (prev e)). split.
    { rewrite <- Hnx. apply unlink_heap_next; rewrite ?Hnx; done. }
    simpl. split; [done|].
    apply (chain_frame h); [|done]. intros x Hx.
    apply unlink_heap_other.
    + intros ->. apply Hnin. by right.
    + rewrite Hnx. by intros ->.
    + intros ->. apply Hpv. right. by right.
  - simpl in Hc. destruct Hc as (-> & Hnz & eb & Heb & Hpvb & Hc).
    change ((b :: l1) ++ a :: l2) with (b :: (l1 ++ a :: l2)) in Hnd, Hpv.
    apply NoDup_cons in Hnd as [Hbnin Hnd].
    specialize (IH b (next eb) Hc Hnd Hbnin He).
    destruct (chain_mid _ _ _ _ _ _ _ Hc He) as [Hpe Hne].
    assert (Hba : b <> a).
    { intros ->. apply Hbnin. apply elem_of_app. right. left. }
    assert (Hbn : b <> next e).
    { intros Hbn. rewrite Hne in Hbn. destruct l2 as [|c l2]; simpl in Hbn; [done|].
      subst c. apply Hbnin. apply elem_of_app. right. right. left. }
    simpl. split; [done|]. split; [done|].
    destruct l1 as [|c l1].
    + simpl in Hpe. simpl in IH.
      exists (set_next eb (next e)). split.
      { rewrite <- Hpe. apply unlink_heap_prev; rewrite ?Hpe; done. }
      simpl. split; [done|]. done.
    + exists eb. split.
      { rewrite unlink_heap_other; try done.
        intros Hbp. rewrite Hpe in Hbp.
        destruct (last (c :: l1)) as [x|] eqn:Hlast; simpl in Hbp.
        - subst x. apply last_Some_elem_of in Hlast.
          apply Hbnin. apply elem_of_app. by left.
        - by apply last_None in Hlast. }
      split; [done|]. exact IH.
Qed.

Lemma store_prev_alter h p q e :
  h !! p = Some e -> store_prev h p q = Some (alter (fun x => set_prev x q) p h).
Proof.
  intros He. unfold store_prev. rewrite He. simpl.
  by rewrite (alter_alt_Some _ _ _ _ He).
Qed.

Lemma store_next_alter h p q e :
  h !! p = Some e -> store_next h p q = Some (alter (fun x => set_next x q) p h).
Proof.
  intros He. unfold store_next. rewrite He. simpl.
  by rewrite (alter_alt_Some _ _ _ _ He).
Qed.

(** What [remove_entry] computes when the neighbours of the entry are
    allocated and are not the entry itself. *)
Lemma remove_entry_eq s p e :
  heap s !! p = Some e -> next e <> p -> prev e <> p ->
  (next e <> NULL -> is_Some (heap s !! next e)) ->
  (prev e <> NULL -> is_Some (heap s !! prev e)) ->
  0 < tab_size (table s) -> 0 <= hash_key e < UINT_MOD ->
  (Z.to_nat (hash_key e mod tab_size (table s)) < length (tab (table s)))%nat ->
  remove_entry s p =
    Some (State
            (set_nelem
               (set_tab (table s)
                  (if prev e =? NULL
                   then <[Z.to_nat (hash_key e mod tab_size (table s)) := next e]>
                          (tab (table s))
                   else tab (table s)))
               (to_size (nelem (table s) - 1)))
            (unlink_heap (heap s) p e)
            (call_del (value_del_fn (table s)) (value e)
               (call_del (key_del_fn (table s)) (key e) (world s)))).
Proof.
  intros He Hnp Hpp Hn Hp Hpos Hh Hidx.
  unfold remove_entry, unlink_heap. rewrite He. simpl.
  set (h1 := if next e =? 0 then heap s
             else alter (fun x => set_prev x (prev e)) (next e) (heap s)).
  assert (H1 : (if negb (next e =? 0) then store_prev (heap s) (next e) (prev e)
                else Some (heap s)) = Some h1).
  { unfold h1. destruct (Z.eqb_spec (next e) 0) as [|Hnz]; simpl; [done|].
    destruct (Hn Hnz) as [ec Hec]. by apply store_prev_alter with ec. }
  rewrite H1. simpl.
  assert (H1p : h1 !! p = Some e).
  { unfold h1. destruct (next e =? 0); [done|]. by rewrite lookup_alter_ne. }
  rewrite H1p. simpl.
  destruct (Z.eqb_spec (prev e) 0) as [Hpz | Hpnz]; simpl.
  - rewrite (umod_pos _ _ Hpos). simpl. rewrite (to_uint_index _ _ Hh Hpos).
    destruct (lookup_lt_is_Some_2 _ _ Hidx) as [q ->]. simpl.
    by rewrite H1p.
  - assert (H1b : is_Some (h1 !! prev e)).
    { unfold h1. destruct (next e =? 0); [by apply Hp|].
      apply lookup_alter_is_Some. by apply Hp. }
    destruct H1b as [eb Heb]. rewrite (store_next_alter _ _ _ _ Heb). simpl.
    by rewrite lookup_alter_ne, H1p.
Qed.

Lemma remove_entry_spec s bs i l1 p l2 e :
  Rep s bs -> bs !! i = Some (l1 ++ p :: l2) -> heap s !! p = Some e ->
  exists s',
    remove_entry s p = Some s' /\
    Rep s' (<[i := l1 ++ l2]> bs) /\
    table s' = set_nelem (set_tab (table s) (tab (table s')))
                         (nelem (table s) - 1) /\
    world s' = call_del (value_del_fn (table s)) (value e)
                 (call_del (key_del_fn (table s)) (key e) (world s)) /\
    heap s' = unlink_heap (heap s) p e.
Proof.
  intros HR Hl He. destruct (rep_size _ _ HR) as [Hpos Hfit].
  destruct (rep_bucket_chain _ _ _ _ HR Hl) as (q & Hq & Hc).
  pose proof (NoDup_concat_bucket _ _ _ (rep_nodup _ _ HR) Hl) as Hndl.
  pose proof (chain_nonnull _ _ _ _ Hc) as Hnull.
  destruct (chain_mid _ _ _ _ _ _ _ Hc He) as [Hpe Hne].
  assert (Hpin : p ∈ l1 ++ p :: l2). { apply elem_of_app. right. left. }
  assert (Hpc : p ∈ concat bs). { apply elem_of_concat. eauto. }
  pose proof (rep_bucket _ _ HR _ _ _ _ Hl Hpin He) as Hbk.
  pose proof (rep_hash _ _ HR _ _ Hpc He) as Hh.
  (* where the neighbours are *)
  assert (Hnext : next e = NULL \/ next e ∈ l2).
  { rewrite Hne. destruct l2; simpl; [by left | right; left]. }
  assert (Hprev : (l1 = [] /\ prev e = NULL) \/ (l1 <> [] /\ prev e ∈ l1)).
  { rewrite Hpe. destruct (last l1) as [x|] eqn:Hlast; simpl.
    - right. split; [by intros -> | by apply last_Some_elem_of].
    - left. by apply last_None in Hlast. }
  apply NoDup_app in Hndl as (Hnd1 & Hdis & Hnd2).
  apply NoDup_cons in Hnd2 as [Hpl2 Hnd2].
  assert (Hpl1 : p ∉ l1). { intros Hin. apply (Hdis p Hin). left. }
  assert (Hnp : next e <> p).
  { intros Heq. rewrite Heq in Hnext. destruct Hnext as [-> | Hin]; [|done].
    by apply Hnull. }
  assert (Hpp : prev e <> p).
  { intros Heq. rewrite Heq in Hprev. destruct Hprev as [[_ ->] | [_ Hin]]; [|done].
    by apply Hnull. }
  assert (Hnpe : next e <> NULL -> next e <> prev e).
  { intros Hnz Heq. destruct Hnext as [? | Hin]; [done|].
    destruct Hprev as [[_ Hz] | [_ Hin']]; [congruence|].
    rewrite <- Heq in Hin'. apply (Hdis _ Hin'). by right. }
  assert (Hz1 : prev e = NULL <-> l1 = []).
  { destruct Hprev as [[-> ->] | [Hne1 Hin]]; [done|]. split; [|done].
    intros Hz. rewrite Hz in Hin. exfalso. apply Hnull. apply elem_of_app. by left. }
  rewrite (remove_entry_eq s p e); try done.
  2:{ intros Hnz. destruct Hnext as [? | Hin]; [done|].
      apply (chain_alloc _ _ _ _ _ Hc). apply elem_of_app. right. by right. }
  2:{ intros Hnz. destruct Hprev as [[_ ?] | [_ Hin]]; [done|].
      apply (chain_alloc _ _ _ _ _ Hc). apply elem_of_app. by left. }
  2:{ rewrite Hbk, Nat2Z.id. by eapply lookup_lt_Some. }
  rewrite Hbk, Nat2Z.id.
  assert (Hperm := concat_unlink_perm _ _ _ _ _ Hl).
  assert (Hnd' : NoDup (p :: concat (<[i := l1 ++ l2]> bs))).
  { rewrite Hperm. exact (rep_nodup _ _ HR). }
  apply NoDup_cons in Hnd' as [Hpnin Hnd'].
  assert (Hsub : forall x, x ∈ concat (<[i := l1 ++ l2]> bs) -> x ∈ concat bs /\ x <> p).
  { intros x Hx. split; [rewrite <- Hperm; by right | by intros ->]. }
  assert (Hcnt : Z.of_nat (length (concat bs)) < SIZE_MOD).
  { apply addr_count; [done | exact (rep_nodup _ _ HR) | exact (rep_addr _ _ HR)]. }
  assert (Hlenp : length (concat bs) = S (length (concat (<[i := l1 ++ l2]> bs)))).
  { by rewrite <- Hperm. }
  pose proof (rep_count _ _ HR) as Hcount.
  rewrite (to_size_small (nelem (table s) - 1)) by lia.
  eexists. split; [done|]. split; [|done].
  constructor; simpl.
  - done.
  - destruct (prev e =? 0); [rewrite length_insert|]; exact (rep_len _ _ HR).
  - apply Forall2_same_length_lookup. split.
    { rewrite length_insert. destruct (prev e =? 0); [rewrite length_insert|];
        symmetry; exact (rep_length _ _ HR). }
    intros j x lx Hx Hlx.
    destruct (decide (i = j)) as [<- | Hij].
    + rewrite list_lookup_insert_eq in Hlx by (by eapply lookup_lt_Some).
      injection Hlx as <-.
      pose proof (chain_unlink _ _ _ _ _ _ _ Hc
                    ltac:(apply NoDup_app; repeat split; try done;
                          by apply NoDup_cons) Hnull He) as Hc'.
      destruct (Z.eqb_spec (prev e) 0) as [Hpz | Hpnz].
      * rewrite list_lookup_insert_eq in Hx by (by eapply lookup_lt_Some).
        injection Hx as <-. apply Hz1 in Hpz. by subst l1.
      * rewrite Hq in Hx. injection Hx as <-.
        destruct l1 as [|b l1]; [|done]. exfalso. apply Hpnz. by apply Hz1.
    + rewrite list_lookup_insert_ne in Hlx by done.
      assert (Hx' : tab (table s) !! j = Some x).
      { destruct (prev e =? 0); [by rewrite list_lookup_insert_ne in Hx | done]. }
      destruct (rep_bucket_chain _ _ _ _ HR Hlx) as (x' & Hx'' & Hcx).
      rewrite Hx' in Hx''. injection Hx'' as <-.
      apply (chain_frame (heap s)); [|done].
      intros y Hy.
      assert (Hyl : forall z, z ∈ l1 ++ p :: l2 -> y <> z).
      { intros z Hz ->. apply Hij.
        by apply (NoDup_concat_inj bs i j (l1 ++ p :: l2) lx z (rep_nodup _ _ HR)). }
      apply unlink_heap_other.
      * by apply Hyl.
      * destruct Hnext as [-> | Hin].
        -- intros ->. by apply (chain_nonnull _ _ _ _ Hcx).
        -- apply Hyl. apply elem_of_app. right. by right.
      * destruct Hprev as [[_ ->] | [_ Hin]].
        -- intros ->. by apply (chain_nonnull _ _ _ _ Hcx).
        -- apply Hyl. apply elem_of_app. by left.
  - done.
  - lia.
  - intros j lx a ea Hlx Ha Hea.
    assert (Haa : a <> p).
    { apply Hsub. apply elem_of_concat. by exists j, lx. }
    destruct (payload_eq_Some _ _ _ _ (unlink_heap_payload (heap s) p e a Haa) Hea)
      as (e0 & He0 & <- & _).
    destruct (decide (i = j)) as [<- | Hij].
    + rewrite list_lookup_insert_eq in Hlx by (by eapply lookup_lt_Some).
      injection Hlx as <-.
      apply (rep_bucket _ _ HR _ _ a e0 Hl); [|done].
      apply elem_of_app in Ha as [Ha | Ha]; apply elem_of_app; [by left|].
      right. by right.
    + rewrite list_lookup_insert_ne in Hlx by done.
      exact (rep_bucket _ _ HR _ _ _ _ Hlx Ha He0).
  - intros a ea Ha Hea. destruct (Hsub a Ha) as [Hin Haa].
    destruct (payload_eq_Some _ _ _ _ (unlink_heap_payload (heap s) p e a Haa) Hea)
      as (e0 & He0 & <- & _).
    exact (rep_hash _ _ HR _ _ Hin He0).
  - intros a Ha. destruct (Hsub a Ha) as [Hin _]. exact (rep_addr _ _ HR _ Hin).
Qed.

End Remove.

(** ** Construction and cleaning *)

Section NewClean.

Context {K V W : Type}.
Implicit Types (h : gmap Z (@zc_hashtable_entry_t K V)).
Implicit Types (t : @zc_hashtable_t K V W) (s : @state K V W).
Implicit Types (l : list Z) (bs : list (list Z)).

Lemma rep_empty t h (w : W) (n : nat) :
  0 < tab_size t -> tab_size t * 8 < SIZE_MOD ->
  tab_size t = Z.of_nat n -> tab t = replicate n NULL -> nelem t = 0 ->
  Rep (State t h w) (replicate n []).
Proof.
  intros Hpos Hfit Hn Htab Hcnt.
  constructor; simpl; rewrite ?concat_replicate_nil.
  - done.
  - rewrite Htab, length_replicate. lia.
  - rewrite Htab. apply chains_replicate.
  - constructor.
  - done.
  - intros i l a e Hl Ha. apply lookup_replicate in Hl as [-> _].
    by apply elem_of_nil in Ha.
  - intros a e Ha. by apply elem_of_nil in Ha.
  - intros a Ha. by apply elem_of_nil in Ha.
Qed.

Lemma new_spec a_size hf ef kd vd ta tb t :
  zc_hashtable_new a_size hf ef kd vd ta tb = Some t ->
  hf = Some (hash_fn t) /\ ef = Some (equal_fn t) /\
  key_del_fn t = kd /\ value_del_fn t = vd /\
  tab_size t = a_size /\ nelem t = 0 /\ 0 < a_size /\
  forall h (w : W), Rep (State t h w) (replicate (Z.to_nat a_size) []).
Proof.
  unfold zc_hashtable_new, zc_assert.
  destruct (a_size =? 0); simpl; [done|].
  destruct hf as [hf|]; [|done]. destruct ef as [ef|]; [|done].
  destruct ta; simpl; [|done].
  destruct (calloc_tab tb a_size) as [a_tab|] eqn:Hcal; [|done].
  apply calloc_tab_Some in Hcal as (_ & Hpos & Hfit & ->).
  intros [= <-]. simpl. split_and!; try done.
  intros h w. apply rep_empty; simpl; try done. lia.
Qed.

Lemma new_success a_size (hf : K -> Z) (ef : K -> K -> bool)
    (kd : option (K -> W -> W)) (vd : option (option V -> W -> W)) :
  0 < a_size -> a_size * 8 < SIZE_MOD ->
  zc_hashtable_new a_size (Some hf) (Some ef) kd vd true true
  = Some (Table 0 (replicate (Z.to_nat a_size) NULL) a_size hf ef kd vd).
Proof.
  intros Hpos Hfit. unfold zc_hashtable_new, zc_assert.
  destruct (Z.eqb_spec a_size 0); [lia|]. simpl.
  by rewrite (calloc_tab_true _ Hpos Hfit).
Qed.

Lemma clean_chain_spec t h0 l : forall fuel pv p done_l h w,
  chain h0 pv p l -> NoDup (done_l ++ l) -> (length l <= fuel)%nat ->
  freed h0 done_l h ->
  exists h', clean_chain fuel t p (h, w) = Some (h', clean_world t h0 l w) /\
             freed h0 (done_l ++ l) h'.
Proof.
  induction l as [|a l IH]; intros fuel pv p done_l h w Hc Hnd Hlen Hfr; simpl in Hc.
  - subst p. exists h. split; [by destruct fuel|]. by rewrite app_nil_r.
  - destruct Hc as (-> & Hnz & e0 & He0 & _ & Hc).
    destruct fuel as [|fuel]; simpl in Hlen; [lia|]. simpl.
    destruct (Z.eqb_spec a 0) as [|_]; [done|].
    replace (done_l ++ a :: l) with ((done_l ++ [a]) ++ l) in *
      by (by rewrite <- app_assoc).
    assert (Ha : a ∉ done_l).
    { apply NoDup_app in Hnd as (Hnd & _). apply NoDup_app in Hnd as (_ & Hdis & _).
      intros Hin. apply (Hdis a Hin). left. }
    destruct Hfr as [Hfr1 Hfr2].
    rewrite (Hfr2 a Ha), He0. simpl.
    destruct (IH fuel a (next e0) (done_l ++ [a]) (delete a h)
                (call_del (value_del_fn t) (value e0)
                   (call_del (key_del_fn t) (key e0) w)) Hc Hnd ltac:(lia))
      as (h' & -> & Hfr').
    + split.
      * intros x [Hx | ->%list_elem_of_singleton]%elem_of_app.
        -- destruct (decide (x = a)) as [-> | Hne]; [done|].
           rewrite lookup_delete_ne by done. by apply Hfr1.
        -- apply lookup_delete_eq.
      * intros x Hx. rewrite lookup_delete_ne.
        -- apply Hfr2. intros Hin. apply Hx. apply elem_of_app. by left.
        -- intros ->. apply Hx. apply elem_of_app. right. left.
    + exists h'. by split.
Qed.

Lemma clean_spec s bs :
  Rep s bs ->
  exists s',
    zc_hashtable_clean s = Some s' /\
    Rep s' (replicate (length bs) []) /\
    table s' = set_nelem (set_tab (table s) (replicate (length bs) NULL)) 0 /\
    world s' = clean_world (table s) (heap s) (concat bs) (world s) /\
    freed (heap s) (concat bs) (heap s').
Proof.
  intros HR. destruct (rep_size _ _ HR) as [Hpos Hfit].
  pose proof (rep_length_Z _ _ HR) as Hlen.
  pose proof (rep_length _ _ HR) as Hlen'.
  unfold zc_hashtable_clean.
  destruct (for_loop_ind
    (fun k st =>
       st.1 = replicate k NULL ++ drop k (tab (table s)) /\
       st.2.2 = clean_world (table s) (heap s) (concat (take k bs)) (world s) /\
       freed (heap s) (concat (take k bs)) st.2.1)
    (clean_bucket (chain_fuel (heap s)) (table s))
    (Z.to_nat (tab_size (table s))))
    with (st := (tab (table s), (heap s, world s)))
    as ([a_tab [h' w']] & -> & Htab & Hw & Hfr).
  - intros k [a_tab [h w]] Hk (Htab & Hw & Hfr). simpl in *.
    destruct (lookup_lt_is_Some_2 bs k) as [l Hl]; [lia|].
    destruct (rep_bucket_chain _ _ _ _ HR Hl) as (p & Hp & Hc).
    unfold clean_bucket. simpl. rewrite Nat2Z.id.
    assert (Hk' : a_tab !! k = Some p).
    { rewrite Htab, lookup_app_r; rewrite length_replicate; [|lia].
      rewrite lookup_drop. by replace (k + (k - k))%nat with k by lia. }
    rewrite Hk'. simpl.
    destruct (clean_chain_spec (table s) (heap s) l (chain_fuel (heap s)) NULL p
                (concat (take k bs)) h w Hc) as (h' & -> & Hfr'); try done.
    + pose proof (rep_nodup _ _ HR) as Hnd.
      rewrite (concat_split _ _ _ Hl), (assoc_L (++)) in Hnd.
      by apply NoDup_app in Hnd as (? & _).
    + by eapply rep_fuel.
    + simpl. eexists. split; [done|]. simpl.
      rewrite (take_S_r _ _ _ Hl), concat_app. simpl. rewrite app_nil_r.
      split; [|split; [|done]].
      * rewrite Htab. rewrite insert_app_r_alt; rewrite length_replicate; [|lia].
        replace (k - k)%nat with 0%nat by lia.
        rewrite (drop_S _ p k Hp). simpl.
        generalize (drop (S k) (tab (table s))). intros rest.
        clear. induction k as [|k IH]; simpl; [done | by rewrite IH].
      * subst w. unfold clean_world. by rewrite foldl_app.
  - simpl. repeat split; try done. intros x Hx. by apply elem_of_nil in Hx.
  - simpl in *. rewrite take_ge in Hw, Hfr by lia.
    rewrite drop_ge, app_nil_r in Htab by lia.
    replace (Z.to_nat (tab_size (table s))) with (length bs) in Htab by lia.
    subst a_tab. eexists. split; [done|]. simpl. split; [|done].
    apply rep_empty; simpl; try done.
Qed.

Lemma del_spec s bs :
  Rep s bs ->
  exists h',
    zc_hashtable_del s
    = Some (h', clean_world (table s) (heap s) (concat bs) (world s)) /\
    freed (heap s) (concat bs) h'.
Proof.
  intros HR. pose proof (rep_length_Z _ _ HR) as Hlen.
  unfold zc_hashtable_del.
  destruct (for_loop_ind
    (fun k st =>
       st.2 = clean_world (table s) (heap s) (concat (take k bs)) (world s) /\
       freed (heap s) (concat (take k bs)) st.1)
    (del_bucket (chain_fuel (heap s)) (table s))
    (Z.to_nat (tab_size (table s))))
    with (st := (heap s, world s))
    as ([h' w'] & -> & Hw & Hfr).
  - intros k [h w] Hk (Hw & Hfr). simpl in *.
    destruct (lookup_lt_is_Some_2 bs k) as [l Hl]; [lia|].
    destruct (rep_bucket_chain _ _ _ _ HR Hl) as (p & Hp & Hc).
    unfold del_bucket. rewrite Nat2Z.id, Hp. simpl.
    destruct (clean_chain_spec (table s) (heap s) l (chain_fuel (heap s)) NULL p
                (concat (take k bs)) h w Hc) as (h' & -> & Hfr'); try done.
    + pose proof (rep_nodup _ _ HR) as Hnd.
      rewrite (concat_split _ _ _ Hl), (assoc_L (++)) in Hnd.
      by apply NoDup_app in Hnd as (? & _).
    + by eapply rep_fuel.
    + eexists. split; [done|]. simpl.
      rewrite (take_S_r _ _ _ Hl), concat_app. simpl. rewrite app_nil_r.
      split; [|done]. subst w. unfold clean_world. by rewrite foldl_app.
  - simpl. repeat split; try done. intros x Hx. by apply elem_of_nil in Hx.
  - simpl in *. rewrite take_ge in Hw, Hfr by lia. subst w'. by exists h'.
Qed.

End NewClean.

(** ** Iteration *)

Section Iteration.

Context {K V W : Type}.
Implicit Types (h : gmap Z (@zc_hashtable_entry_t K V)).
Implicit Types (t : @zc_hashtable_t K V W) (s : @state K V W).
Implicit Types (l : list Z) (bs : list (list Z)).

Lemma first_head_spec h (a_tab : list Z) bs :
  Forall2 (chain h NULL) a_tab bs ->
  forall n i, (i + n = length bs)%nat ->
  first_head n a_tab (Z.of_nat i) = Some (hd NULL (concat (drop i bs))).
Proof.
  intros HF. pose proof (Forall2_length _ _ _ HF) as Hlen.
  induction n as [|n IH]; intros i Hi; simpl.
  - by rewrite drop_ge by lia.
  - rewrite Nat2Z.id.
    destruct (lookup_lt_is_Some_2 a_tab i) as [p Hp]; [lia|].
    destruct (lookup_lt_is_Some_2 bs i) as [l Hl]; [lia|].
    pose proof (Forall2_lookup_lr _ _ _ _ _ _ HF Hp Hl) as Hc.
    rewrite Hp. simpl. rewrite (drop_S _ _ _ Hl). simpl.
    destruct (Z.eqb_spec p 0) as [-> | Hnz]; simpl.
    + apply chain_null_nil in Hc as ->. simpl.
      replace (Z.of_nat i + 1) with (Z.of_nat (S i)) by lia.
      apply IH. lia.
    + destruct l as [|a l]; simpl in Hc; [done|]. by destruct Hc as [-> _].
Qed.

(** [Next] on the entry at [a]: the rest of its chain, then the buckets
    after its own. *)
Lemma next_spec s bs i l1 a l2 :
  Rep s bs -> bs !! i = Some (l1 ++ a :: l2) ->
  zc_hashtable_next s a = Some (hd NULL (l2 ++ concat (drop (S i) bs))).
Proof.
  intros HR Hl. destruct (rep_size _ _ HR) as [Hpos _].
  destruct (rep_bucket_chain _ _ _ _ HR Hl) as (q & Hq & Hc).
  assert (Hin : a ∈ l1 ++ a :: l2). { apply elem_of_app. right. left. }
  pose proof (chain_nonnull _ _ _ _ Hc) as Hnull.
  destruct (chain_alloc _ _ _ _ _ Hc Hin) as [e He].
  destruct (chain_mid _ _ _ _ _ _ _ Hc He) as [_ Hne].
  unfold zc_hashtable_next, zc_assert.
  destruct (Z.eqb_spec a 0) as [-> | _]; [done|]. simpl.
  rewrite He. simpl.
  destruct (Z.eqb_spec (next e) 0) as [Hz | Hnz]; simpl.
  - assert (l2 = []) as ->.
    { destruct l2 as [|c l2]; [done|]. simpl in Hne. exfalso. apply Hnull.
      rewrite <- Hz, Hne. apply elem_of_app. right. right. left. }
    simpl. rewrite (umod_pos _ _ Hpos). simpl.
    rewrite (rep_bucket _ _ HR _ _ _ _ Hl Hin He).
    replace (Z.of_nat i + 1) with (Z.of_nat (S i)) by lia.
    apply (first_head_spec (heap s)); [exact (rep_chains _ _ HR)|].
    pose proof (rep_length_Z _ _ HR). pose proof (lookup_lt_Some _ _ _ Hl). lia.
  - rewrite Hne. destruct l2 as [|c l2]; simpl in *; [congruence | done].
Qed.

Lemma rest_of_head bs : forall n i a l,
  (i + n = length bs)%nat -> a :: l = concat (drop i bs) ->
  exists i' l2, bs !! i' = Some (a :: l2) /\ l = l2 ++ concat (drop (S i') bs).
Proof.
  induction n as [|n IH]; intros i a l Hi Heq.
  - by rewrite drop_ge in Heq by lia.
  - destruct (lookup_lt_is_Some_2 bs i) as [lb Hlb]; [lia|].
    rewrite (drop_S _ _ _ Hlb) in Heq. simpl in Heq.
    destruct lb as [|b lb]; simpl in Heq.
    + apply (IH (S i)); [lia | done].
    + injection Heq as <- ->. by exists i, lb.
Qed.

Lemma rest_of_cons bs a l :
  rest_of bs (a :: l) ->
  exists i l1 l2, bs !! i = Some (l1 ++ a :: l2) /\
                  l = l2 ++ concat (drop (S i) bs).
Proof.
  intros (i & l1 & l2 & Hl & Heq).
  destruct l2 as [|b l2]; simpl in Heq.
  - pose proof (lookup_lt_Some _ _ _ Hl) as Hi.
    destruct (rest_of_head bs (length bs - S i) (S i) a l ltac:(lia) Heq)
      as (i' & l2' & Hl' & ->).
    by exists i', [], l2'.
  - injection Heq as <- ->. by exists i, l1, l2.
Qed.

Lemma iterate_from_spec s bs :
  Rep s bs ->
  forall l fuel, rest_of bs l -> (length l <= fuel)%nat ->
  iterate_from fuel s (hd NULL l) = Some l.
Proof.
  intros HR. induction l as [|a l IH]; intros fuel Hrest Hlen; simpl.
  - by destruct fuel.
  - destruct (rest_of_cons _ _ _ Hrest) as (i & l1 & l2 & Hl & Heq).
    destruct (rep_bucket_chain _ _ _ _ HR Hl) as (q & _ & Hc).
    assert (Hnz : a <> 0).
    { intros ->. apply (chain_nonnull _ _ _ _ Hc). apply elem_of_app. right. left. }
    destruct fuel as [|fuel]; simpl in Hlen; [lia|]. simpl.
    destruct (Z.eqb_spec a 0) as [|_]; [done|].
    rewrite (next_spec _ _ _ _ _ _ HR Hl), <- Heq. simpl.
    rewrite IH; [done | | lia].
    exists i, (l1 ++ [a]), l2. by rewrite <- app_assoc.
Qed.

(** The traversal visits the chains bucket after bucket, each from its
    head on. *)
Lemma iterate_spec s bs : Rep s bs -> iterate s = Some (concat bs).
Proof.
  intros HR. destruct (rep_size _ _ HR) as [Hpos _].
  pose proof (rep_length_Z _ _ HR) as Hlen.
  unfold iterate, zc_hashtable_begin.
  change 0 with (Z.of_nat 0) at 1.
  rewrite (first_head_spec (heap s) _ bs (rep_chains _ _ HR)) by (simpl; lia).
  simpl. rewrite drop_0.
  apply (iterate_from_spec _ _ HR); [|exact (rep_fuel_all _ _ HR)].
  destruct bs as [|l bs]; simpl in *; [lia|].
  by exists 0%nat, [], l.
Qed.

End Iteration.

(** ** Keys and lookups *)

Section Keys.

Context {K V W : Type}.
Implicit Types (h : gmap Z (@zc_hashtable_entry_t K V)).
Implicit Types (t : @zc_hashtable_t K V W) (s : @state K V W).
Implicit Types (l : list Z) (bs : list (list Z)).

Lemma find_entry_found s bs k a :
  Rep s bs -> find_entry s k = Some a -> a <> NULL -> matches s bs k a.
Proof.
  intros HR Hf Hnz. destruct (find_entry_spec s bs k HR) as (l & r & Hl & Hr & Hfound).
  rewrite Hf in Hr. injection Hr as <-.
  destruct Hfound as [[? _] | (l1 & l2 & e & -> & _ & He & Heq & _)]; [done|].
  split; [|by exists e]. apply elem_of_concat. eexists _, _. split; [done|].
  apply elem_of_app. right. left.
Qed.

(** A matching entry is in the bucket that is searched. *)
Lemma matches_bucket s bs k a :
  Rep s bs -> KeysRep s bs -> lawful (table s) -> matches s bs k a ->
  exists l, bs !! bucket_index (table s) k = Some l /\ a ∈ l.
Proof.
  intros HR HK HL (Hin & e & He & Heq).
  apply elem_of_concat in Hin as Hin'. destruct Hin' as (i & l & Hl & Ha).
  exists l. split; [|done].
  pose proof (rep_bucket _ _ HR _ _ _ _ Hl Ha He) as Hb.
  rewrite (keys_hash _ _ HK _ _ Hin He) in Hb.
  rewrite <- (equal_hash _ HL _ _ Heq) in Hb.
  unfold bucket_index. rewrite Hb, Nat2Z.id. done.
Qed.

Lemma matches_unique s bs k a b :
  KeysRep s bs -> lawful (table s) ->
  matches s bs k a -> matches s bs k b -> a = b.
Proof.
  intros HK HL (Ha & ea & Hea & Heqa) (Hb & eb & Heb & Heqb).
  destruct (decide (a = b)) as [|Hne]; [done|]. exfalso.
  pose proof (keys_uniq _ _ HK a b ea eb Ha Hb Hne Hea Heb) as Hu.
  rewrite (equal_trans _ HL _ k _ (equal_sym _ HL _ _ Heqa) Heqb) in Hu. done.
Qed.

(** With lawful strategy functions a lookup finds an entry exactly when
    its key is judged equal to the one looked up. *)
Lemma find_entry_matches s bs k a :
  Rep s bs -> KeysRep s bs -> lawful (table s) ->
  matches s bs k a -> find_entry s k = Some a.
Proof.
  intros HR HK HL Hm.
  destruct (matches_bucket _ _ _ _ HR HK HL Hm) as (l & Hl & Ha).
  destruct (find_entry_spec s bs k HR) as (l' & r & Hl' & Hr & Hfound).
  rewrite Hl in Hl'. injection Hl' as <-. rewrite Hr. f_equal.
  destruct Hm as (Hin & e & He & Heq).
  destruct Hfound as [[-> Hno] | (l1 & l2 & er & -> & Hrz & Her & Heqr & _)].
  - rewrite (Hno a e Ha He) in Heq. done.
  - apply (matches_unique s bs k); try done.
    + split; [|by exists er]. apply elem_of_concat. eexists _, _. split; [done|].
      apply elem_of_app. right. left.
    + split; [done | by exists e].
Qed.

Lemma find_entry_null s bs k :
  Rep s bs -> KeysRep s bs -> lawful (table s) ->
  find_entry s k = Some NULL -> forall a, ~ matches s bs k a.
Proof.
  intros HR HK HL Hf a Hm.
  rewrite (find_entry_matches _ _ _ _ HR HK HL Hm) in Hf. injection Hf as ->.
  destruct Hm as [Hin _]. by destruct (rep_entry _ _ _ HR Hin).
Qed.

Lemma find_entry_no_match s bs k :
  Rep s bs -> (forall a, ~ matches s bs k a) -> find_entry s k = Some NULL.
Proof.
  intros HR Hno. destruct (find_entry_spec s bs k HR) as (l & r & Hl & Hr & Hfound).
  rewrite Hr. f_equal.
  destruct Hfound as [[-> _] | (l1 & l2 & e & -> & _ & He & Heq & _)]; [done|].
  exfalso. apply (Hno r). split; [|by exists e].
  apply elem_of_concat. eexists _, _. split; [done|].
  apply elem_of_app. right. left.
Qed.

(** The keys of a table whose entries are among those of another, with
    the same payloads. *)
Lemma keys_rep_transfer s s' bs bs' :
  KeysRep s bs ->
  hash_fn (table s') = hash_fn (table s) ->
  equal_fn (table s') = equal_fn (table s) ->
  (forall a, a ∈ concat bs' -> a ∈ concat bs) ->
  (forall a, a ∈ concat bs' -> payload <$> heap s' !! a = payload <$> heap s !! a) ->
  KeysRep s' bs'.
Proof.
  intros HK Hhf Hef Hsub Hpay. constructor.
  - intros a e' Ha He'.
    destruct (payload_eq_Some _ _ _ _ (Hpay a Ha) He') as (e & He & <- & <- & _).
    unfold call_hash. rewrite Hhf. exact (keys_hash _ _ HK a e (Hsub a Ha) He).
  - intros a b ea' eb' Ha Hb Hne Hea' Heb'.
    destruct (payload_eq_Some _ _ _ _ (Hpay a Ha) Hea') as (ea & Hea & _ & <- & _).
    destruct (payload_eq_Some _ _ _ _ (Hpay b Hb) Heb') as (eb & Heb & _ & <- & _).
    rewrite Hef.
    exact (keys_uniq _ _ HK a b ea eb (Hsub a Ha) (Hsub b Hb) Hne Hea Heb).
Qed.

Lemma matches_transfer s s' bs bs' k a :
  equal_fn (table s') = equal_fn (table s) ->
  a ∈ concat bs' ->
  payload <$> heap s' !! a = payload <$> heap s !! a ->
  matches s bs k a -> matches s' bs' k a.
Proof.
  intros Hef Hin Hpay (_ & e & He & Heq). split; [done|].
  rewrite He in Hpay. simpl in Hpay.
  destruct (heap s' !! a) as [e'|]; simpl in Hpay; [|done].
  exists e'. split; [done|]. rewrite Hef.
  assert (key e' = key e) as -> by (unfold payload in Hpay; congruence). done.
Qed.

Lemma keys_rep_update s bs k v p e :
  KeysRep s bs -> lawful (table s) ->
  p ∈ concat bs -> heap s !! p = Some e -> equal_fn (table s) k (key e) = true ->
  KeysRep (State (table s) (<[p := set_key_value e k v]> (heap s))
                 (call_del (value_del_fn (table s)) (value e)
                    (call_del (key_del_fn (table s)) (key e) (world s)))) bs.
Proof.
  intros HK HL Hp He Heq. constructor; simpl.
  - intros a e' Ha He'. destruct (decide (p = a)) as [-> | Hne].
    + rewrite lookup_insert_eq in He'. injection He' as <-. simpl.
      rewrite (equal_hash _ HL _ _ Heq). exact (keys_hash _ _ HK a e Ha He).
    + rewrite lookup_insert_ne in He' by done. exact (keys_hash _ _ HK a e' Ha He').
  - intros a b ea eb Ha Hb Hne Hea Heb.
    destruct (decide (p = a)) as [-> | Hpa]; [|destruct (decide (p = b)) as [-> | Hpb]].
    + rewrite lookup_insert_eq in Hea. injection Hea as <-. simpl.
      rewrite lookup_insert_ne in Heb by done.
      destruct (equal_fn (table s) k (key eb)) eqn:Hkb; [|done].
      rewrite <- (keys_uniq _ _ HK a b e eb Ha Hb Hne He Heb).
      symmetry. exact (equal_trans _ HL _ k _ (equal_sym _ HL _ _ Heq) Hkb).
    + rewrite lookup_insert_eq in Heb. injection Heb as <-. simpl.
      rewrite lookup_insert_ne in Hea by done.
      destruct (equal_fn (table s) (key ea) k) eqn:Hak; [|done].
      rewrite <- (keys_uniq _ _ HK a b ea e Ha Hb Hne Hea He).
      symmetry. exact (equal_trans _ HL _ k _ Hak Heq).
    + rewrite lookup_insert_ne in Hea, Heb by done.
      exact (keys_uniq _ _ HK a b ea eb Ha Hb Hne Hea Heb).
Qed.

End Keys.

(** ** Checking a concrete table *)

Section Check.

Context {K V W : Type}.
Implicit Types (h : gmap Z (@zc_hashtable_entry_t K V)).
Implicit Types (t : @zc_hashtable_t K V W) (s : @state K V W).
Implicit Types (l : list Z) (bs : list (list Z)).

Lemma chain_check_sound h l : forall pv p,
  chain_check h pv p l = true -> chain h pv p l.
Proof.
  induction l as [|a l IH]; intros pv p; simpl.
  - by intros ?%Z.eqb_eq.
  - intros [[Hp Ha]%andb_prop Hrest]%andb_prop.
    apply Z.eqb_eq in Hp as ->. apply negb_true_iff, Z.eqb_neq in Ha.
    destruct (h !! a) as [e|]; [|done].
    apply andb_prop in Hrest as [Hpv%Z.eqb_eq Hrest].
    split; [done|]. split; [done|]. exists e. split; [done|]. split; [done|].
    by apply IH.
Qed.

Lemma chains_check_sound h (a_tab : list Z) : forall bs,
  chains_check h a_tab bs = true -> Forall2 (chain h NULL) a_tab bs.
Proof.
  induction a_tab as [|p a_tab IH]; intros [|l bs]; simpl; try done.
  intros [Hc Hrest]%andb_prop. constructor; [by apply chain_check_sound | by apply IH].
Qed.

Lemma buckets_check_sound h size bs : forall i0 i l a,
  buckets_check h size i0 bs = true -> bs !! i = Some l -> a ∈ l ->
  entry_check h size (i0 + Z.of_nat i) a = true.
Proof.
  induction bs as [|l0 bs IH]; intros i0 i l a; simpl; [done|].
  intros [Hl0 Hrest]%andb_prop Hl Ha. destruct i as [|i]; simpl in Hl.
  - injection Hl as <-. rewrite Z.add_0_r.
    rewrite forallb_forall in Hl0. apply Hl0. by apply list_elem_of_In.
  - replace (i0 + Z.of_nat (S i)) with ((i0 + 1) + Z.of_nat i) by lia.
    by apply (IH _ _ l).
Qed.

Lemma rep_check_sound s bs : rep_check s bs = true -> Rep s bs.
Proof.
  unfold rep_check.
  intros [[[[[[H1 H2]%andb_prop H3]%andb_prop H4]%andb_prop H5]%andb_prop
            H6]%andb_prop H7]%andb_prop.
  apply Z.ltb_lt in H1, H2. apply Z.eqb_eq in H3, H6.
  apply bool_decide_eq_true in H5.
  assert (Hentry : forall i l a, bs !! i = Some l -> a ∈ l ->
            entry_check (heap s) (tab_size (table s)) (Z.of_nat i) a = true).
  { intros i l a Hl Ha. by apply (buckets_check_sound _ _ _ 0 i l a H7). }
  constructor; try done.
  - by apply chains_check_sound.
  - intros i l a e Hl Ha He. specialize (Hentry i l a Hl Ha).
    unfold entry_check in Hentry. rewrite He in Hentry.
    repeat (apply andb_prop in Hentry as [Hentry ?]). by apply Z.eqb_eq.
  - intros a e (i & l & Hl & Ha)%elem_of_concat He. specialize (Hentry i l a Hl Ha).
    unfold entry_check in Hentry. rewrite He in Hentry.
    repeat (apply andb_prop in Hentry as [Hentry ?]). lia.
  - intros a (i & l & Hl & Ha)%elem_of_concat. specialize (Hentry i l a Hl Ha).
    unfold entry_check in Hentry. destruct (heap s !! a); [|done].
    repeat (apply andb_prop in Hentry as [Hentry ?]). lia.
Qed.

Lemma keys_check_sound s bs : keys_check s bs = true -> KeysRep s bs.
Proof.
  unfold keys_check. rewrite forallb_forall. intros Hall. constructor.
  - intros a e Ha He. specialize (Hall a ltac:(by apply list_elem_of_In)).
    rewrite He in Hall. apply andb_prop in Hall as [Hh _]. by apply Z.eqb_eq.
  - intros a b ea eb Ha Hb Hne Hea Heb.
    specialize (Hall a ltac:(by apply list_elem_of_In)).
    rewrite Hea in Hall. apply andb_prop in Hall as [_ Hall].
    rewrite forallb_forall in Hall.
    specialize (Hall b ltac:(by apply list_elem_of_In)).
    rewrite Heb in Hall. apply orb_prop in Hall as [Heq%Z.eqb_eq | Hn]; [done|].
    by apply negb_true_iff.
Qed.

End Check.

(** ** The operations on well-formed tables *)

Section Operations.

Context {K V W : Type}.
Implicit Types (h : gmap Z (@zc_hashtable_entry_t K V)).
Implicit Types (t : @zc_hashtable_t K V W) (s : @state K V W).
Implicit Types (l : list Z) (bs : list (list Z)).

Lemma put_found_eq s k v b a p :
  find_entry s k = Some p -> p <> NULL ->
  zc_hashtable_put s (Some k) v b a = s' ← put_update s k v p; Some (0, s').
Proof.
  intros Hf Hp. unfold zc_hashtable_put. rewrite Hf. simpl.
  by destruct (Z.eqb_spec p 0).
Qed.

Lemma put_absent_eq s k v b a :
  find_entry s k = Some NULL ->
  zc_hashtable_put s (Some k) v b a =
    '(rc, s1) ← (if load_exceeded (nelem (table s)) (tab_size (table s))
                 then zc_hashtable_rehash s b else Some (0, s));
    if negb (rc =? 0) then Some (-1, s1)
    else if a =? NULL then Some (-1, s1)
         else s' ← put_new_entry s1 k v a; Some (0, s').
Proof. intros Hf. unfold zc_hashtable_put. by rewrite Hf. Qed.

Lemma rehash_step_facts s bs b s1 bs1 :
  Rep s bs -> rehash_step s bs b s1 bs1 ->
  Rep s1 bs1 /\
  table s1 = set_tab_size (set_tab (table s) (tab (table s1))) (tab_size (table s1)) /\
  world s1 = world s /\
  concat bs1 ≡ₚ concat bs /\
  (forall x, payload <$> heap s1 !! x = payload <$> heap s !! x) /\
  (forall x, x ∉ concat bs -> heap s1 !! x = heap s !! x).
Proof.
  intros HR [(_ & -> & ->) | (_ & Hre & ->)].
  - split_and!; try done. by destruct (table s).
  - destruct (rehash_spec s bs b HR) as [Hfail | (s' & Hok & HR' & Ht & Hw & Hpay & Hfr)].
    { rewrite Hre in Hfail. done. }
    rewrite Hre in Hok. injection Hok as <-.
    split_and!; try done.
    + rewrite Ht at 1. by rewrite Ht.
    + apply relink_abs_perm. destruct (rep_size _ _ HR). lia.
Qed.

(** A [Put] of an absent key: either the rehash that is due fails, or
    the entry allocation fails after the rehash step, or the entry is
    pushed on its bucket after the rehash step. *)
Lemma put_absent_spec s bs k v b a :
  Rep s bs -> find_entry s k = Some NULL -> alloc_ok (heap s) a ->
  (load_exceeded (nelem (table s)) (tab_size (table s)) = true /\
   zc_hashtable_rehash s b = Some (-1, s) /\
   zc_hashtable_put s (Some k) v b a = Some (-1, s)) \/
  (exists s1 bs1, rehash_step s bs b s1 bs1 /\
     ((a = NULL /\ zc_hashtable_put s (Some k) v b a = Some (-1, s1)) \/
      (a <> NULL /\ exists s',
         zc_hashtable_put s (Some k) v b a = Some (0, s') /\
         put_new_entry s1 k v a = Some s'))).
Proof.
  intros HR Hf Ha. rewrite (put_absent_eq _ _ _ _ _ Hf).
  assert (Hnew : forall s1 bs1, rehash_step s bs b s1 bs1 ->
    (a = NULL /\ (if a =? NULL then Some (-1, s1)
                  else s' ← put_new_entry s1 k v a; Some (0, s')) = Some (-1, s1)) \/
    (a <> NULL /\ exists s',
       (if a =? NULL then Some (-1, s1)
        else s' ← put_new_entry s1 k v a; Some (0, s')) = Some (0, s') /\
       put_new_entry s1 k v a = Some s')).
  { intros s1 bs1 Hstep.
    destruct (rehash_step_facts _ _ _ _ _ HR Hstep) as (HR1 & _ & _ & _ & Hpay & _).
    destruct (Z.eqb_spec a 0) as [-> | Hnz]; [by left | right]. split; [done|].
    destruct Ha as [? | [Hfresh Hrange]]; [done|].
    destruct (put_new_entry_spec s1 bs1 k v a HR1) as (s' & Hs' & _); try done.
    { specialize (Hpay a). rewrite Hfresh in Hpay. simpl in Hpay.
      by destruct (heap s1 !! a). }
    exists s'. by rewrite Hs'. }
  destruct (load_exceeded (nelem (table s)) (tab_size (table s))) eqn:Hload.
  - destruct (rehash_spec s bs b HR) as [Hfail | (s1 & Hok & _)].
    + left. by rewrite Hfail.
    + right. rewrite Hok. simpl.
      exists s1, (relink_abs (cached_hash (heap s)) (2 * tab_size (table s)) (concat bs)).
      assert (Hstep : rehash_step s bs b s1
        (relink_abs (cached_hash (heap s)) (2 * tab_size (table s)) (concat bs))).
      { right. by rewrite Hload. }
      split; [done|]. exact (Hnew _ _ Hstep).
  - right. simpl. exists s, bs.
    assert (Hstep : rehash_step s bs b s bs). { left. by rewrite Hload. }
    split; [done|]. exact (Hnew _ _ Hstep).
Qed.

End Operations.

(** * The claims *)

(** ** The string hash *)

Section StrHashProofs.

Variable char_signed : bool.

Lemma byte_range (b : byte) : 0 <= Z.of_N (Byte.to_N b) < 256.
Proof. pose proof (Byte.to_N_bounded b). lia. Qed.

Lemma byte_zero (b : byte) : Z.of_N (Byte.to_N b) = 0 -> b = x00.
Proof.
  intros Hz. assert (Hn : Byte.to_N b = 0%N) by lia.
  pose proof (Byte.of_to_N b) as Hof. rewrite Hn in Hof. simpl in Hof. congruence.
Qed.

Lemma char_value_zero (b : byte) : char_value char_signed b = 0 <-> b = x00.
Proof.
  unfold char_value. pose proof (byte_range b) as Hr. split.
  - intros Hz. apply byte_zero.
    destruct (char_signed && (128 <=? Z.of_N (Byte.to_N b))); lia.
  - intros ->. by destruct char_signed.
Qed.

Lemma str_hash_step h c :
  to_uint (to_uint (h * 129) + to_uint (char_value char_signed c))
  = (h * 129 + char_value char_signed c) mod 2 ^ 32.
Proof. unfold to_uint, UINT_MOD. by rewrite <- Z.add_mod. Qed.

Lemma str_hash_loop_spec s rest : forall h,
  x00 ∉ s ->
  str_hash_loop char_signed h (s ++ x00 :: rest)
  = Some (fold_left (fun h b => (h * 129 + char_value char_signed b) mod 2 ^ 32) s h).
Proof.
  induction s as [|c s IH]; intros h Hnz; simpl.
  - by destruct char_signed.
  - destruct (Z.eqb_spec (char_value char_signed c) 0) as [Hz | _].
    + apply char_value_zero in Hz as ->. exfalso. apply Hnz. left.
    + rewrite str_hash_step. apply IH. intros Hin. apply Hnz. by right.
Qed.

End StrHashProofs.

(** C8 (as amended): for every NUL-terminated byte string, whatever
    follows the terminator, the string hash returns the accumulator
    [h = 0; h = h * 129 + c] taken modulo [2^32], where [c] is the value
    of the byte read as a C [char] (the byte itself when it is below 128
    or [char] is unsigned, the byte minus 256 otherwise); when [char] is
    unsigned or every byte is below 128 this is the accumulator over the
    bytes that the specification words. *)
Theorem str_hash_accumulator (char_signed : bool) (s rest : list byte) :
  x00 ∉ s ->
  zc_hashtable_str_hash char_signed (s ++ x00 :: rest)
  = Some (str_hash_acc char_signed s)
  /\ (char_signed = false \/ Forall (fun b => Z.of_N (Byte.to_N b) < 128) s ->
      str_hash_acc char_signed s = spec_str_hash s).
Proof.
  intros Hnz. split.
  - unfold zc_hashtable_str_hash, str_hash_acc. by apply str_hash_loop_spec.
  - intros Hplain. unfold str_hash_acc, spec_str_hash. generalize 0.
    clear Hnz. induction s as [|c s IH]; intros h; simpl; [done|].
    assert (Hc : char_value char_signed c = Z.of_N (Byte.to_N c)).
    { unfold char_value. destruct Hplain as [-> | Hall]; [done|].
      apply Forall_cons in Hall as [Hc _].
      destruct (Z.leb_spec 128 (Z.of_N (Byte.to_N c))); [lia|]. by rewrite andb_false_r. }
    rewrite Hc. apply IH.
    destruct Hplain as [-> | Hall]; [by left | right]. by apply Forall_cons in Hall as [_ ?].
Qed.

Lemma str_hash_accumulator_witness :
  zc_hashtable_str_hash true ("a"%byte :: "b"%byte :: x00 :: [])
  = Some (str_hash_acc true ("a"%byte :: "b"%byte :: []))
  /\ (true = false \/ Forall (fun b => Z.of_N (Byte.to_N b) < 128)
                         ("a"%byte :: "b"%byte :: []) ->
      str_hash_acc true ("a"%byte :: "b"%byte :: [])
      = spec_str_hash ("a"%byte :: "b"%byte :: [])).
Proof.
  apply (str_hash_accumulator true ("a"%byte :: "b"%byte :: []) []).
  intros Hin. by repeat (apply elem_of_cons in Hin as [Hin | Hin]; [done|]);
    apply elem_of_nil in Hin.
Defined.

(** C8 (as stated) fails where [char] is signed: the one-byte string
    [0x80] hashes to [2^32 - 128], not to [128]. *)
Lemma str_hash_signed_char_counterexample :
  zc_hashtable_str_hash true (x80 :: x00 :: []) = Some 4294967168
  /\ spec_str_hash (x80 :: []) = 128
  /\ zc_hashtable_str_hash true (x80 :: x00 :: []) <> Some (spec_str_hash (x80 :: [])).
Proof. split; [|split]; by vm_compute. Qed.

(** ** Facts about the concrete tables *)

Lemma int_lawful n a_tab size : lawful (int_table n a_tab size).
Proof.
  constructor; simpl.
  - intros k1 k2 ->%Z.eqb_eq. apply Z.eqb_refl.
  - intros k1 k2 k3 ->%Z.eqb_eq. done.
  - by intros k1 k2 ->%Z.eqb_eq.
Qed.

Lemma ex_state_rep : Rep ex_state ex_chains.
Proof. apply rep_check_sound. by vm_compute. Qed.

Lemma ex_state_keys : KeysRep ex_state ex_chains.
Proof. apply keys_check_sound. by vm_compute. Qed.

(** ** Null keys *)

(** C10: a null key is rejected at the public interface and the table is
    not touched: [GetEntry] answers null, [Get] answers null, [Put]
    returns the error code with the state as it was, [Remove] returns
    with the state as it was. *)
Theorem null_key_rejected {K V W : Type} (s : @state K V W)
    (a_value : option V) (tab_alloc : bool) (entry_alloc : Z) :
  zc_hashtable_get_entry s None = Some NULL /\
  zc_hashtable_get s None = Some None /\
  zc_hashtable_put s None a_value tab_alloc entry_alloc = Some (-1, s) /\
  zc_hashtable_remove s None = Some s.
Proof. by split_and!. Qed.

(** ** Update of an existing entry *)

Section UpdateClaims.

Context {K V W : Type}.
Implicit Types (s : @state K V W) (bs : list (list Z)).

Lemma reaches_found s bs k p :
  Rep s bs -> reaches s bs k p ->
  find_entry s k = Some p /\ p <> NULL /\ matches s bs k p.
Proof.
  intros HR [[Hf Hnz] | (HK & HL & Hm)].
  - split; [done|]. split; [done|]. by apply find_entry_found.
  - split; [by apply (find_entry_matches _ bs)|]. split; [|done].
    destruct Hm as [Hin _]. by destruct (rep_entry _ _ _ HR Hin).
Qed.

Lemma put_reaches_eq s bs k v b a p :
  Rep s bs -> reaches s bs k p ->
  exists e, heap s !! p = Some e /\ equal_fn (table s) k (key e) = true /\
    zc_hashtable_put s (Some k) v b a =
      Some (0, State (table s) (<[p := set_key_value e k v]> (heap s))
                 (call_del (value_del_fn (table s)) (value e)
                    (call_del (key_del_fn (table s)) (key e) (world s)))).
Proof.
  intros HR Hr.
  destruct (reaches_found _ _ _ _ HR Hr) as (Hf & Hnz & Hin & e & He & Heq).
  exists e. split; [done|]. split; [done|].
  rewrite (put_found_eq _ _ _ _ _ _ Hf Hnz).
  unfold put_update. by rewrite He.
Qed.

End UpdateClaims.

(** C5: on a well-formed table, a [Put] whose key is judged equal to the
    key of an existing entry (the entry the search answers; with lawful
    strategy functions, the one entry whose key is judged equal)
    succeeds, hands the old key and the old value of that entry to the
    configured destructors (each is called once: the world is the old
    one after the key destructor on the old key, then the value
    destructor on the old value), stores the new key and the new value
    in the entry, and leaves the count as it was. *)
Theorem put_update_destroys_old {K V W : Type} (s : @state K V W) bs
    (k : K) (v : option V) (tab_alloc : bool) (entry_alloc : Z) (p : Z) :
  Rep s bs -> reaches s bs k p ->
  exists e s',
    heap s !! p = Some e /\ equal_fn (table s) k (key e) = true /\
    zc_hashtable_put s (Some k) v tab_alloc entry_alloc = Some (0, s') /\
    world s' = call_del (value_del_fn (table s)) (value e)
                 (call_del (key_del_fn (table s)) (key e) (world s)) /\
    (forall kd vd, key_del_fn (table s) = Some kd -> value_del_fn (table s) = Some vd ->
                   world s' = vd (value e) (kd (key e) (world s))) /\
    (exists e', heap s' !! p = Some e' /\ key e' = k /\ value e' = v) /\
    nelem (table s') = nelem (table s).
Proof.
  intros HR Hr.
  destruct (put_reaches_eq s bs k v tab_alloc entry_alloc p HR Hr)
    as (e & He & Heq & Hput).
  eexists e, _. split; [done|]. split; [done|]. split; [exact Hput|].
  simpl. split_and!; try done.
  - intros kd vd -> ->. done.
  - eexists. by rewrite lookup_insert_eq.
Qed.

Lemma ex_state_reaches_1 : reaches ex_state ex_chains 1 100.
Proof.
  right. split; [exact ex_state_keys|]. split; [apply int_lawful|].
  split; [by vm_compute; set_solver|]. eexists. split; by vm_compute.
Qed.

(** On the example table the key 1 has the entry at 100, with the value
    10: the log of the destructors gets the old key, then the old
    value. *)
Lemma put_update_destroys_old_witness :
  reaches ex_state ex_chains 1 100 /\
  exists e s',
    heap ex_state !! 100 = Some e /\ equal_fn (table ex_state) 1 (key e) = true /\
    zc_hashtable_put ex_state (Some 1) (Some 11) true 106 = Some (0, s') /\
    world s' = call_del (value_del_fn (table ex_state)) (value e)
                 (call_del (key_del_fn (table ex_state)) (key e) (world ex_state)) /\
    (forall kd vd, key_del_fn (table ex_state) = Some kd ->
                   value_del_fn (table ex_state) = Some vd ->
                   world s' = vd (value e) (kd (key e) (world ex_state))) /\
    (exists e', heap s' !! 100 = Some e' /\ key e' = 1 /\ value e' = Some 11) /\
    nelem (table s') = nelem (table ex_state).
Proof.
  split; [exact ex_state_reaches_1|].
  exact (put_update_destroys_old ex_state ex_chains 1 (Some 11) true 106 100
           ex_state_rep ex_state_reaches_1).
Defined.

Example put_update_log :
  (r ← zc_hashtable_put ex_state (Some 1) (Some 11) true 106; Some (r.1, world r.2))
  = Some (0, [KeyDel 1; ValueDel (Some 10)]).
Proof. by vm_compute. Qed.

(** C9: on a well-formed table, a [Put] that updates an existing entry
    changes nothing but the key and the value of that entry: its cached
    hash (the hash of the key it was inserted with, on a table with
    well-kept keys) and its links are as before, every other entry is as
    before, and the table record (bucket heads, capacity, count) is as
    before, so the entry stays in its bucket. *)
Theorem put_update_frame {K V W : Type} (s : @state K V W) bs
    (k : K) (v : option V) (tab_alloc : bool) (entry_alloc : Z) (p : Z) :
  Rep s bs -> reaches s bs k p ->
  exists e e' s',
    heap s !! p = Some e /\
    zc_hashtable_put s (Some k) v tab_alloc entry_alloc = Some (0, s') /\
    heap s' !! p = Some e' /\
    hash_key e' = hash_key e /\ prev e' = prev e /\ next e' = next e /\
    (KeysRep s bs -> hash_key e' = call_hash (table s) (key e)) /\
    (forall x, x <> p -> heap s' !! x = heap s !! x) /\
    table s' = table s /\
    Rep s' bs.
Proof.
  intros HR Hr.
  destruct (put_reaches_eq s bs k v tab_alloc entry_alloc p HR Hr)
    as (e & He & _ & Hput).
  destruct (reaches_found _ _ _ _ HR Hr) as (_ & _ & Hin & _).
  destruct (put_update_spec s bs k v p e HR Hin He) as (s' & _ & -> & HR').
  exists e, (set_key_value e k v). eexists. split; [done|]. split; [exact Hput|].
  simpl. split_and!; try done.
  - by rewrite lookup_insert_eq.
  - intros HK. exact (keys_hash _ _ HK p e Hin He).
  - intros x Hx. by rewrite lookup_insert_ne.
Qed.

Lemma put_update_frame_witness :
  reaches ex_state ex_chains 1 100 /\
  exists e e' s',
    heap ex_state !! 100 = Some e /\
    zc_hashtable_put ex_state (Some 1) (Some 11) true 106 = Some (0, s') /\
    heap s' !! 100 = Some e' /\
    hash_key e' = hash_key e /\ prev e' = prev e /\ next e' = next e /\
    (KeysRep ex_state ex_chains -> hash_key e' = call_hash (table ex_state) (key e)) /\
    (forall x, x <> 100 -> heap s' !! x = heap ex_state !! x) /\
    table s' = table ex_state /\
    Rep s' ex_chains.
Proof.
  split; [exact ex_state_reaches_1|].
  exact (put_update_frame ex_state ex_chains 1 (Some 11) true 106 100
           ex_state_rep ex_state_reaches_1).
Defined.

(** ** Removal *)

Section RemoveClaims.

Context {K V W : Type}.
Implicit Types (s : @state K V W) (bs : list (list Z)).

Lemma find_entry_split s bs k p :
  Rep s bs -> find_entry s k = Some p -> p <> NULL ->
  exists l1 l2, bs !! bucket_index (table s) k = Some (l1 ++ p :: l2).
Proof.
  intros HR Hf Hnz. destruct (find_entry_spec s bs k HR) as (l & r & Hl & Hr & Hfound).
  rewrite Hf in Hr. injection Hr as <-.
  destruct Hfound as [[? _] | (l1 & l2 & e & -> & _)]; [done|]. by exists l1, l2.
Qed.

Lemma remove_found_spec s bs k p :
  Rep s bs -> find_entry s k = Some p -> p <> NULL ->
  exists e s' l1 l2,
    heap s !! p = Some e /\
    bs !! bucket_index (table s) k = Some (l1 ++ p :: l2) /\
    zc_hashtable_remove s (Some k) = Some s' /\
    Rep s' (<[bucket_index (table s) k := l1 ++ l2]> bs) /\
    table s' = set_nelem (set_tab (table s) (tab (table s'))) (nelem (table s) - 1) /\
    world s' = call_del (value_del_fn (table s)) (value e)
                 (call_del (key_del_fn (table s)) (key e) (world s)) /\
    heap s' = unlink_heap (heap s) p e.
Proof.
  intros HR Hf Hnz.
  pose proof (find_entry_found _ _ _ _ HR Hf Hnz) as (Hin & e & He & _).
  destruct (find_entry_split _ _ _ _ HR Hf Hnz) as (l1 & l2 & Hl).
  destruct (remove_entry_spec s bs _ l1 p l2 e HR Hl He)
    as (s' & Hrem & HR' & Ht & Hw & Hh).
  exists e, s', l1, l2. split_and!; try done.
  unfold zc_hashtable_remove. rewrite Hf. simpl. by destruct (Z.eqb_spec p 0).
Qed.

(** With lawful strategy functions no entry is left for the key. *)
Lemma remove_found_keys s bs k p e s' l1 l2 :
  Rep s bs -> KeysRep s bs -> lawful (table s) -> matches s bs k p ->
  heap s !! p = Some e ->
  bs !! bucket_index (table s) k = Some (l1 ++ p :: l2) ->
  Rep s' (<[bucket_index (table s) k := l1 ++ l2]> bs) ->
  table s' = set_nelem (set_tab (table s) (tab (table s'))) (nelem (table s) - 1) ->
  heap s' = unlink_heap (heap s) p e ->
  KeysRep s' (<[bucket_index (table s) k := l1 ++ l2]> bs) /\
  find_entry s' k = Some NULL.
Proof.
  intros HR HK HL Hm He Hl HR' Ht Hh.
  assert (Hperm := concat_unlink_perm _ _ _ _ _ Hl).
  assert (Hnd : NoDup (p :: concat (<[bucket_index (table s) k := l1 ++ l2]> bs))).
  { rewrite Hperm. exact (rep_nodup _ _ HR). }
  apply NoDup_cons in Hnd as [Hpnin _].
  assert (Hsub : forall x, x ∈ concat (<[bucket_index (table s) k := l1 ++ l2]> bs) ->
                           x ∈ concat bs /\ x <> p).
  { intros x Hx. split; [rewrite <- Hperm; by right | by intros ->]. }
  assert (Hpay : forall x, x ∈ concat (<[bucket_index (table s) k := l1 ++ l2]> bs) ->
                           payload <$> heap s' !! x = payload <$> heap s !! x).
  { intros x Hx. rewrite Hh. apply unlink_heap_payload. by apply Hsub. }
  split.
  - apply (keys_rep_transfer s s' bs); try done.
    + by rewrite Ht.
    + by rewrite Ht.
    + intros x Hx. by apply Hsub.
  - apply (find_entry_no_match s' _ k HR'). intros a Hm'.
    pose proof Hm' as [Ha _]. destruct (Hsub a Ha) as [Ha' Hap]. apply Hap.
    apply (matches_unique s bs k a p HK HL); [|done].
    apply (matches_transfer s' s (<[bucket_index (table s) k := l1 ++ l2]> bs) bs k a);
      try done.
    + by rewrite Ht.
    + symmetry. by apply Hpay.
Qed.

Lemma remove_absent_spec s bs k :
  Rep s bs -> (find_entry s k = Some NULL \/ forall p, ~ matches s bs k p) ->
  zc_hashtable_remove s (Some k) = Some s.
Proof.
  intros HR Hno.
  assert (Hf : find_entry s k = Some NULL).
  { destruct Hno as [? | Hno]; [done | by apply (find_entry_no_match s bs)]. }
  unfold zc_hashtable_remove. by rewrite Hf.
Qed.

End RemoveClaims.

(** C6: on a well-formed table, [Remove(k)] of a key that has an entry
    (the entry the search answers; with lawful strategy functions, the
    one entry whose key is judged equal) calls the destructors on the key
    and the value of that entry and unlinks and frees exactly it: its
    address leaves the store, every other entry keeps its key, value and
    cached hash, the chains are the old ones without it, and the count is
    one less; with lawful strategy functions a lookup of [k] finds
    nothing afterwards.  [Remove(k)] of a key that has no entry returns
    with the state as it was. *)
Theorem remove_entry_or_nothing {K V W : Type} (s : @state K V W) bs (k : K) :
  Rep s bs ->
  (forall p, reaches s bs k p ->
     exists e s' i l1 l2,
       heap s !! p = Some e /\
       bs !! i = Some (l1 ++ p :: l2) /\
       zc_hashtable_remove s (Some k) = Some s' /\
       Rep s' (<[i := l1 ++ l2]> bs) /\
       heap s' !! p = None /\
       (forall x, x <> p -> payload <$> heap s' !! x = payload <$> heap s !! x) /\
       nelem (table s') = nelem (table s) - 1 /\
       world s' = call_del (value_del_fn (table s)) (value e)
                    (call_del (key_del_fn (table s)) (key e) (world s)) /\
       (KeysRep s bs -> lawful (table s) ->
        zc_hashtable_get_entry s' (Some k) = Some NULL /\
        zc_hashtable_get s' (Some k) = Some None)) /\
  ((find_entry s k = Some NULL \/ forall p, ~ matches s bs k p) ->
     zc_hashtable_remove s (Some k) = Some s).
Proof.
  intros HR. split.
  - intros p Hr.
    destruct (reaches_found _ _ _ _ HR Hr) as (Hf & Hnz & Hm).
    destruct (remove_found_spec s bs k p HR Hf Hnz)
      as (e & s' & l1 & l2 & He & Hl & Hrem & HR' & Ht & Hw & Hh).
    exists e, s', (bucket_index (table s) k), l1, l2. split_and!; try done.
    + rewrite Hh. apply unlink_heap_self.
    + intros x Hx. rewrite Hh. by apply unlink_heap_payload.
    + by rewrite Ht.
    + intros HK HL.
      destruct (remove_found_keys s bs k p e s' l1 l2 HR HK HL Hm He Hl HR' Ht Hh)
        as [_ Hnone].
      unfold zc_hashtable_get. simpl. by rewrite Hnone.
  - by apply remove_absent_spec.
Qed.

Lemma ex_state_reaches_3 : reaches ex_state ex_chains 3 102.
Proof.
  right. split; [exact ex_state_keys|]. split; [apply int_lawful|].
  split; [by vm_compute; set_solver|]. eexists. split; by vm_compute.
Qed.

Lemma ex_state_no_7 : forall p, ~ matches ex_state ex_chains 7 p.
Proof.
  intros p (Hin & e & He & Heq). vm_compute in Hin.
  repeat (apply elem_of_cons in Hin as [-> | Hin];
          [vm_compute in He; injection He as <-; by vm_compute in Heq|]).
  by apply elem_of_nil in Hin.
Qed.

(** On the example table the key 3 has the entry at 102, the head of its
    chain, and the key 7 has none. *)
Lemma remove_entry_or_nothing_witness :
  reaches ex_state ex_chains 3 102 /\
  (forall p, ~ matches ex_state ex_chains 7 p) /\
  (exists e s' i l1 l2,
     heap ex_state !! 102 = Some e /\
     ex_chains !! i = Some (l1 ++ 102 :: l2) /\
     zc_hashtable_remove ex_state (Some 3) = Some s' /\
     Rep s' (<[i := l1 ++ l2]> ex_chains) /\
     heap s' !! 102 = None /\
     (forall x, x <> 102 -> payload <$> heap s' !! x = payload <$> heap ex_state !! x) /\
     nelem (table s') = nelem (table ex_state) - 1 /\
     world s' = call_del (value_del_fn (table ex_state)) (value e)
                  (call_del (key_del_fn (table ex_state)) (key e) (world ex_state)) /\
     (KeysRep ex_state ex_chains -> lawful (table ex_state) ->
      zc_hashtable_get_entry s' (Some 3) = Some NULL /\
      zc_hashtable_get s' (Some 3) = Some None)) /\
  zc_hashtable_remove ex_state (Some 7) = Some ex_state.
Proof.
  split; [exact ex_state_reaches_3|]. split; [exact ex_state_no_7|]. split.
  - exact (proj1 (remove_entry_or_nothing ex_state ex_chains 3 ex_state_rep)
             102 ex_state_reaches_3).
  - exact (proj2 (remove_entry_or_nothing ex_state ex_chains 7 ex_state_rep)
             (or_intror ex_state_no_7)).
Defined.

Example remove_example :
  (s ← zc_hashtable_remove ex_state (Some 3);
   Some (nelem (table s), tab (table s), world s, zc_hashtable_get s (Some 3),
         zc_hashtable_get s (Some 1)))
  = Some (2, [104; 100], [KeyDel 3; ValueDel (Some 30)], Some None, Some (Some 10)).
Proof. by vm_compute. Qed.

(** ** Preservation of the representation *)

Section Preservation.

Context {K V W : Type}.
Implicit Types (s : @state K V W) (bs : list (list Z)).

Lemma put_preserves_rep s bs (k : option K) (v : option V) b a :
  Rep s bs -> alloc_ok (heap s) a ->
  exists rc s' bs', zc_hashtable_put s k v b a = Some (rc, s') /\ Rep s' bs'.
Proof.
  intros HR Ha. destruct k as [k|]; [|by exists (-1), s, bs].
  destruct (find_entry_spec s bs k HR) as (l & p & Hl & Hf & Hfound).
  destruct (Z.eq_dec p 0) as [-> | Hnz].
  - destruct (put_absent_spec s bs k v b a HR Hf Ha)
      as [(_ & _ & Hput) | (s1 & bs1 & Hstep & Hcases)].
    + by exists (-1), s, bs.
    + destruct (rehash_step_facts _ _ _ _ _ HR Hstep) as (HR1 & _ & _ & _ & Hpay & _).
      destruct Hcases as [[-> Hput] | (Hnz & s' & Hput & Hnew)].
      * by exists (-1), s1, bs1.
      * destruct Ha as [? | [Hfresh Hrange]]; [done|].
        destruct (put_new_entry_spec s1 bs1 k v a HR1) as (s'' & Hs'' & HR'' & _);
          try done.
        { specialize (Hpay a). rewrite Hfresh in Hpay. simpl in Hpay.
          by destruct (heap s1 !! a). }
        rewrite Hnew in Hs''. injection Hs'' as <-. by eexists 0, s', _.
  - pose proof (find_entry_found _ _ _ _ HR Hf Hnz) as (Hin & e & He & _).
    destruct (put_update_spec s bs k v p e HR Hin He) as (s' & Hup & _ & HR').
    exists 0, s', bs. split; [|done].
    rewrite (put_found_eq _ _ _ _ _ _ Hf Hnz), Hup. done.
Qed.

Lemma remove_preserves_rep s bs (k : option K) :
  Rep s bs -> exists s' bs', zc_hashtable_remove s k = Some s' /\ Rep s' bs'.
Proof.
  intros HR. destruct k as [k|]; [|by exists s, bs].
  destruct (find_entry_spec s bs k HR) as (l & p & Hl & Hf & Hfound).
  unfold zc_hashtable_remove. rewrite Hf. simpl.
  destruct (Z.eqb_spec p 0) as [-> | Hnz]; [by exists s, bs|].
  pose proof (find_entry_found _ _ _ _ HR Hf Hnz) as (Hin & e & He & _).
  destruct (find_entry_split _ _ _ _ HR Hf Hnz) as (l1 & l2 & Hl').
  destruct (remove_entry_spec s bs _ l1 p l2 e HR Hl' He) as (s' & Hrem & HR' & _).
  by eexists s', _.
Qed.

Lemma rehash_preserves_rep s bs b :
  Rep s bs -> exists rc s' bs', zc_hashtable_rehash s b = Some (rc, s') /\ Rep s' bs'.
Proof.
  intros HR. destruct (rehash_spec s bs b HR) as [Hfail | (s' & Hok & HR' & _)].
  - by exists (-1), s, bs.
  - by eexists 0, s', _.
Qed.

(** The keys across the rehash step of a [Put]. *)
Lemma rehash_step_keys s bs b s1 bs1 :
  Rep s bs -> KeysRep s bs -> rehash_step s bs b s1 bs1 ->
  KeysRep s1 bs1 /\
  hash_fn (table s1) = hash_fn (table s) /\ equal_fn (table s1) = equal_fn (table s) /\
  (forall k a, matches s bs k a <-> matches s1 bs1 k a).
Proof.
  intros HR HK Hstep.
  destruct (rehash_step_facts _ _ _ _ _ HR Hstep) as (HR1 & Ht & _ & Hperm & Hpay & _).
  assert (Hhf : hash_fn (table s1) = hash_fn (table s)) by (by rewrite Ht).
  assert (Hef : equal_fn (table s1) = equal_fn (table s)) by (by rewrite Ht).
  split_and!; try done.
  - apply (keys_rep_transfer s s1 bs); try done. intros a Ha. by rewrite <- Hperm.
  - intros k a. split; intros Hm.
    + apply (matches_transfer s s1 bs bs1 k a); try done.
      rewrite Hperm. by destruct Hm.
    + apply (matches_transfer s1 s bs1 bs k a); try done.
      rewrite <- Hperm. by destruct Hm.
Qed.

Lemma put_new_entry_keys s bs k v p s' :
  Rep s bs -> KeysRep s bs -> lawful (table s) ->
  (forall a, ~ matches s bs k a) ->
  heap s !! p = None -> 0 < p < SIZE_MOD ->
  put_new_entry s k v p = Some s' ->
  KeysRep s' (push_abs (bucket_index (table s) k) p bs) /\
  (forall k' a, matches s bs k' a ->
                matches s' (push_abs (bucket_index (table s) k) p bs) k' a).
Proof.
  intros HR HK HL Hno Hfresh Hrange Hnew.
  destruct (put_new_entry_spec s bs k v p HR Hfresh Hrange)
    as (s'' & Hs'' & HR' & Ht & _ & (ep & Hep & Hpayp) & Hpay & _).
  rewrite Hnew in Hs''. injection Hs'' as <-.
  assert (Hperm : concat (push_abs (bucket_index (table s) k) p bs) ≡ₚ p :: concat bs).
  { apply concat_push_perm. rewrite (rep_length _ _ HR).
    destruct (rep_size _ _ HR) as [Hpos _]. pose proof (rep_len _ _ HR).
    pose proof (Z.mod_pos_bound (call_hash (table s) k) _ Hpos).
    unfold bucket_index. lia. }
  assert (Hhf : hash_fn (table s') = hash_fn (table s)) by (by rewrite Ht).
  assert (Hef : equal_fn (table s') = equal_fn (table s)) by (by rewrite Ht).
  assert (Hnin : p ∉ concat bs).
  { intros Hin. destruct (rep_entry _ _ _ HR Hin) as [_ [e He]]. congruence. }
  unfold payload in Hpayp. injection Hpayp as Hhk Hkk Hvv.
  assert (Hold : forall a e', a ∈ concat bs -> heap s' !! a = Some e' ->
            exists e, heap s !! a = Some e /\ key e = key e' /\ hash_key e = hash_key e').
  { intros a e' Ha He'. assert (Hap : a <> p) by (by intros ->).
    destruct (payload_eq_Some _ _ _ _ (Hpay a Hap) He') as (e & He & ? & ? & _).
    by exists e. }
  assert (Hfalse : forall b eb, b ∈ concat bs -> heap s !! b = Some eb ->
            equal_fn (table s) k (key eb) = false).
  { intros b eb Hb Heb. destruct (equal_fn (table s) k (key eb)) eqn:Heq; [|done].
    exfalso. apply (Hno b). split; [done | by exists eb]. }
  split_and!.
  - constructor.
    + intros a e' Ha He'. rewrite Hperm in Ha. unfold call_hash. rewrite Hhf.
      apply elem_of_cons in Ha as [-> | Ha].
      * rewrite Hep in He'. injection He' as <-. by rewrite Hhk, Hkk.
      * destruct (Hold a e' Ha He') as (e & He & <- & <-).
        exact (keys_hash _ _ HK a e Ha He).
    + intros a b ea' eb' Ha Hb Hne Hea' Heb'. rewrite Hperm in Ha, Hb. rewrite Hef.
      apply elem_of_cons in Ha as [-> | Ha]; apply elem_of_cons in Hb as [-> | Hb].
      * done.
      * rewrite Hep in Hea'. injection Hea' as <-. rewrite Hkk.
        destruct (Hold b eb' Hb Heb') as (eb & Heb & <- & _). by apply (Hfalse b).
      * rewrite Hep in Heb'. injection Heb' as <-. rewrite Hkk.
        destruct (Hold a ea' Ha Hea') as (ea & Hea & <- & _).
        destruct (equal_fn (table s) (key ea) k) eqn:Heq; [|done].
        rewrite <- (Hfalse a ea Ha Hea). symmetry. by apply (equal_sym _ HL).
      * destruct (Hold a ea' Ha Hea') as (ea & Hea & <- & _).
        destruct (Hold b eb' Hb Heb') as (eb & Heb & <- & _).
        exact (keys_uniq _ _ HK a b ea eb Ha Hb Hne Hea Heb).
  - intros k' a Hm. pose proof Hm as [Ha _].
    apply (matches_transfer s s' bs _ k' a); try done.
    + rewrite Hperm. by right.
    + apply Hpay. by intros ->.
Qed.

End Preservation.

(** ** Rehash *)

Section RehashClaims.

Context {K V W : Type}.
Implicit Types (s : @state K V W) (bs : list (list Z)).

(** A rehash never calls [hash_fn]: with any other hash function in the
    table it does the same. *)
Lemma rehash_ignores_hash_fn s b (f : K -> Z) :
  zc_hashtable_rehash (with_hash_fn s f) b
  = (fun r => (r.1, with_hash_fn r.2 f)) <$> zc_hashtable_rehash s b.
Proof.
  unfold zc_hashtable_rehash, with_hash_fn. simpl.
  destruct (calloc_tab b (to_size (2 * tab_size (table s)))) as [new_tab|]; [|done].
  change (rehash_bucket (chain_fuel (heap s)) (set_hash_fn (table s) f))
    with (rehash_bucket (chain_fuel (heap s)) (table s)).
  destruct (for_loop _ _ _ _) as [[new_tab' h']|]; done.
Qed.

End RehashClaims.

(** C3: on a well-formed table a rehash either fails at its allocation
    and leaves the state as it was, or succeeds (it does when the
    allocation is granted), and then the capacity is
    exactly doubled, the count is unchanged, no hash is recomputed (with
    any other [hash_fn] in the table the rehash does the same), every
    entry keeps its key, value and cached hash, and the new chains are
    the ones obtained by pushing the entries, in the order the old table
    is walked, on the head of the bucket [cached_hash mod new_capacity]:
    every entry of the old chains is in the new chains, in that bucket. *)
Theorem rehash_relinks {K V W : Type} (s : @state K V W) bs (tab_alloc : bool) :
  Rep s bs ->
  exists rc s',
    zc_hashtable_rehash s tab_alloc = Some (rc, s') /\
    (tab_alloc = true -> 2 * tab_size (table s) * 8 < SIZE_MOD -> rc = 0) /\
    (rc <> 0 -> s' = s) /\
    (rc = 0 ->
       let new_size := 2 * tab_size (table s) in
       let bs' := relink_abs (cached_hash (heap s)) new_size (concat bs) in
       tab_size (table s') = new_size /\
       nelem (table s') = nelem (table s) /\
       Rep s' bs' /\
       (forall x, payload <$> heap s' !! x = payload <$> heap s !! x) /\
       (forall a, a ∈ concat bs <-> a ∈ concat bs') /\
       (forall i l a, bs' !! i = Some l -> a ∈ l ->
                      cached_hash (heap s) a mod new_size = Z.of_nat i)) /\
    (forall f : K -> Z,
       zc_hashtable_rehash (with_hash_fn s f) tab_alloc = Some (rc, with_hash_fn s' f)).
Proof.
  intros HR. destruct (rep_size _ _ HR) as [Hpos _].
  destruct (rehash_spec s bs tab_alloc HR)
    as [Hfail | (s' & Hok & HR' & Ht & Hw & Hpay & Hfr)].
  - exists (-1), s. split_and!; try done.
    + intros -> Hfit. destruct (rehash_succeeds s bs HR Hfit) as [s' Hs']. congruence.
    + intros f. by rewrite rehash_ignores_hash_fn, Hfail.
  - assert (Hns : 0 < 2 * tab_size (table s)) by lia.
    exists 0, s'. split_and!; try done.
    + intros _. simpl. split_and!; try done.
      * by rewrite Ht.
      * by rewrite Ht.
      * intros a. by rewrite (relink_abs_perm _ _ Hns).
      * intros i l a Hl Ha. exact (relink_abs_bucket _ _ Hns _ _ _ _ Hl Ha).
    + intros f. by rewrite rehash_ignores_hash_fn, Hok.
Qed.

Lemma rehash_relinks_witness :
  exists rc s',
    zc_hashtable_rehash ex_state true = Some (rc, s') /\
    (true = true -> 2 * tab_size (table ex_state) * 8 < SIZE_MOD -> rc = 0) /\
    (rc <> 0 -> s' = ex_state) /\
    (rc = 0 ->
       let new_size := 2 * tab_size (table ex_state) in
       let bs' := relink_abs (cached_hash (heap ex_state)) new_size (concat ex_chains) in
       tab_size (table s') = new_size /\
       nelem (table s') = nelem (table ex_state) /\
       Rep s' bs' /\
       (forall x, payload <$> heap s' !! x = payload <$> heap ex_state !! x) /\
       (forall a, a ∈ concat ex_chains <-> a ∈ concat bs') /\
       (forall i l a, bs' !! i = Some l -> a ∈ l ->
                      cached_hash (heap ex_state) a mod new_size = Z.of_nat i)) /\
    (forall f : Z -> Z,
       zc_hashtable_rehash (with_hash_fn ex_state f) true
       = Some (rc, with_hash_fn s' f)).
Proof. exact (rehash_relinks ex_state ex_chains true ex_state_rep). Defined.

(** The rehash of the example table succeeds: two chains become four
    buckets, and the entries 102 and 100, which shared a bucket, are now
    apart. *)
Example rehash_example :
  exists s', zc_hashtable_rehash ex_state true = Some (0, s') /\
             tab (table s') = [0; 100; 104; 102] /\ tab_size (table s') = 4 /\
             relink_abs (cached_hash (heap ex_state)) 4 (concat ex_chains)
             = [[]; [100]; [104]; [102]].
Proof. eexists. split; [by vm_compute|]. by vm_compute. Qed.

(** ** The invariants of the data model *)

Lemma rep_invariants {K V W : Type} (s : @state K V W) bs :
  Rep s bs -> count_invariant s bs /\ bucket_invariant s bs.
Proof. intros HR. split; [exact (rep_count _ _ HR) | exact (rep_bucket _ _ HR)]. Qed.

(** C4: every operation keeps the table well formed, and with it the two
    invariants of the data model: the count is the number of entries on
    the chains, and every entry is on the chain of the bucket
    [cached hash mod capacity].  [New] establishes them; [Put] (whatever
    its allocations answer, for a null key too), [Remove], [Clean] and a
    rehash return, and keep them.  The assumption that [hash_fn] agrees
    with [equal_fn] is not needed for these two invariants. *)
Theorem invariants_preserved {K V W : Type} :
  (forall a_size hf ef kd vd ta tb (t : @zc_hashtable_t K V W) h w,
     zc_hashtable_new a_size hf ef kd vd ta tb = Some t ->
     exists bs, Rep (State t h w) bs /\
                count_invariant (State t h w) bs /\ bucket_invariant (State t h w) bs) /\
  (forall (s : @state K V W) bs k v b a,
     Rep s bs -> alloc_ok (heap s) a ->
     exists rc s' bs', zc_hashtable_put s k v b a = Some (rc, s') /\
                       Rep s' bs' /\ count_invariant s' bs' /\ bucket_invariant s' bs') /\
  (forall (s : @state K V W) bs k,
     Rep s bs ->
     exists s' bs', zc_hashtable_remove s k = Some s' /\
                    Rep s' bs' /\ count_invariant s' bs' /\ bucket_invariant s' bs') /\
  (forall (s : @state K V W) bs,
     Rep s bs ->
     exists s' bs', zc_hashtable_clean s = Some s' /\
                    Rep s' bs' /\ count_invariant s' bs' /\ bucket_invariant s' bs') /\
  (forall (s : @state K V W) bs b,
     Rep s bs ->
     exists rc s' bs', zc_hashtable_rehash s b = Some (rc, s') /\
                       Rep s' bs' /\ count_invariant s' bs' /\ bucket_invariant s' bs').
Proof.
  split_and!.
  - intros a_size hf ef kd vd ta tb t h w Hnew.
    destruct (new_spec _ _ _ _ _ _ _ _ Hnew) as (_ & _ & _ & _ & _ & _ & _ & HR).
    eexists. split; [apply HR|]. apply rep_invariants, HR.
  - intros s bs k v b a HR Ha.
    destruct (put_preserves_rep s bs k v b a HR Ha) as (rc & s' & bs' & Hput & HR').
    exists rc, s', bs'. split; [done|]. split; [done|]. by apply rep_invariants.
  - intros s bs k HR.
    destruct (remove_preserves_rep s bs k HR) as (s' & bs' & Hrem & HR').
    exists s', bs'. split; [done|]. split; [done|]. by apply rep_invariants.
  - intros s bs HR.
    destruct (clean_spec s bs HR) as (s' & Hcl & HR' & _).
    eexists s', _. split; [done|]. split; [done|]. by apply rep_invariants.
  - intros s bs b HR.
    destruct (rehash_preserves_rep s bs b HR) as (rc & s' & bs' & Hre & HR').
    exists rc, s', bs'. split; [done|]. split; [done|]. by apply rep_invariants.
Qed.

(** The operations on the example table: an insertion that rehashes
    first, a removal, a cleaning and a rehash all keep it well formed. *)
Lemma invariants_preserved_witness :
  Rep ex_state ex_chains /\ alloc_ok (heap ex_state) 106 /\
  (exists rc s' bs', zc_hashtable_put ex_state (Some 5) (Some 50) true 106 = Some (rc, s') /\
     Rep s' bs' /\ count_invariant s' bs' /\ bucket_invariant s' bs') /\
  (exists s' bs', zc_hashtable_remove ex_state (Some 1) = Some s' /\
     Rep s' bs' /\ count_invariant s' bs' /\ bucket_invariant s' bs') /\
  (exists s' bs', zc_hashtable_clean ex_state = Some s' /\
     Rep s' bs' /\ count_invariant s' bs' /\ bucket_invariant s' bs') /\
  (exists rc s' bs', zc_hashtable_rehash ex_state true = Some (rc, s') /\
     Rep s' bs' /\ count_invariant s' bs' /\ bucket_invariant s' bs').
Proof.
  assert (Ha : alloc_ok (heap ex_state) 106).
  { right. split; [by vm_compute | by vm_compute]. }
  destruct (@invariants_preserved Z Z (list del_event))
    as (_ & Hput & Hrem & Hclean & Hrehash).
  split; [exact ex_state_rep|]. split; [exact Ha|]. split_and!.
  - exact (Hput ex_state ex_chains (Some 5) (Some 50) true 106 ex_state_rep Ha).
  - exact (Hrem ex_state ex_chains (Some 1) ex_state_rep).
  - exact (Hclean ex_state ex_chains ex_state_rep).
  - exact (Hrehash ex_state ex_chains true ex_state_rep).
Defined.

(** ** Failed insertions *)

(** What a failed [Put] leaves: nothing is added, and the state is the
    old one or the rehashed one. *)
Lemma put_failure_cases {K V W : Type} (s : @state K V W) bs
    (k : option K) (v : option V) (tab_alloc : bool) (entry_alloc : Z) :
  Rep s bs -> alloc_ok (heap s) entry_alloc ->
  exists rc s',
    zc_hashtable_put s k v tab_alloc entry_alloc = Some (rc, s') /\
    (rc <> 0 ->
       nelem (table s') = nelem (table s) /\
       world s' = world s /\
       (forall x, payload <$> heap s' !! x = payload <$> heap s !! x) /\
       (s' = s \/
        (load_exceeded (nelem (table s)) (tab_size (table s)) = true /\
         entry_alloc = NULL /\
         zc_hashtable_rehash s tab_alloc = Some (0, s') /\
         tab_size (table s') = 2 * tab_size (table s))) /\
       (load_exceeded (nelem (table s)) (tab_size (table s)) = false -> s' = s) /\
       (zc_hashtable_rehash s tab_alloc = Some (-1, s) -> s' = s)).
Proof.
  intros HR Ha. destruct k as [k|].
  2:{ exists (-1), s. split; [done|]. intros _. split_and!; try done. by left. }
  destruct (find_entry_spec s bs k HR) as (l & p & Hl & Hf & Hfound).
  destruct (Z.eq_dec p 0) as [-> | Hnz].
  - destruct (put_absent_spec s bs k v tab_alloc entry_alloc HR Hf Ha)
      as [(_ & _ & Hput) | (s1 & bs1 & Hstep & Hcases)].
    + exists (-1), s. split; [done|]. intros _. split_and!; try done. by left.
    + destruct Hcases as [[-> Hput] | (Hnz & s' & Hput & Hnew)].
      * exists (-1), s1. split; [done|]. intros _.
        destruct (rehash_step_facts _ _ _ _ _ HR Hstep) as (_ & Ht & Hw & _ & Hpay & _).
        destruct Hstep as [(Hload & -> & ->) | (Hload & Hre & ->)].
        { split_and!; try done. by left. }
        destruct (rehash_spec s bs tab_alloc HR) as [Hfail | (s' & Hok & _ & Ht' & _)].
        { rewrite Hre in Hfail. done. }
        rewrite Hre in Hok. injection Hok as <-.
        split_and!; try done.
        -- by rewrite Ht.
        -- right. split_and!; try done. by rewrite Ht'.
        -- rewrite Hload. done.
        -- rewrite Hre. done.
      * exists 0, s'. split; [done|]. done.
  - pose proof (find_entry_found _ _ _ _ HR Hf Hnz) as (Hin & e & He & _).
    destruct (put_update_spec s bs k v p e HR Hin He) as (s' & Hup & _ & _).
    exists 0, s'. split; [|done].
    rewrite (put_found_eq _ _ _ _ _ _ Hf Hnz), Hup. done.
Qed.


(** C2 (as amended): a [Put] on a well-formed table returns, and when it
    fails no entry is added: the count, the destructors' world and the
    key, value and cached hash of every entry are as before.  For a key
    that has no entry, the [Put] fails and the state is exactly the one
    before the [Put] when the rehash that is due cannot allocate, and
    when no rehash is due and the entry allocation fails; when a rehash
    is due and succeeds and the entry allocation then fails, the [Put]
    fails and the state is the rehashed one, not the old one: the
    capacity is doubled and the chains are the relinked ones. *)
Theorem put_failure_state {K V W : Type} (s : @state K V W) bs
    (k : option K) (v : option V) (tab_alloc : bool) (entry_alloc : Z) :
  Rep s bs -> alloc_ok (heap s) entry_alloc ->
  exists rc s',
    zc_hashtable_put s k v tab_alloc entry_alloc = Some (rc, s') /\
    (rc <> 0 ->
       nelem (table s') = nelem (table s) /\
       world s' = world s /\
       (forall x, payload <$> heap s' !! x = payload <$> heap s !! x) /\
       (s' = s \/
        (load_exceeded (nelem (table s)) (tab_size (table s)) = true /\
         entry_alloc = NULL /\
         zc_hashtable_rehash s tab_alloc = Some (0, s') /\
         tab_size (table s') = 2 * tab_size (table s))) /\
       (load_exceeded (nelem (table s)) (tab_size (table s)) = false -> s' = s) /\
       (zc_hashtable_rehash s tab_alloc = Some (-1, s) -> s' = s)) /\
    (forall k0, k = Some k0 -> find_entry s k0 = Some NULL ->
       (load_exceeded (nelem (table s)) (tab_size (table s)) = true ->
        zc_hashtable_rehash s tab_alloc = Some (-1, s) ->
        rc = -1 /\ s' = s) /\
       (load_exceeded (nelem (table s)) (tab_size (table s)) = false ->
        entry_alloc = NULL ->
        rc = -1 /\ s' = s) /\
       (forall s1,
          load_exceeded (nelem (table s)) (tab_size (table s)) = true ->
          zc_hashtable_rehash s tab_alloc = Some (0, s1) ->
          entry_alloc = NULL ->
          rc = -1 /\ s' = s1 /\ s' <> s /\
          tab_size (table s') = 2 * tab_size (table s) /\
          Rep s' (relink_abs (cached_hash (heap s)) (2 * tab_size (table s))
                             (concat bs)))).
Proof.
  intros HR Ha.
  destruct (put_failure_cases s bs k v tab_alloc entry_alloc HR Ha)
    as (rc & s' & Hput & Hfail).
  exists rc, s'. split; [done|]. split; [done|].
  intros k0 -> Hf. rewrite (put_absent_eq _ _ _ _ _ Hf) in Hput. split_and!.
  - intros Hload Hre. rewrite Hload, Hre in Hput. simpl in Hput.
    by injection Hput as <- <-.
  - intros Hload ->. rewrite Hload in Hput. simpl in Hput.
    by injection Hput as <- <-.
  - intros s1 Hload Hre ->. rewrite Hload, Hre in Hput. simpl in Hput.
    injection Hput as <- <-.
    destruct (rehash_spec s bs tab_alloc HR) as [Hno | (s2 & Hok & HR2 & Ht & _)];
      [congruence|].
    rewrite Hre in Hok. injection Hok as <-.
    destruct (rep_size _ _ HR) as [Hpos _].
    assert (Hsize : tab_size (table s1) = 2 * tab_size (table s)) by (by rewrite Ht).
    split_and!; try done. intros ->. lia.
Qed.

(** On the example table a rehash is due: with the bucket array granted
    and the entry refused, the [Put] of the absent key 5 fails and
    leaves the rehashed table. *)
Lemma put_failure_state_witness :
  Rep ex_state ex_chains /\ alloc_ok (heap ex_state) NULL /\
  exists rc s',
    zc_hashtable_put ex_state (Some 5) (Some 50) true NULL = Some (rc, s') /\
    (rc <> 0 ->
       nelem (table s') = nelem (table ex_state) /\
       world s' = world ex_state /\
       (forall x, payload <$> heap s' !! x = payload <$> heap ex_state !! x) /\
       (s' = ex_state \/
        (load_exceeded (nelem (table ex_state)) (tab_size (table ex_state)) = true /\
         NULL = NULL /\
         zc_hashtable_rehash ex_state true = Some (0, s') /\
         tab_size (table s') = 2 * tab_size (table ex_state))) /\
       (load_exceeded (nelem (table ex_state)) (tab_size (table ex_state)) = false ->
        s' = ex_state) /\
       (zc_hashtable_rehash ex_state true = Some (-1, ex_state) -> s' = ex_state)) /\
    (forall k0, Some 5 = Some k0 -> find_entry ex_state k0 = Some NULL ->
       (load_exceeded (nelem (table ex_state)) (tab_size (table ex_state)) = true ->
        zc_hashtable_rehash ex_state true = Some (-1, ex_state) ->
        rc = -1 /\ s' = ex_state) /\
       (load_exceeded (nelem (table ex_state)) (tab_size (table ex_state)) = false ->
        NULL = NULL ->
        rc = -1 /\ s' = ex_state) /\
       (forall s1,
          load_exceeded (nelem (table ex_state)) (tab_size (table ex_state)) = true ->
          zc_hashtable_rehash ex_state true = Some (0, s1) ->
          NULL = NULL ->
          rc = -1 /\ s' = s1 /\ s' <> ex_state /\
          tab_size (table s') = 2 * tab_size (table ex_state) /\
          Rep s' (relink_abs (cached_hash (heap ex_state))
                             (2 * tab_size (table ex_state)) (concat ex_chains)))).
Proof.
  assert (Ha : alloc_ok (heap ex_state) NULL) by (by left).
  split; [exact ex_state_rep|]. split; [exact Ha|].
  exact (put_failure_state ex_state ex_chains (Some 5) (Some 50) true NULL
           ex_state_rep Ha).
Defined.

(** C2 (as stated) fails: on the example table a rehash is due; when its
    allocation succeeds and the allocation of the entry fails, [Put]
    returns the error code and leaves the table rehashed, with four
    buckets instead of two and other bucket heads. *)
Lemma put_failure_after_rehash_counterexample :
  exists s',
    zc_hashtable_put ex_state (Some 5) (Some 50) true NULL = Some (-1, s') /\
    tab_size (table ex_state) = 2 /\ tab_size (table s') = 4 /\
    tab (table ex_state) = [104; 102] /\ tab (table s') = [0; 100; 104; 102] /\
    s' <> ex_state.
Proof.
  eexists. split; [by vm_compute|]. split_and!; by vm_compute.
Qed.

(** ** Growth of the table *)

Section GrowthClaims.

Context {K V W : Type}.
Implicit Types (s : @state K V W) (bs : list (list Z)).

Lemma lawful_transfer (t t' : @zc_hashtable_t K V W) :
  hash_fn t' = hash_fn t -> equal_fn t' = equal_fn t -> lawful t -> lawful t'.
Proof.
  intros Hhf Hef [Hs Ht Hh]. constructor; unfold call_hash; rewrite ?Hef, ?Hhf.
  - exact Hs.
  - exact Ht.
  - exact Hh.
Qed.

Lemma put_absent_grows s bs k v b a :
  Rep s bs -> KeysRep s bs -> lawful (table s) ->
  (forall p, ~ matches s bs k p) -> alloc_ok (heap s) a ->
  exists rc s',
    zc_hashtable_put s (Some k) v b a = Some (rc, s') /\
    (rc = 0 <->
     a <> NULL /\
     (load_exceeded (nelem (table s)) (tab_size (table s)) = true ->
      exists s1, zc_hashtable_rehash s b = Some (0, s1))) /\
    (rc = 0 ->
     tab_size (table s') =
       (if load_exceeded (nelem (table s)) (tab_size (table s))
        then 2 * tab_size (table s) else tab_size (table s)) /\
     nelem (table s') = nelem (table s) + 1 /\
     (forall k' p, find_entry s k' = Some p -> p <> NULL ->
                   find_entry s' k' = Some p /\
                   payload <$> heap s' !! p = payload <$> heap s !! p)).
Proof.
  intros HR HK HL Hno Ha.
  pose proof (find_entry_no_match s bs k HR Hno) as Hf.
  destruct (put_absent_spec s bs k v b a HR Hf Ha)
    as [(Hload & Hfail & Hput) | (s1 & bs1 & Hstep & Hcases)].
  - exists (-1), s. split; [done|]. split; [|done]. split; [done|].
    intros [_ Hre]. destruct (Hre Hload) as [s1 Hs1]. congruence.
  - destruct Hcases as [[-> Hput] | (Hnz & s' & Hput & Hnew)].
    + exists (-1), s1. split; [done|]. split; [|done]. split; [done | by intros [? _]].
    + exists 0, s'. split; [done|].
      destruct (rehash_step_facts _ _ _ _ _ HR Hstep) as (HR1 & Ht1 & _ & _ & Hpay1 & _).
      destruct (rehash_step_keys _ _ _ _ _ HR HK Hstep) as (HK1 & Hhf1 & Hef1 & Hm1).
      pose proof (lawful_transfer _ _ Hhf1 Hef1 HL) as HL1.
      destruct Ha as [? | [Hfresh Hrange]]; [done|].
      assert (Hfresh1 : heap s1 !! a = None).
      { specialize (Hpay1 a). rewrite Hfresh in Hpay1. simpl in Hpay1.
        by destruct (heap s1 !! a). }
      destruct (put_new_entry_spec s1 bs1 k v a HR1 Hfresh1 Hrange)
        as (s'' & Hs'' & HR' & Ht' & _ & _ & Hpay' & _).
      rewrite Hnew in Hs''. injection Hs'' as <-.
      assert (Hno1 : forall p, ~ matches s1 bs1 k p).
      { intros p Hm. apply (Hno p). by apply Hm1. }
      destruct (put_new_entry_keys s1 bs1 k v a s' HR1 HK1 HL1 Hno1 Hfresh1 Hrange Hnew)
        as (HK' & Hm').
      assert (HL' : lawful (table s')).
      { apply (lawful_transfer (table s1)); [by rewrite Ht' | by rewrite Ht' | done]. }
      split.
      { split; [|done]. intros _. split; [done|]. intros Hload.
        destruct Hstep as [(Hload' & _) | (_ & Hre & _)]; [congruence | by exists s1]. }
      intros _. split_and!.
      * rewrite Ht'. simpl.
        destruct Hstep as [(-> & -> & _) | (-> & Hre & _)]; [done|].
        destruct (rehash_spec s bs b HR) as [Hfail | (s2 & Hok & _ & Ht2 & _)];
          [congruence|].
        rewrite Hre in Hok. injection Hok as <-. by rewrite Ht2.
      * rewrite Ht'. simpl. by rewrite Ht1.
      * intros k' p Hf' Hpz.
        pose proof (find_entry_found _ _ _ _ HR Hf' Hpz) as Hm.
        split.
        -- apply (find_entry_matches s' _ k' p HR' HK' HL'). apply Hm'. by apply Hm1.
        -- rewrite Hpay', Hpay1; [done|]. intros ->.
           destruct Hm as (_ & e & He & _). congruence.
Qed.

End GrowthClaims.

(** ** The keys stay well kept *)

Section KeysPreserved.

Context {K V W : Type}.
Implicit Types (s : @state K V W) (bs : list (list Z)).

(** With lawful strategy functions every [Put] keeps the keys of the
    table well kept: the hypotheses of the claims about updates,
    removals and growth hold in every state the interface can reach from
    [New]. *)
Lemma put_preserves_keys s bs (k : option K) (v : option V) b a :
  Rep s bs -> KeysRep s bs -> lawful (table s) -> alloc_ok (heap s) a ->
  exists rc s' bs',
    zc_hashtable_put s k v b a = Some (rc, s') /\
    Rep s' bs' /\ KeysRep s' bs' /\ lawful (table s').
Proof.
  intros HR HK HL Ha. destruct k as [k|]; [|by exists (-1), s, bs].
  destruct (find_entry_spec s bs k HR) as (l & p & Hl & Hf & Hfound).
  destruct (Z.eq_dec p 0) as [-> | Hnz].
  - pose proof (find_entry_null s bs k HR HK HL Hf) as Hno.
    destruct (put_absent_spec s bs k v b a HR Hf Ha)
      as [(_ & _ & Hput) | (s1 & bs1 & Hstep & Hcases)].
    + by exists (-1), s, bs.
    + destruct (rehash_step_facts _ _ _ _ _ HR Hstep) as (HR1 & _ & _ & _ & Hpay & _).
      destruct (rehash_step_keys _ _ _ _ _ HR HK Hstep) as (HK1 & Hhf1 & Hef1 & Hm1).
      pose proof (lawful_transfer _ _ Hhf1 Hef1 HL) as HL1.
      destruct Hcases as [[-> Hput] | (Hnz & s' & Hput & Hnew)].
      * by exists (-1), s1, bs1.
      * destruct Ha as [? | [Hfresh Hrange]]; [done|].
        assert (Hfresh1 : heap s1 !! a = None).
        { specialize (Hpay a). rewrite Hfresh in Hpay. simpl in Hpay.
          by destruct (heap s1 !! a). }
        destruct (put_new_entry_spec s1 bs1 k v a HR1 Hfresh1 Hrange)
          as (s'' & Hs'' & HR' & Ht' & _).
        rewrite Hnew in Hs''. injection Hs'' as <-.
        assert (Hno1 : forall q, ~ matches s1 bs1 k q).
        { intros q Hm. apply (Hno q). by apply Hm1. }
        destruct (put_new_entry_keys s1 bs1 k v a s' HR1 HK1 HL1 Hno1 Hfresh1 Hrange Hnew)
          as (HK' & _).
        eexists 0, s', _. split_and!; try done.
        apply (lawful_transfer (table s1)); [by rewrite Ht' | by rewrite Ht' | done].
  - pose proof (find_entry_found _ _ _ _ HR Hf Hnz) as (Hin & e & He & Heq).
    destruct (put_update_spec s bs k v p e HR Hin He) as (s' & Hup & -> & HR').
    eexists 0, _, bs. split_and!; try done.
    + rewrite (put_found_eq _ _ _ _ _ _ Hf Hnz), Hup. done.
    + by apply keys_rep_update.
Qed.

Lemma remove_preserves_keys s bs (k : option K) :
  Rep s bs -> KeysRep s bs -> lawful (table s) ->
  exists s' bs',
    zc_hashtable_remove s k = Some s' /\
    Rep s' bs' /\ KeysRep s' bs' /\ lawful (table s').
Proof.
  intros HR HK HL. destruct k as [k|]; [|by exists s, bs].
  destruct (find_entry_spec s bs k HR) as (l & p & Hl & Hf & Hfound).
  destruct (Z.eq_dec p 0) as [-> | Hnz].
  - exists s, bs. split; [|done]. apply (remove_absent_spec s bs); [done | by left].
  - pose proof (find_entry_found _ _ _ _ HR Hf Hnz) as Hm.
    destruct (remove_found_spec s bs k p HR Hf Hnz)
      as (e & s' & l1 & l2 & He & Hl' & Hrem & HR' & Ht & _ & Hh).
    destruct (remove_found_keys s bs k p e s' l1 l2 HR HK HL Hm He Hl' HR' Ht Hh)
      as [HK' _].
    eexists s', _. split_and!; try done.
    apply (lawful_transfer (table s)); [by rewrite Ht | by rewrite Ht | done].
Qed.

End KeysPreserved.

(** C1 (as amended): the load test of [Put] is made before the
    insertion, on the count the table has then.  On a well-formed table
    with lawful strategy functions, a [Put] of a key that has no entry
    returns; it succeeds exactly when the entry allocation succeeds and
    the rehash that may be due succeeds; and when it succeeds, the
    capacity is exactly doubled if the count before the [Put] was above
    [capacity * 1.3] and unchanged otherwise, the count is one more, and
    every lookup that found an entry before finds the same entry, with
    the same key, value and cached hash.  Starting from [New(4, ...)],
    after [Put("a",1)], [Put("b",2)], [Put("a",3)] the count is 2 and the
    values are 3 and 2; after the keys ["c"], ["d"], ["e"] the count is 5
    and the capacity is still 4, all five keys being retrievable; the
    capacity becomes 8 at the insertion of the seventh distinct key, and
    all seven keys are retrievable. *)
Theorem put_grows_when_loaded :
  (forall (K V W : Type) (s : @state K V W) bs (k : K) (v : option V)
          (tab_alloc : bool) (entry_alloc : Z),
     Rep s bs -> KeysRep s bs -> lawful (table s) ->
     (forall p, ~ matches s bs k p) -> alloc_ok (heap s) entry_alloc ->
     exists rc s',
       zc_hashtable_put s (Some k) v tab_alloc entry_alloc = Some (rc, s') /\
       (rc = 0 <->
        entry_alloc <> NULL /\
        (load_exceeded (nelem (table s)) (tab_size (table s)) = true ->
         exists s1, zc_hashtable_rehash s tab_alloc = Some (0, s1))) /\
       (rc = 0 ->
        tab_size (table s') =
          (if load_exceeded (nelem (table s)) (tab_size (table s))
           then 2 * tab_size (table s) else tab_size (table s)) /\
        nelem (table s') = nelem (table s) + 1 /\
        (forall k' p, find_entry s k' = Some p -> p <> NULL ->
                      find_entry s' k' = Some p /\
                      payload <$> heap s' !! p = payload <$> heap s !! p))) /\
  observe (run_puts 4 spec_puts_3) (take 2 spec_keys)
    = Some (2, 4, [Some (Some 3); Some (Some 2)]) /\
  observe (run_puts 4 spec_puts_6) (take 5 spec_keys)
    = Some (5, 4, [Some (Some 3); Some (Some 2); Some (Some 4); Some (Some 5);
                   Some (Some 6)]) /\
  observe (run_puts 4 spec_puts_7) (take 6 spec_keys)
    = Some (6, 4, [Some (Some 3); Some (Some 2); Some (Some 4); Some (Some 5);
                   Some (Some 6); Some (Some 7)]) /\
  observe (run_puts 4 spec_puts_8) spec_keys
    = Some (7, 8, [Some (Some 3); Some (Some 2); Some (Some 4); Some (Some 5);
                   Some (Some 6); Some (Some 7); Some (Some 8)]).
Proof.
  split; [|split_and!; by vm_compute].
  intros K V W s bs k v tab_alloc entry_alloc. apply put_absent_grows.
Qed.

Lemma ex_state_no_5 : forall p, ~ matches ex_state ex_chains 5 p.
Proof.
  intros p (Hin & e & He & Heq). vm_compute in Hin.
  repeat (apply elem_of_cons in Hin as [-> | Hin];
          [vm_compute in He; injection He as <-; by vm_compute in Heq|]).
  by apply elem_of_nil in Hin.
Qed.

Lemma ex_state_alloc_106 : alloc_ok (heap ex_state) 106.
Proof. right. split; by vm_compute. Qed.

(** On the example table the load test holds ([3 > 2 * 1.3]), so the
    [Put] of the absent key 5 rehashes first. *)
Lemma put_grows_when_loaded_witness :
  (forall p, ~ matches ex_state ex_chains 5 p) /\
  alloc_ok (heap ex_state) 106 /\
  exists rc s',
    zc_hashtable_put ex_state (Some 5) (Some 50) true 106 = Some (rc, s') /\
    (rc = 0 <->
     106 <> NULL /\
     (load_exceeded (nelem (table ex_state)) (tab_size (table ex_state)) = true ->
      exists s1, zc_hashtable_rehash ex_state true = Some (0, s1))) /\
    (rc = 0 ->
     tab_size (table s') =
       (if load_exceeded (nelem (table ex_state)) (tab_size (table ex_state))
        then 2 * tab_size (table ex_state) else tab_size (table ex_state)) /\
     nelem (table s') = nelem (table ex_state) + 1 /\
     (forall k' p, find_entry ex_state k' = Some p -> p <> NULL ->
                   find_entry s' k' = Some p /\
                   payload <$> heap s' !! p = payload <$> heap ex_state !! p)).
Proof.
  split; [exact ex_state_no_5|]. split; [exact ex_state_alloc_106|].
  exact (proj1 put_grows_when_loaded Z Z (list del_event) ex_state ex_chains 5 (Some 50)
           true 106 ex_state_rep ex_state_keys (int_lawful _ _ _)
           ex_state_no_5 ex_state_alloc_106).
Defined.

(** C1 (as stated) fails.  From [New(4, ...)], five distinct keys leave
    the capacity at 4, not 8: [5 > 4 * 1.3] does not hold.  And the [Put]
    of a sixth key, which pushes the count to 6, above [4 * 1.3], does
    not rehash either: the capacity is still 4 after it. *)
Lemma five_keys_no_rehash_counterexample :
  (forall s, run_puts 4 spec_puts_6 = Some s ->
             nelem (table s) = 5 /\ tab_size (table s) = 4 /\ tab_size (table s) <> 8) /\
  load_exceeded 5 4 = false /\
  (forall s, run_puts 4 spec_puts_7 = Some s ->
             nelem (table s) = 6 /\ tab_size (table s) = 4 /\
             tab_size (table s) <> 2 * 4) /\
  load_exceeded 6 4 = true /\
  (exists n c, observe (run_puts 4 spec_puts_6) [] = Some (n, c, []) /\ c <> 8).
Proof.
  assert (H6 : observe (run_puts 4 spec_puts_6) [] = Some (5, 4, [])) by (by vm_compute).
  assert (H7 : observe (run_puts 4 spec_puts_7) [] = Some (6, 4, [])) by (by vm_compute).
  split_and!.
  - intros s Hs. rewrite Hs in H6. simpl in H6. injection H6 as -> ->.
    clear Hs H7. by split_and!.
  - by vm_compute.
  - intros s Hs. rewrite Hs in H7. simpl in H7. injection H7 as -> ->.
    clear Hs H6. by split_and!.
  - by vm_compute.
  - exists 5, 4. by split.
Qed.

(** ** Iteration order *)

Section OrderFacts.

Implicit Types (l : list Z) (bs : list (list Z)).

Lemma NoDup_split_unique (a : Z) l1 : forall l2 l1' l2',
  NoDup (l1 ++ a :: l2) -> l1 ++ a :: l2 = l1' ++ a :: l2' -> l1 = l1' /\ l2 = l2'.
Proof.
  induction l1 as [|b l1 IH]; intros l2 l1' l2' Hnd Heq.
  - destruct l1' as [|b' l1']; simpl in *.
    + by injection Heq as ->.
    + injection Heq as <- ->. apply NoDup_cons in Hnd as [Hnin _].
      exfalso. apply Hnin. apply elem_of_app. right. left.
  - destruct l1' as [|b' l1']; simpl in *.
    + injection Heq as -> <-. apply NoDup_cons in Hnd as [Hnin _].
      exfalso. apply Hnin. apply elem_of_app. right. left.
    + injection Heq as <- Heq. apply NoDup_cons in Hnd as [_ Hnd].
      destruct (IH _ _ _ Hnd Heq) as [-> ->]. done.
Qed.

(** After a relinking, a bucket holds the entries whose cached hash
    selects it, in the reverse of the order they were walked in. *)
Lemma relink_abs_reverses (hk : Z -> Z) (new_size : Z) l (j : nat) :
  0 < new_size -> (j < Z.to_nat new_size)%nat ->
  relink_abs hk new_size l !! j
  = Some (rev (filter (fun a => Z.to_nat (hk a mod new_size) = j) l)).
Proof.
  intros Hpos Hj. induction l as [|a l IH] using rev_ind.
  - unfold relink_abs. simpl. by apply lookup_replicate_2.
  - rewrite relink_abs_snoc, filter_app, rev_app_distr. unfold push_abs.
    rewrite filter_cons, filter_nil.
    destruct (decide (Z.to_nat (hk a mod new_size) = j)) as [Heq | Hne].
    + rewrite Heq, list_lookup_alter_eq, IH. done.
    + rewrite list_lookup_alter_ne, IH by done. done.
Qed.

Lemma sublist_reverse l k : l `sublist_of` k -> reverse l `sublist_of` reverse k.
Proof.
  induction 1 as [|x l k _ IH|x l k _ IH]; [done| |].
  - rewrite !reverse_cons. by apply sublist_app.
  - rewrite reverse_cons. by apply sublist_inserts_r.
Qed.

Lemma sublist_filter_mono (P : Z -> Prop) `{!forall x, Decision (P x)} l k :
  l `sublist_of` k -> filter P l `sublist_of` filter P k.
Proof.
  induction 1 as [|x l k _ IH|x l k _ IH]; [done| |].
  - rewrite !filter_cons. destruct (decide (P x)); [by apply sublist_skip|done].
  - rewrite filter_cons. destruct (decide (P x)); [by apply sublist_cons|done].
Qed.

Lemma filter_ne_id (p : Z) l : p ∉ l -> filter (fun a => a <> p) l = l.
Proof.
  induction l as [|a l IH]; [done|]. intros [Hne Hn]%not_elem_of_cons.
  rewrite filter_cons_True by congruence. by rewrite IH.
Qed.

Lemma filter_ne_middle (p : Z) l1 l2 :
  NoDup (l1 ++ p :: l2) -> filter (fun a => a <> p) (l1 ++ p :: l2) = l1 ++ l2.
Proof.
  intros Hnd. apply NoDup_app in Hnd as (_ & Hdis & Hnd).
  apply NoDup_cons in Hnd as [Hn2 _].
  rewrite filter_app, filter_cons_False by (intros H; by apply H).
  rewrite !filter_ne_id; [done | done |].
  intros Hin. apply (Hdis _ Hin). left.
Qed.

Lemma sublist_bucket bs i l : bs !! i = Some l -> l `sublist_of` concat bs.
Proof.
  intros Hl. rewrite (concat_split _ _ _ Hl).
  apply sublist_inserts_l, sublist_inserts_r. done.
Qed.

Lemma comes_before_elem l x y : x ∈ l -> y ∈ l -> x <> y ->
  comes_before l x y \/ comes_before l y x.
Proof.
  unfold comes_before. induction l as [|a l IH]; [by intros ?%elem_of_nil|].
  assert (Hone : forall z, z ∈ l -> [z] `sublist_of` l).
  { intros z (m1 & m2 & ->)%list_elem_of_split.
    apply sublist_inserts_l, sublist_skip, sublist_nil_l. }
  intros [-> | Hx]%elem_of_cons [-> | Hy]%elem_of_cons Hne; [done| | |].
  - left. apply sublist_skip. by apply Hone.
  - right. apply sublist_skip. by apply Hone.
  - destruct (IH Hx Hy Hne) as [H | H]; [left | right]; by apply sublist_cons.
Qed.

Lemma comes_before_asym l x y :
  NoDup l -> comes_before l x y -> comes_before l y x -> False.
Proof.
  unfold comes_before. induction l as [|a l IH]; intros Hnd H1 H2.
  - by apply sublist_nil_r in H1.
  - apply NoDup_cons in Hnd as [Hn Hnd].
    apply sublist_cons_r in H1 as [H1 | (m1 & Hm1 & H1)];
      apply sublist_cons_r in H2 as [H2 | (m2 & Hm2 & H2)].
    + by apply IH.
    + injection Hm2 as -> <-. apply Hn, (sublist_subseteq _ _ H1). right. left.
    + injection Hm1 as -> <-. apply Hn, (sublist_subseteq _ _ H2). right. left.
    + injection Hm1 as -> <-. injection Hm2 as -> _.
      apply Hn, (sublist_subseteq _ _ H1). left.
Qed.

End OrderFacts.

Section IterationClaims.

Context {K V W : Type}.
Implicit Types (s : @state K V W) (bs : list (list Z)).

(** [Next] on an entry answers the entry that follows it in the
    traversal, null after the last one. *)
Lemma next_in_traversal s bs l1 a l2 :
  Rep s bs -> concat bs = l1 ++ a :: l2 ->
  zc_hashtable_next s a = Some (hd NULL l2).
Proof.
  intros HR Heq.
  assert (Hin : a ∈ concat bs). { rewrite Heq. apply elem_of_app. right. left. }
  apply elem_of_concat in Hin as (i & l & Hl & Ha).
  apply list_elem_of_split in Ha as (m1 & m2 & ->).
  rewrite (next_spec s bs i m1 a m2 HR Hl). f_equal. f_equal.
  pose proof (rep_nodup _ _ HR) as Hnd.
  rewrite (concat_split _ _ _ Hl) in Heq, Hnd.
  rewrite <- app_assoc in Heq, Hnd. simpl in Heq, Hnd.
  rewrite (assoc_L (++)) in Heq, Hnd.
  destruct (NoDup_split_unique a _ _ _ _ Hnd Heq) as [_ <-]. done.
Qed.

Lemma begin_spec s bs : Rep s bs -> zc_hashtable_begin s = Some (hd NULL (concat bs)).
Proof.
  intros HR. pose proof (rep_length_Z _ _ HR) as Hlen.
  unfold zc_hashtable_begin. change 0 with (Z.of_nat 0) at 1.
  rewrite (first_head_spec (heap s) _ bs (rep_chains _ _ HR)) by (simpl; lia).
  by rewrite drop_0.
Qed.

End IterationClaims.

Section Recency.

Context {K V W : Type}.
Implicit Types (s : @state K V W) (bs : list (list Z)) (ins : list Z).

(** A [Put] that inserts without a rehash pushes the new entry on the
    head of its chain. *)
Lemma put_insert_no_rehash s bs k v b a s' :
  Rep s bs -> find_entry s k = Some NULL ->
  load_exceeded (nelem (table s)) (tab_size (table s)) = false ->
  alloc_ok (heap s) a ->
  zc_hashtable_put s (Some k) v b a = Some (0, s') ->
  Rep s' (push_abs (bucket_index (table s) k) a bs).
Proof.
  intros HR Hf Hload Ha Hput.
  destruct (put_absent_spec s bs k v b a HR Hf Ha)
    as [(_ & _ & Hput') | (s1 & bs1 & Hstep & Hcases)]; [congruence|].
  destruct Hcases as [[_ Hput'] | (Hnz & s'' & Hput' & Hnew)]; [congruence|].
  rewrite Hput in Hput'. injection Hput' as <-.
  destruct Hstep as [(_ & -> & ->) | (Hload' & _)]; [|congruence].
  destruct Ha as [? | [Hfresh Hrange]]; [done|].
  destruct (put_new_entry_spec s bs k v a HR Hfresh Hrange) as (s'' & Hs'' & HR' & _).
  rewrite Hnew in Hs''. by injection Hs'' as <-.
Qed.

Lemma bucket_index_lt s bs k : Rep s bs -> (bucket_index (table s) k < length bs)%nat.
Proof.
  intros HR. pose proof (rep_length_Z _ _ HR) as Hlen.
  destruct (rep_size _ _ HR) as [Hpos _]. unfold bucket_index.
  pose proof (Z.mod_pos_bound (call_hash (table s) k) (tab_size (table s)) Hpos). lia.
Qed.

(** In a table that no rehash has relinked every chain lists its entries
    newest first: it is a subsequence of the reversed insertion order. *)
Lemma grown_chains s ins :
  grown s ins ->
  exists bs, Rep s bs /\ ins ≡ₚ concat bs /\
             forall i l, bs !! i = Some l -> l `sublist_of` reverse ins.
Proof.
  induction 1 as [a_size hf ef kd vd ta tb t h w Hnew
                 | s ins k v b a s' _ IH Hf Hload Ha Hput
                 | s ins k v b a p s' _ IH Hf Hp Hput
                 | s ins k p s' _ IH Hf Hp Hrem].
  - destruct (new_spec _ _ _ _ _ _ _ _ Hnew) as (_ & _ & _ & _ & _ & _ & _ & HR).
    exists (replicate (Z.to_nat a_size) []). split; [apply HR|]. split.
    + clear HR. induction (Z.to_nat a_size) as [|n IHn]; [done|exact IHn].
    + intros i l [-> _]%lookup_replicate. apply sublist_nil_l.
  - destruct IH as (bs & HR & Hperm & Hsub).
    exists (push_abs (bucket_index (table s) k) a bs).
    split; [by eapply put_insert_no_rehash|]. split.
    + rewrite concat_push_perm by (by apply bucket_index_lt).
      rewrite <- Hperm. symmetry. apply Permutation_cons_append.
    + intros i l Hl. rewrite reverse_snoc. unfold push_abs in Hl.
      destruct (decide (bucket_index (table s) k = i)) as [<- | Hne].
      * rewrite list_lookup_alter_eq in Hl.
        destruct (bs !! bucket_index (table s) k) as [l0|] eqn:Hl0; [|done].
        injection Hl as <-. apply sublist_skip. by eapply Hsub.
      * rewrite list_lookup_alter_ne in Hl by done. apply sublist_cons. by eapply Hsub.
  - destruct IH as (bs & HR & Hperm & Hsub). exists bs. split; [|done].
    pose proof (find_entry_found _ _ _ _ HR Hf Hp) as (Hin & e & He & _).
    destruct (put_update_spec s bs k v p e HR Hin He) as (s'' & Hup & _ & HR').
    rewrite (put_found_eq s k v b a p Hf Hp), Hup in Hput. simpl in Hput.
    by injection Hput as <-.
  - destruct IH as (bs & HR & Hperm & Hsub).
    destruct (remove_found_spec s bs k p HR Hf Hp)
      as (e & s'' & l1 & l2 & _ & Hl & Hrem' & HR' & _).
    rewrite Hrem in Hrem'. injection Hrem' as <-.
    pose proof (rep_nodup _ _ HR) as Hnd.
    exists (<[bucket_index (table s) k := l1 ++ l2]> bs). split; [done|]. split.
    + rewrite Hperm, <- (concat_unlink_perm _ _ _ _ _ Hl).
      rewrite <- (concat_unlink_perm _ _ _ _ _ Hl) in Hnd.
      apply NoDup_cons in Hnd as [Hn _].
      rewrite filter_cons_False by (intros H; by apply H). by rewrite filter_ne_id.
    + intros i l Hl'. rewrite <- filter_reverse.
      destruct (decide (bucket_index (table s) k = i)) as [<- | Hne].
      * rewrite list_lookup_insert_eq in Hl' by (by apply bucket_index_lt).
        injection Hl' as <-.
        rewrite <- (filter_ne_middle p l1 l2) by (by eapply NoDup_concat_bucket).
        apply sublist_filter_mono. by eapply Hsub.
      * rewrite list_lookup_insert_ne in Hl' by done.
        rewrite <- (filter_ne_id p l).
        -- apply sublist_filter_mono. by eapply Hsub.
        -- intros Hin. apply Hne.
           apply (NoDup_concat_inj bs _ _ _ _ p Hnd Hl Hl'); [|done].
           apply elem_of_app. right. left.
Qed.

(** So, of two entries of one bucket, the traversal of such a table
    visits the one inserted later first. *)
Lemma grown_newest_first s ins : grown s ins -> newest_first s ins.
Proof.
  intros (bs & HR & Hperm & Hsub)%grown_chains visited Hit x y Hxy Hb.
  rewrite (iterate_spec s bs HR) in Hit. injection Hit as <-.
  pose proof (rep_nodup _ _ HR) as Hnd.
  assert (Hndi : NoDup ins) by (by rewrite Hperm).
  assert (Hne : x <> y).
  { assert (Hn : NoDup [x; y]) by (eapply sublist_NoDup; [exact Hndi | exact Hxy]).
    apply NoDup_cons in Hn as [Hn _]. intros ->. apply Hn. left. }
  assert (Hbucket : forall z, z ∈ ins -> exists l,
            bs !! Z.to_nat (cached_hash (heap s) z mod tab_size (table s)) = Some l
            /\ z ∈ l).
  { intros z Hz. rewrite Hperm in Hz.
    destruct (rep_entry _ _ _ HR Hz) as [_ [e He]].
    apply elem_of_concat in Hz as (i & l & Hl & Hz). exists l. split; [|done].
    unfold cached_hash. rewrite He.
    rewrite (rep_bucket _ _ HR i l z e Hl Hz He). by rewrite Nat2Z.id. }
  destruct (Hbucket x) as (l & Hl & Hx).
  { apply (sublist_subseteq _ _ Hxy). left. }
  destruct (Hbucket y) as (l' & Hl' & Hy).
  { apply (sublist_subseteq _ _ Hxy). right. left. }
  rewrite Hb, Hl' in Hl. injection Hl as ->.
  destruct (comes_before_elem l y x Hy Hx) as [H | H]; [congruence | |].
  - unfold comes_before in *. etrans; [exact H|]. by eapply sublist_bucket.
  - exfalso. apply (comes_before_asym (reverse ins) x y).
    + by rewrite reverse_Permutation.
    + unfold comes_before in *. etrans; [exact H|]. by eapply Hsub.
    + exact (sublist_reverse [x; y] ins Hxy).
Qed.

End Recency.

(** C7 (as amended): on a well-formed table (of any number of entries)
    [Begin] answers the first entry of the traversal, [Next] on an entry
    answers the one that follows it and null after the last, so the
    iteration visits every entry of the chains exactly once and ends; the
    order is ascending bucket index and, within a bucket, the order of
    the chain from its head.  A [Put] that inserts without a rehash
    pushes the new entry on the head of its chain, so that entry is the
    first of its bucket, and a table that no rehash has relinked is
    visited, within each bucket, most recently inserted entry first; a
    rehash relinks the entries in the order of the old traversal, each
    on the head of its new chain, so a new bucket holds its entries in
    the reverse of the order they were in. *)
Theorem iteration_order {K V W : Type} (s : @state K V W) bs :
  Rep s bs ->
  zc_hashtable_begin s = Some (hd NULL (concat bs)) /\
  (forall l1 a l2, concat bs = l1 ++ a :: l2 ->
                   zc_hashtable_next s a = Some (hd NULL l2)) /\
  iterate s = Some (concat bs) /\
  NoDup (concat bs) /\
  (forall k v b a s',
     find_entry s k = Some NULL ->
     load_exceeded (nelem (table s)) (tab_size (table s)) = false ->
     alloc_ok (heap s) a ->
     zc_hashtable_put s (Some k) v b a = Some (0, s') ->
     iterate s' = Some (concat (push_abs (bucket_index (table s) k) a bs))) /\
  (forall ins, grown s ins -> newest_first s ins) /\
  (forall b s',
     zc_hashtable_rehash s b = Some (0, s') ->
     let new_size := 2 * tab_size (table s) in
     let bs' := relink_abs (cached_hash (heap s)) new_size (concat bs) in
     iterate s' = Some (concat bs') /\
     forall j : nat, (j < Z.to_nat new_size)%nat ->
       bs' !! j = Some (rev (filter (fun a => Z.to_nat (cached_hash (heap s) a mod new_size) = j)
                                    (concat bs)))).
Proof.
  intros HR. split_and!.
  - by apply begin_spec.
  - intros l1 a l2. by apply next_in_traversal.
  - by apply iterate_spec.
  - exact (rep_nodup _ _ HR).
  - intros k v b a s' Hf Hload Ha Hput.
    apply iterate_spec. by eapply put_insert_no_rehash.
  - intros ins. apply grown_newest_first.
  - intros b s' Hre. simpl.
    destruct (rep_size _ _ HR) as [Hpos _].
    destruct (rehash_spec s bs b HR) as [Hfail | (s'' & Hok & HR' & _)]; [congruence|].
    rewrite Hre in Hok. injection Hok as <-. split; [by apply iterate_spec|].
    intros j Hj. apply relink_abs_reverses; [lia | done].
Qed.

Lemma iteration_order_witness :
  Rep ex_state ex_chains /\
  zc_hashtable_begin ex_state = Some (hd NULL (concat ex_chains)) /\
  (forall l1 a l2, concat ex_chains = l1 ++ a :: l2 ->
                   zc_hashtable_next ex_state a = Some (hd NULL l2)) /\
  iterate ex_state = Some (concat ex_chains) /\
  NoDup (concat ex_chains) /\
  (forall k v b a s',
     find_entry ex_state k = Some NULL ->
     load_exceeded (nelem (table ex_state)) (tab_size (table ex_state)) = false ->
     alloc_ok (heap ex_state) a ->
     zc_hashtable_put ex_state (Some k) v b a = Some (0, s') ->
     iterate s' = Some (concat (push_abs (bucket_index (table ex_state) k) a ex_chains))) /\
  (forall ins, grown ex_state ins -> newest_first ex_state ins) /\
  (forall b s',
     zc_hashtable_rehash ex_state b = Some (0, s') ->
     let new_size := 2 * tab_size (table ex_state) in
     let bs' := relink_abs (cached_hash (heap ex_state)) new_size (concat ex_chains) in
     iterate s' = Some (concat bs') /\
     forall j : nat, (j < Z.to_nat new_size)%nat ->
       bs' !! j = Some (rev (filter (fun a => Z.to_nat (cached_hash (heap ex_state) a
                                                        mod new_size) = j)
                                    (concat ex_chains)))).
Proof.
  split; [exact ex_state_rep|].
  exact (iteration_order ex_state ex_chains ex_state_rep).
Defined.

(** The example table is one that no rehash has relinked: it is what
    the [Put]s of the keys 1, 3 and 2 make of a new table of two
    buckets, so its traversal is newest first within a bucket. *)
Example ex_state_grown : grown ex_state [100; 102; 104].
Proof.
  set (s1 := State (int_table 1 [0; 100] 2)
                   (list_to_map [(100, Entry 1 1 (Some 10) 0 0)]) []).
  set (s2 := State (int_table 2 [0; 102] 2)
                   (list_to_map [(100, Entry 1 1 (Some 10) 102 0);
                                 (102, Entry 3 3 (Some 30) 0 100)]) []).
  assert (H0 : grown (int_start 2) []).
  { by apply (grown_new 2 (Some int_hash) (Some Z.eqb) (Some log_key)
                        (Some log_value) true true). }
  assert (H1 : grown s1 ([] ++ [100])).
  { apply (grown_insert _ _ 1 (Some 10) true 100 s1 H0);
      [by vm_compute | by vm_compute | right; by vm_compute | by vm_compute]. }
  assert (H2 : grown s2 ([100] ++ [102])).
  { apply (grown_insert _ _ 3 (Some 30) true 102 s2 H1);
      [by vm_compute | by vm_compute | right; by vm_compute | by vm_compute]. }
  apply (grown_insert _ _ 2 (Some 20) true 104 ex_state H2);
    [by vm_compute | by vm_compute | right; by vm_compute | by vm_compute].
Qed.

Example ex_state_newest_first : newest_first ex_state [100; 102; 104].
Proof. apply grown_newest_first, ex_state_grown. Qed.

(** The traversal of the example table, three entries in two buckets,
    of an empty table, and of a table of one entry. *)
Example iterate_example : iterate ex_state = Some [104; 102; 100].
Proof. by vm_compute. Qed.

Example iterate_empty :
  zc_hashtable_begin (int_start 4) = Some NULL /\ iterate (int_start 4) = Some [].
Proof. by vm_compute. Qed.

Example iterate_one :
  (s ← put_all (int_start 4) [(6, 60, 101)];
   Some (zc_hashtable_begin s, zc_hashtable_next s 101, iterate s))
  = Some (Some 101, Some NULL, Some [101]).
Proof. by vm_compute. Qed.

(** C7 (as stated) fails on the order within a bucket.  The keys 0, 2
    and 4, put in this order into a table of one bucket, are the entries
    101, 102 and 103; the third [Put] rehashes first, which turns the
    chain [102; 101] into [101; 102], and the traversal is then
    [103; 101; 102]: the entry 101 is visited before the entry 102 of
    the same bucket, which was inserted after it. *)
Lemma rehash_reverses_order_counterexample :
  (s ← three_puts; iterate s) = Some [103; 101; 102] /\
  (s ← three_puts; Some (tab_size (table s), tab (table s))) = Some (2, [103; 0]) /\
  forall s, three_puts = Some s -> ~ newest_first s [101; 102; 103].
Proof.
  assert (Hit : (s ← three_puts; iterate s) = Some [103; 101; 102]) by (by vm_compute).
  assert (Hb : (s ← three_puts;
                Some (cached_hash (heap s) 101 mod tab_size (table s),
                      cached_hash (heap s) 102 mod tab_size (table s))) = Some (0, 0))
    by (by vm_compute).
  split; [exact Hit|]. split; [by vm_compute|].
  intros s Hs Hnf. rewrite Hs in Hit, Hb. simpl in Hit, Hb. clear Hs.
  injection Hb as Hb1 Hb2.
  assert (H : comes_before [103; 101; 102] 102 101).
  { apply (Hnf _ Hit 101 102); [|by rewrite Hb1, Hb2].
    apply sublist_skip, sublist_skip, sublist_nil_l. }
  clear Hnf Hit Hb1 Hb2. unfold comes_before in H.
  apply sublist_cons_r in H as [H | (m & Hm & _)]; [|done].
  apply sublist_cons_r in H as [H | (m & Hm & _)]; [|done].
  apply sublist_cons_r in H as [H | (m & Hm & H)].
  - by apply sublist_nil_r in H.
  - injection Hm as <-. by apply sublist_nil_r in H.
Qed.

(** * Further properties of the code *)

(** ** Lookups *)

Section Lookups.

Context {K V W : Type}.
Implicit Types (h : gmap Z (@zc_hashtable_entry_t K V)).
Implicit Types (t : @zc_hashtable_t K V W) (s : @state K V W).
Implicit Types (l : list Z) (bs : list (list Z)).

(** The search answers the first entry that matches, whichever way it
    is described. *)
Lemma found_in_first h t k l1 l2 p e r :
  no_match h t k l1 -> h !! p = Some e -> equal_fn t k (key e) = true ->
  found_in h t k (l1 ++ p :: l2) r -> r = p.
Proof.
  intros Hno He Heq [[-> Hnone] | (n1 & n2 & er & Hl & _ & Her & Heqr & Hno')].
  - rewrite (Hnone p e) in Heq; [done | | done]. apply elem_of_app. right. left.
  - revert n1 Hl Hno Hno'.
    induction l1 as [|x l1 IH]; intros n1 Hl Hno Hno'.
    + destruct n1 as [|y n1]; simpl in Hl; [by injection Hl as ->|].
      injection Hl as -> _. rewrite (Hno' y e) in Heq; [done | left | done].
    + destruct n1 as [|y n1]; simpl in Hl.
      * injection Hl as -> _. rewrite (Hno r er) in Heqr; [done | left | done].
      * injection Hl as -> Hl. apply (IH n1 Hl).
        -- intros a ea Ha. apply Hno. by right.
        -- intros a ea Ha. apply Hno'. by right.
Qed.

Lemma find_entry_first s bs k l1 p l2 e :
  Rep s bs -> bs !! bucket_index (table s) k = Some (l1 ++ p :: l2) ->
  no_match (heap s) (table s) k l1 ->
  heap s !! p = Some e -> equal_fn (table s) k (key e) = true ->
  find_entry s k = Some p.
Proof.
  intros HR Hl Hno He Heq.
  destruct (find_entry_spec s bs k HR) as (l & r & Hl' & Hr & Hfound).
  rewrite Hl in Hl'. injection Hl' as <-. rewrite Hr. f_equal.
  by eapply (found_in_first _ _ _ l1 l2 p e r).
Qed.

Lemma get_of_entry s k p e :
  find_entry s k = Some p -> p <> NULL -> heap s !! p = Some e ->
  zc_hashtable_get s (Some k) = Some (value e).
Proof.
  intros Hf Hnz He. unfold zc_hashtable_get. simpl. rewrite Hf. simpl.
  destruct (Z.eqb_spec p 0); [done|]. by rewrite He.
Qed.

Lemma get_of_null s k :
  find_entry s k = Some NULL -> zc_hashtable_get s (Some k) = Some None.
Proof. intros Hf. unfold zc_hashtable_get. simpl. by rewrite Hf. Qed.

(** Two keys, each looked up in a table of its own, are answered alike
    when the same entries match them, with the same values. *)
Lemma lookup_transfer s bs k s' bs' k' :
  Rep s bs -> KeysRep s bs -> lawful (table s) ->
  Rep s' bs' -> KeysRep s' bs' -> lawful (table s') ->
  (forall a, matches s bs k a ->
             matches s' bs' k' a /\ payload <$> heap s' !! a = payload <$> heap s !! a) ->
  (forall a, matches s' bs' k' a -> matches s bs k a) ->
  zc_hashtable_get_entry s' (Some k') = zc_hashtable_get_entry s (Some k) /\
  zc_hashtable_get s' (Some k') = zc_hashtable_get s (Some k).
Proof.
  intros HR HK HL HR' HK' HL' Hto Hfrom. simpl.
  destruct (find_entry_spec s bs k HR) as (l & p & _ & Hf & _).
  destruct (Z.eq_dec p 0) as [-> | Hnz].
  - assert (Hf' : find_entry s' k' = Some NULL).
    { apply (find_entry_no_match s' bs' k' HR'). intros a Hm.
      exact (find_entry_null s bs k HR HK HL Hf a (Hfrom a Hm)). }
    rewrite Hf, Hf'. by rewrite (get_of_null _ _ Hf), (get_of_null _ _ Hf').
  - pose proof (find_entry_found _ _ _ _ HR Hf Hnz) as Hm.
    destruct (Hto p Hm) as [Hm' Hpay].
    pose proof (find_entry_matches _ _ _ _ HR' HK' HL' Hm') as Hf'.
    rewrite Hf, Hf'. split; [done|].
    destruct Hm as (_ & e & He & _). destruct Hm' as (_ & e' & He' & _).
    rewrite (get_of_entry _ _ _ _ Hf Hnz He), (get_of_entry _ _ _ _ Hf' Hnz He').
    rewrite He, He' in Hpay. simpl in Hpay. unfold payload in Hpay. congruence.
Qed.

End Lookups.

(** ** Facts about the concrete tables *)

Lemma small_state_rep : Rep small_state small_chains.
Proof. apply rep_check_sound. by vm_compute. Qed.

Lemma small_state_reachable : reachable small_state.
Proof.
  set (s1 := State (int_table 1 [0; 100] 2)
                   (list_to_map [(100, Entry 1 1 (Some 10) 0 0)]) []).
  assert (H0 : reachable (int_start 2)).
  { apply (reach_new 2 (Some int_hash) (Some Z.eqb) (Some log_key)
                     (Some log_value) true true); [done | apply int_lawful]. }
  assert (H1 : reachable s1).
  { apply (reach_put (int_start 2) (Some 1) (Some 10) true 100 0 s1 H0);
      [right; by vm_compute | by vm_compute]. }
  apply (reach_put s1 (Some 3) (Some 30) true 102 0 small_state H1);
    [right; by vm_compute | by vm_compute].
Qed.

Lemma ex_state_reachable : reachable ex_state.
Proof.
  apply (reach_put small_state (Some 2) (Some 20) true 104 0 ex_state
           small_state_reachable); [right; by vm_compute | by vm_compute].
Qed.

Lemma digit_lawful n a_tab size kd vd :
  lawful (Table (V := Z) (W := list del_event) n a_tab size digit_hash digit_equal kd vd).
Proof.
  constructor; unfold call_hash, digit_equal, digit_hash; simpl.
  - intros k1 k2 Heq%Z.eqb_eq. by apply Z.eqb_eq.
  - intros k1 k2 k3 H12%Z.eqb_eq H23%Z.eqb_eq. apply Z.eqb_eq. congruence.
  - intros k1 k2 Heq%Z.eqb_eq. by rewrite Heq.
Qed.

Lemma digit_state_rep : Rep digit_state digit_chains.
Proof. apply rep_check_sound. by vm_compute. Qed.

Lemma digit_state_keys : KeysRep digit_state digit_chains.
Proof. apply keys_check_sound. by vm_compute. Qed.


Lemma plain_state_rep : Rep plain_state small_chains.
Proof. apply rep_check_sound. by vm_compute. Qed.

(** X1: a lookup examines one bucket, the one the hash of the key
    selects, and answers the first entry of its chain whose key
    [equal_fn] judges equal to the key, null when the chain has none;
    [Get] answers the value stored in that entry, and null when there is
    no entry.  A key stored with a null value and a key that is absent
    are answered alike. *)
Theorem get_entry_first_match {K V W : Type} (s : @state K V W) bs (k : K) :
  Rep s bs ->
  exists l p,
    bs !! bucket_index (table s) k = Some l /\
    zc_hashtable_get_entry s (Some k) = Some p /\
    ((p = NULL /\ no_match (heap s) (table s) k l /\
      zc_hashtable_get s (Some k) = Some None) \/
     (exists l1 l2 e,
        l = l1 ++ p :: l2 /\ p <> NULL /\ heap s !! p = Some e /\
        equal_fn (table s) k (key e) = true /\
        no_match (heap s) (table s) k l1 /\
        zc_hashtable_get s (Some k) = Some (value e))).
Proof.
  intros HR. destruct (find_entry_spec s bs k HR) as (l & p & Hl & Hf & Hfound).
  exists l, p. split; [done|]. split; [done|].
  destruct Hfound as [[-> Hno] | (l1 & l2 & e & -> & Hnz & He & Heq & Hno)].
  - left. split_and!; [done | done | by apply get_of_null].
  - right. exists l1, l2, e. split_and!; try done. by eapply get_of_entry.
Qed.

Lemma get_entry_first_match_witness :
  Rep ex_state ex_chains /\
  exists l p,
    ex_chains !! bucket_index (table ex_state) 1 = Some l /\
    zc_hashtable_get_entry ex_state (Some 1) = Some p /\
    ((p = NULL /\ no_match (heap ex_state) (table ex_state) 1 l /\
      zc_hashtable_get ex_state (Some 1) = Some None) \/
     (exists l1 l2 e,
        l = l1 ++ p :: l2 /\ p <> NULL /\ heap ex_state !! p = Some e /\
        equal_fn (table ex_state) 1 (key e) = true /\
        no_match (heap ex_state) (table ex_state) 1 l1 /\
        zc_hashtable_get ex_state (Some 1) = Some (value e))).
Proof.
  split; [exact ex_state_rep|].
  exact (get_entry_first_match ex_state ex_chains 1 ex_state_rep).
Defined.

(** The key 1 of the example table is behind the key 3 in bucket 1. *)
Example get_example :
  zc_hashtable_get_entry ex_state (Some 1) = Some 100 /\
  zc_hashtable_get ex_state (Some 1) = Some (Some 10) /\
  zc_hashtable_get ex_state (Some 7) = Some None.
Proof. by vm_compute. Qed.

Section PutLookup.

Context {K V W : Type}.
Implicit Types (s : @state K V W) (bs : list (list Z)).

Lemma put_update_lookup s bs k v p s' :
  Rep s bs -> equal_fn (table s) k k = true ->
  find_entry s k = Some p -> p <> NULL ->
  put_update s k v p = Some s' ->
  find_entry s' k = Some p /\ zc_hashtable_get s' (Some k) = Some v.
Proof.
  intros HR Hrefl Hf Hnz Hup.
  destruct (find_entry_spec s bs k HR) as (l & r & Hl & Hr & Hfound).
  rewrite Hf in Hr. injection Hr as <-.
  destruct Hfound as [[? _] | (l1 & l2 & e & -> & _ & He & Heq & Hno)]; [done|].
  assert (Hin : p ∈ concat bs).
  { apply elem_of_concat. eexists _, _. split; [done|]. apply elem_of_app. right. left. }
  destruct (put_update_spec s bs k v p e HR Hin He) as (s'' & Hup' & Hs'' & HR').
  rewrite Hup in Hup'. injection Hup' as <-.
  assert (He' : heap s' !! p = Some (set_key_value e k v)).
  { rewrite Hs''. simpl. apply lookup_insert_eq. }
  assert (Hf' : find_entry s' k = Some p).
  { apply (find_entry_first s' bs k l1 p l2 (set_key_value e k v) HR'); try done.
    - rewrite Hs''. done.
    - intros a ea Ha Hea. rewrite Hs'' in Hea |- *. simpl in *.
      rewrite lookup_insert_ne in Hea; [by apply (Hno a)|].
      intros ->. pose proof (NoDup_concat_bucket _ _ _ (rep_nodup _ _ HR) Hl) as Hnd.
      apply NoDup_app in Hnd as (_ & Hdis & _). apply (Hdis _ Ha). left.
    - rewrite Hs''. done. }
  split; [done|]. by rewrite (get_of_entry _ _ _ _ Hf' Hnz He').
Qed.

Lemma put_new_entry_lookup s bs k v a s' :
  Rep s bs -> equal_fn (table s) k k = true ->
  heap s !! a = None -> 0 < a < SIZE_MOD ->
  put_new_entry s k v a = Some s' ->
  find_entry s' k = Some a /\ zc_hashtable_get s' (Some k) = Some v.
Proof.
  intros HR Hrefl Hfresh Hrange Hnew.
  destruct (put_new_entry_spec s bs k v a HR Hfresh Hrange)
    as (s'' & Hs'' & HR' & Ht & _ & (e & He & Hpay) & _).
  rewrite Hnew in Hs''. injection Hs'' as <-.
  unfold payload in Hpay. injection Hpay as Hhk Hkk Hvv.
  pose proof (bucket_index_lt s bs k HR) as Hlt.
  destruct (lookup_lt_is_Some_2 bs _ Hlt) as [l0 Hl0].
  assert (Hidx : bucket_index (table s') k = bucket_index (table s) k).
  { unfold bucket_index, call_hash. by rewrite Ht. }
  assert (Hf' : find_entry s' k = Some a).
  { apply (find_entry_first s' _ k [] a l0 e HR'); try done.
    - rewrite Hidx. unfold push_abs. by rewrite list_lookup_alter_eq, Hl0.
    - intros x ex Hx. by apply elem_of_nil in Hx.
    - rewrite Hkk, Ht. done. }
  split; [done|].
  rewrite (get_of_entry _ _ _ _ Hf' ltac:(lia) He). by rewrite Hvv.
Qed.

End PutLookup.

(** X2: what [Put] stores, [Get] answers.  On a well-formed table, for a
    key that [equal_fn] judges equal to itself, [Put] returns 0 or -1;
    when it returns 0 (whether it updated an entry or inserted one, with
    or without a rehash) a lookup of the key finds an entry, and [Get]
    answers the value that was put, null when that value is null. *)
Theorem get_after_put {K V W : Type} (s : @state K V W) bs
    (k : K) (v : option V) (tab_alloc : bool) (entry_alloc : Z) :
  Rep s bs -> equal_fn (table s) k k = true -> alloc_ok (heap s) entry_alloc ->
  exists rc s',
    zc_hashtable_put s (Some k) v tab_alloc entry_alloc = Some (rc, s') /\
    (rc = 0 \/ rc = -1) /\
    (rc = 0 ->
     (exists p, zc_hashtable_get_entry s' (Some k) = Some p /\ p <> NULL) /\
     zc_hashtable_get s' (Some k) = Some v).
Proof.
  intros HR Hrefl Ha.
  destruct (find_entry_spec s bs k HR) as (l & p & Hl & Hf & Hfound).
  destruct (Z.eq_dec p 0) as [-> | Hnz].
  - destruct (put_absent_spec s bs k v tab_alloc entry_alloc HR Hf Ha)
      as [(_ & _ & Hput) | (s1 & bs1 & Hstep & Hcases)].
    + exists (-1), s. split; [done|]. split; [by right | done].
    + destruct Hcases as [[-> Hput] | (Hnz & s' & Hput & Hnew)].
      * exists (-1), s1. split; [done|]. split; [by right | done].
      * exists 0, s'. split; [done|]. split; [by left|]. intros _.
        destruct (rehash_step_facts _ _ _ _ _ HR Hstep) as (HR1 & Ht1 & _ & _ & Hpay & _).
        destruct Ha as [? | [Hfresh Hrange]]; [done|].
        assert (Hfresh1 : heap s1 !! entry_alloc = None).
        { specialize (Hpay entry_alloc). rewrite Hfresh in Hpay. simpl in Hpay.
          by destruct (heap s1 !! entry_alloc). }
        assert (Hrefl1 : equal_fn (table s1) k k = true) by (by rewrite Ht1).
        destruct (put_new_entry_lookup s1 bs1 k v entry_alloc s' HR1 Hrefl1
                    Hfresh1 Hrange Hnew) as [Hf' Hget].
        split; [|done]. by exists entry_alloc.
  - pose proof (find_entry_found _ _ _ _ HR Hf Hnz) as (Hin & e & He & _).
    destruct (put_update_spec s bs k v p e HR Hin He) as (s' & Hup & _ & _).
    exists 0, s'. split.
    { rewrite (put_found_eq _ _ _ _ _ _ Hf Hnz), Hup. done. }
    split; [by left|]. intros _.
    destruct (put_update_lookup s bs k v p s' HR Hrefl Hf Hnz Hup) as [Hf' Hget].
    split; [|done]. by exists p.
Qed.

Lemma get_after_put_witness :
  Rep ex_state ex_chains /\ alloc_ok (heap ex_state) 106 /\
  exists rc s',
    zc_hashtable_put ex_state (Some 5) None true 106 = Some (rc, s') /\
    (rc = 0 \/ rc = -1) /\
    (rc = 0 ->
     (exists p, zc_hashtable_get_entry s' (Some 5) = Some p /\ p <> NULL) /\
     zc_hashtable_get s' (Some 5) = Some None).
Proof.
  split; [exact ex_state_rep|]. split; [exact ex_state_alloc_106|].
  exact (get_after_put ex_state ex_chains 5 None true 106 ex_state_rep
           (Z.eqb_refl 5) ex_state_alloc_106).
Defined.

(** ** Lookups across the operations *)

Section OtherKeys.

Context {K V W : Type}.
Implicit Types (s : @state K V W) (bs : list (list Z)).

Lemma matches_equal_keys s bs k1 k2 a :
  lawful (table s) -> equal_fn (table s) k1 k2 = true ->
  matches s bs k1 a <-> matches s bs k2 a.
Proof.
  intros HL H12. split; intros (Hin & e & He & Heq); (split; [done|]); exists e;
    (split; [done|]).
  - exact (equal_trans _ HL _ _ _ (equal_sym _ HL _ _ H12) Heq).
  - exact (equal_trans _ HL _ _ _ H12 Heq).
Qed.

(** A key that is not judged equal to [k] matches no entry whose key is
    judged equal to [k]. *)
Lemma other_key_no_match s k k' ke :
  lawful (table s) -> equal_fn (table s) k' k = false ->
  equal_fn (table s) k ke = true -> equal_fn (table s) k' ke = false.
Proof.
  intros HL Hne Heq. destruct (equal_fn (table s) k' ke) eqn:H'; [|done].
  rewrite <- Hne. symmetry.
  exact (equal_trans _ HL _ _ _ H' (equal_sym _ HL _ _ Heq)).
Qed.

Lemma rehash_keys s bs b s1 :
  Rep s bs -> KeysRep s bs -> lawful (table s) ->
  zc_hashtable_rehash s b = Some (0, s1) ->
  exists bs1, Rep s1 bs1 /\ KeysRep s1 bs1 /\ lawful (table s1) /\
    nelem (table s1) = nelem (table s) /\
    forall k,
      zc_hashtable_get_entry s1 (Some k) = zc_hashtable_get_entry s (Some k) /\
      zc_hashtable_get s1 (Some k) = zc_hashtable_get s (Some k).
Proof.
  intros HR HK HL Hre.
  destruct (rehash_spec s bs b HR) as [Hfail | (s' & Hok & HR1 & Ht & _ & Hpay & _)];
    [congruence|].
  rewrite Hre in Hok. injection Hok as <-.
  destruct (rep_size _ _ HR) as [Hpos _].
  pose proof (relink_abs_perm (cached_hash (heap s)) (2 * tab_size (table s))
                ltac:(lia) (concat bs)) as Hperm.
  assert (Hhf : hash_fn (table s1) = hash_fn (table s)) by (by rewrite Ht).
  assert (Hef : equal_fn (table s1) = equal_fn (table s)) by (by rewrite Ht).
  set (bs1 := relink_abs (cached_hash (heap s)) (2 * tab_size (table s)) (concat bs))
    in *.
  assert (HK1 : KeysRep s1 bs1).
  { apply (keys_rep_transfer s s1 bs); try done. intros a Ha. by rewrite <- Hperm. }
  assert (HL1 : lawful (table s1)) by (by apply (lawful_transfer (table s))).
  exists bs1. split; [exact HR1|]. split; [exact HK1|]. split; [exact HL1|].
  split; [by rewrite Ht|].
  intros k. apply (lookup_transfer s bs k s1 bs1 k); try done.
  - intros a Hm. split; [|done].
    apply (matches_transfer s s1 bs bs1 k a); try done. rewrite Hperm. by destruct Hm.
  - intros a Hm. apply (matches_transfer s1 s bs1 bs k a); try done.
    rewrite <- Hperm. by destruct Hm.
Qed.

Lemma rehash_step_lookups s bs b s1 bs1 :
  Rep s bs -> KeysRep s bs -> lawful (table s) -> rehash_step s bs b s1 bs1 ->
  forall k,
    zc_hashtable_get_entry s1 (Some k) = zc_hashtable_get_entry s (Some k) /\
    zc_hashtable_get s1 (Some k) = zc_hashtable_get s (Some k).
Proof.
  intros HR HK HL [(_ & -> & ->) | (_ & Hre & _)] k; [done|].
  destruct (rehash_keys s bs b s1 HR HK HL Hre) as (_ & _ & _ & _ & _ & Hlook).
  apply Hlook.
Qed.

Lemma put_update_other s bs k v p e k' :
  Rep s bs -> KeysRep s bs -> lawful (table s) ->
  find_entry s k = Some p -> p <> NULL -> heap s !! p = Some e ->
  equal_fn (table s) k' k = false ->
  let s' := State (table s) (<[p := set_key_value e k v]> (heap s))
                  (call_del (value_del_fn (table s)) (value e)
                     (call_del (key_del_fn (table s)) (key e) (world s))) in
  zc_hashtable_get_entry s' (Some k') = zc_hashtable_get_entry s (Some k') /\
  zc_hashtable_get s' (Some k') = zc_hashtable_get s (Some k').
Proof.
  intros HR HK HL Hf Hnz He Hne s'.
  pose proof (find_entry_found _ _ _ _ HR Hf Hnz) as (Hin & e0 & He0 & Heq).
  rewrite He in He0. injection He0 as <-.
  destruct (put_update_spec s bs k v p e HR Hin He) as (s'' & _ & Hs'' & HR').
  fold s' in Hs''. subst s''.
  pose proof (keys_rep_update s bs k v p e HK HL Hin He Heq) as HK'. fold s' in HK'.
  pose proof (other_key_no_match s k k' (key e) HL Hne Heq) as Hno.
  apply (lookup_transfer s bs k' s' bs k'); try done.
  - intros a (Ha & ea & Hea & Heqa).
    assert (Hap : p <> a). { intros <-. rewrite He in Hea. injection Hea as <-. congruence. }
    unfold s'. simpl. rewrite lookup_insert_ne by done. split; [|done].
    split; [done|]. exists ea. simpl. by rewrite lookup_insert_ne.
  - intros a (Ha & ea & Hea & Heqa). unfold s' in Hea, Heqa. simpl in Hea, Heqa.
    destruct (decide (p = a)) as [<- | Hap].
    + rewrite lookup_insert_eq in Hea. injection Hea as <-. simpl in Heqa. congruence.
    + rewrite lookup_insert_ne in Hea by done. split; [done|]. by exists ea.
Qed.

Lemma put_new_entry_other s bs k v a s' k' :
  Rep s bs -> KeysRep s bs -> lawful (table s) ->
  find_entry s k = Some NULL ->
  heap s !! a = None -> 0 < a < SIZE_MOD ->
  put_new_entry s k v a = Some s' ->
  equal_fn (table s) k' k = false ->
  zc_hashtable_get_entry s' (Some k') = zc_hashtable_get_entry s (Some k') /\
  zc_hashtable_get s' (Some k') = zc_hashtable_get s (Some k').
Proof.
  intros HR HK HL Hf Hfresh Hrange Hnew Hne.
  pose proof (find_entry_null s bs k HR HK HL Hf) as Hno.
  destruct (put_new_entry_spec s bs k v a HR Hfresh Hrange)
    as (s'' & Hs'' & HR' & Ht & _ & (e & He & Hpaya) & Hpay & _).
  rewrite Hnew in Hs''. injection Hs'' as <-.
  destruct (put_new_entry_keys s bs k v a s' HR HK HL Hno Hfresh Hrange Hnew)
    as (HK' & Hm').
  assert (HL' : lawful (table s')).
  { apply (lawful_transfer (table s)); [by rewrite Ht | by rewrite Ht | done]. }
  assert (Hperm : concat (push_abs (bucket_index (table s) k) a bs) ≡ₚ a :: concat bs).
  { apply concat_push_perm. by apply bucket_index_lt. }
  unfold payload in Hpaya. injection Hpaya as _ Hkk _.
  apply (lookup_transfer s bs k' s' (push_abs (bucket_index (table s) k) a bs) k');
    try done.
  - intros x Hm. split; [by apply Hm'|]. apply Hpay. intros ->.
    destruct Hm as (_ & ex & Hex & _). congruence.
  - intros x (Hx & ex & Hex & Heqx). rewrite Hperm in Hx.
    assert (Hef : equal_fn (table s') = equal_fn (table s)) by (by rewrite Ht).
    rewrite Hef in Heqx.
    apply elem_of_cons in Hx as [-> | Hx].
    + rewrite He in Hex. injection Hex as <-. congruence.
    + assert (Hxa : x <> a).
      { intros ->. destruct (rep_entry _ _ _ HR Hx) as [_ [? ?]]. congruence. }
      destruct (payload_eq_Some _ _ _ _ (Hpay x Hxa) Hex) as (e0 & He0 & _ & Hk0 & _).
      split; [done|]. exists e0. split; [done|]. by rewrite Hk0.
Qed.

Lemma remove_other s bs k p k' :
  Rep s bs -> KeysRep s bs -> lawful (table s) ->
  find_entry s k = Some p -> p <> NULL ->
  equal_fn (table s) k' k = false ->
  exists s', zc_hashtable_remove s (Some k) = Some s' /\
    tab_size (table s') = tab_size (table s) /\
    zc_hashtable_get_entry s' (Some k') = zc_hashtable_get_entry s (Some k') /\
    zc_hashtable_get s' (Some k') = zc_hashtable_get s (Some k').
Proof.
  intros HR HK HL Hf Hnz Hne.
  pose proof (find_entry_found _ _ _ _ HR Hf Hnz) as Hm.
  destruct (remove_found_spec s bs k p HR Hf Hnz)
    as (e & s' & l1 & l2 & He & Hl & Hrem & HR' & Ht & _ & Hh).
  destruct (remove_found_keys s bs k p e s' l1 l2 HR HK HL Hm He Hl HR' Ht Hh)
    as [HK' _].
  assert (HL' : lawful (table s')).
  { apply (lawful_transfer (table s)); [by rewrite Ht | by rewrite Ht | done]. }
  assert (Hef : equal_fn (table s') = equal_fn (table s)) by (by rewrite Ht).
  pose proof (concat_unlink_perm _ _ _ _ _ Hl) as Hperm.
  assert (Hnd : NoDup (p :: concat (<[bucket_index (table s) k := l1 ++ l2]> bs))).
  { rewrite Hperm. exact (rep_nodup _ _ HR). }
  apply NoDup_cons in Hnd as [Hpnin _].
  destruct Hm as (_ & e0 & He0 & Heq). rewrite He in He0. injection He0 as <-.
  pose proof (other_key_no_match s k k' (key e) HL Hne Heq) as Hno.
  exists s'. split; [done|]. split; [by rewrite Ht|].
  apply (lookup_transfer s bs k' s' (<[bucket_index (table s) k := l1 ++ l2]> bs) k');
    try done.
  - intros x (Hx & ex & Hex & Heqx).
    assert (Hxp : x <> p). { intros ->. rewrite He in Hex. injection Hex as <-. congruence. }
    assert (Hpay : payload <$> heap s' !! x = payload <$> heap s !! x).
    { rewrite Hh. by apply unlink_heap_payload. }
    split; [|done].
    apply (matches_transfer s s' bs (<[bucket_index (table s) k := l1 ++ l2]> bs) k' x);
      try done.
    + rewrite <- Hperm in Hx. by apply elem_of_cons in Hx as [? | ?].
    + split; [done | by exists ex].
  - intros x Hm'. pose proof Hm' as [Hx _].
    assert (Hxp : x <> p) by (by intros ->).
    apply (matches_transfer s' s (<[bucket_index (table s) k := l1 ++ l2]> bs) bs k' x);
      try done.
    + rewrite <- Hperm. by right.
    + rewrite Hh. symmetry. by apply unlink_heap_payload.
Qed.

(** A key that is judged equal to [k] is looked up to what was put
    for [k]. *)
Lemma put_update_same s bs k v p e k' :
  Rep s bs -> KeysRep s bs -> lawful (table s) ->
  find_entry s k = Some p -> p <> NULL -> heap s !! p = Some e ->
  equal_fn (table s) k' k = true ->
  let s' := State (table s) (<[p := set_key_value e k v]> (heap s))
                  (call_del (value_del_fn (table s)) (value e)
                     (call_del (key_del_fn (table s)) (key e) (world s))) in
  zc_hashtable_get_entry s' (Some k') = Some p /\
  zc_hashtable_get s' (Some k') = Some v.
Proof.
  intros HR HK HL Hf Hnz He Heq' s'.
  pose proof (find_entry_found _ _ _ _ HR Hf Hnz) as (Hin & e0 & He0 & Heq).
  rewrite He in He0. injection He0 as <-.
  destruct (put_update_spec s bs k v p e HR Hin He) as (s'' & _ & Hs'' & HR').
  fold s' in Hs''. subst s''.
  pose proof (keys_rep_update s bs k v p e HK HL Hin He Heq) as HK'. fold s' in HK'.
  assert (He' : heap s' !! p = Some (set_key_value e k v)) by apply lookup_insert_eq.
  assert (Hf' : find_entry s' k' = Some p).
  { apply (find_entry_matches s' bs k' p HR' HK' HL). split; [done|]. by eexists. }
  split; [done|]. by rewrite (get_of_entry _ _ _ _ Hf' Hnz He').
Qed.

Lemma put_new_entry_same s bs k v a s' k' :
  Rep s bs -> KeysRep s bs -> lawful (table s) ->
  find_entry s k = Some NULL ->
  heap s !! a = None -> 0 < a < SIZE_MOD ->
  put_new_entry s k v a = Some s' ->
  equal_fn (table s) k' k = true ->
  zc_hashtable_get_entry s' (Some k') = Some a /\
  zc_hashtable_get s' (Some k') = Some v.
Proof.
  intros HR HK HL Hf Hfresh Hrange Hnew Heq'.
  pose proof (find_entry_null s bs k HR HK HL Hf) as Hno.
  destruct (put_new_entry_spec s bs k v a HR Hfresh Hrange)
    as (s'' & Hs'' & HR' & Ht & _ & (e & He & Hpaya) & _).
  rewrite Hnew in Hs''. injection Hs'' as <-.
  destruct (put_new_entry_keys s bs k v a s' HR HK HL Hno Hfresh Hrange Hnew)
    as (HK' & _).
  assert (HL' : lawful (table s')).
  { apply (lawful_transfer (table s)); [by rewrite Ht | by rewrite Ht | done]. }
  unfold payload in Hpaya. injection Hpaya as _ Hkk Hvv.
  assert (Hf' : find_entry s' k' = Some a).
  { apply (find_entry_matches s' _ k' a HR' HK' HL'). split.
    - rewrite (concat_push_perm bs _ a (bucket_index_lt s bs k HR)). left.
    - exists e. split; [done|]. by rewrite Hkk, Ht. }
  split; [done|]. rewrite (get_of_entry _ _ _ _ Hf' ltac:(lia) He). by rewrite Hvv.
Qed.

(** A key that is judged equal to [k] has no entry when [k] has been
    removed. *)
Lemma remove_same s bs k s' k' :
  Rep s bs -> KeysRep s bs -> lawful (table s) ->
  zc_hashtable_remove s (Some k) = Some s' ->
  equal_fn (table s) k' k = true ->
  zc_hashtable_get_entry s' (Some k') = Some NULL /\
  zc_hashtable_get s' (Some k') = Some None.
Proof.
  intros HR HK HL Hrem Heq'.
  assert (Hf' : find_entry s' k' = Some NULL); [|by split; [|apply get_of_null]].
  destruct (find_entry_spec s bs k HR) as (l & p & Hl & Hf & Hfound).
  destruct (Z.eq_dec p 0) as [-> | Hnz].
  - rewrite (remove_absent_spec s bs k HR (or_introl Hf)) in Hrem. injection Hrem as <-.
    apply (find_entry_no_match s bs k' HR). intros x Hm.
    apply (find_entry_null s bs k HR HK HL Hf x).
    by apply (matches_equal_keys s bs k' k x HL Heq').
  - pose proof (find_entry_found _ _ _ _ HR Hf Hnz) as Hm.
    destruct (remove_found_spec s bs k p HR Hf Hnz)
      as (e & s'' & l1 & l2 & He & Hl' & Hrem' & HR' & Ht & _ & Hh).
    rewrite Hrem in Hrem'. injection Hrem' as <-.
    pose proof (concat_unlink_perm _ _ _ _ _ Hl') as Hperm.
    assert (Hnd : NoDup (p :: concat (<[bucket_index (table s) k := l1 ++ l2]> bs))).
    { rewrite Hperm. exact (rep_nodup _ _ HR). }
    apply NoDup_cons in Hnd as [Hpnin _].
    apply (find_entry_no_match s' _ k' HR'). intros x Hm'.
    pose proof Hm' as [Hx _]. assert (Hxp : x <> p) by (by intros ->).
    apply Hxp. apply (matches_unique s bs k x p HK HL); [|done].
    apply (matches_equal_keys s bs k' k x HL Heq').
    apply (matches_transfer s' s (<[bucket_index (table s) k := l1 ++ l2]> bs) bs k' x);
      try done.
    + by rewrite Ht.
    + rewrite <- Hperm. by right.
    + rewrite Hh. symmetry. by apply unlink_heap_payload.
Qed.

End OtherKeys.

(** X3: [Put] acts on the table as on a finite map.  On a well-formed
    table with lawful strategy functions and well-kept keys [Put]
    returns; when it succeeds, every key judged equal to [k] is looked
    up to the value that was put; and whatever it did (update,
    insertion, rehash, failure) every key that is not judged equal to
    [k] is looked up to the same entry and the same value as before.
    When the [Put] fails, this holds for every key. *)
Theorem put_keeps_other_lookups {K V W : Type} (s : @state K V W) bs
    (k : K) (v : option V) (tab_alloc : bool) (entry_alloc : Z) :
  Rep s bs -> KeysRep s bs -> lawful (table s) -> alloc_ok (heap s) entry_alloc ->
  exists rc s',
    zc_hashtable_put s (Some k) v tab_alloc entry_alloc = Some (rc, s') /\
    forall k',
      (rc = 0 -> equal_fn (table s) k' k = true ->
       zc_hashtable_get s' (Some k') = Some v) /\
      (equal_fn (table s) k' k = false \/ rc <> 0 ->
       zc_hashtable_get_entry s' (Some k') = zc_hashtable_get_entry s (Some k') /\
       zc_hashtable_get s' (Some k') = zc_hashtable_get s (Some k')).
Proof.
  intros HR HK HL Ha.
  destruct (find_entry_spec s bs k HR) as (l & p & Hl & Hf & Hfound).
  destruct (Z.eq_dec p 0) as [-> | Hnz].
  - destruct (put_absent_spec s bs k v tab_alloc entry_alloc HR Hf Ha)
      as [(_ & _ & Hput) | (s1 & bs1 & Hstep & Hcases)].
    + by exists (-1), s.
    + pose proof (rehash_step_lookups s bs tab_alloc s1 bs1 HR HK HL Hstep) as Hlook.
      destruct Hcases as [[-> Hput] | (Hnz & s' & Hput & Hnew)].
      * exists (-1), s1. split; [done|]. intros k'. split; [done|]. intros _. apply Hlook.
      * exists 0, s'. split; [done|]. intros k'.
        destruct (rehash_step_facts _ _ _ _ _ HR Hstep) as (HR1 & Ht1 & _ & _ & Hpay & _).
        destruct (rehash_step_keys _ _ _ _ _ HR HK Hstep) as (HK1 & Hhf1 & Hef1 & _).
        pose proof (lawful_transfer _ _ Hhf1 Hef1 HL) as HL1.
        destruct Ha as [? | [Hfresh Hrange]]; [done|].
        assert (Hfresh1 : heap s1 !! entry_alloc = None).
        { specialize (Hpay entry_alloc). rewrite Hfresh in Hpay. simpl in Hpay.
          by destruct (heap s1 !! entry_alloc). }
        assert (Hf1 : find_entry s1 k = Some NULL).
        { destruct (Hlook k) as [Hge _]. simpl in Hge. by rewrite Hge. }
        split.
        -- intros _ Heq. assert (Heq1 : equal_fn (table s1) k' k = true) by (by rewrite Hef1).
           by destruct (put_new_entry_same s1 bs1 k v entry_alloc s' k' HR1 HK1 HL1 Hf1
                          Hfresh1 Hrange Hnew Heq1).
        -- intros [Hne | ?]; [|done].
           assert (Hne1 : equal_fn (table s1) k' k = false) by (by rewrite Hef1).
           destruct (put_new_entry_other s1 bs1 k v entry_alloc s' k' HR1 HK1 HL1 Hf1
                       Hfresh1 Hrange Hnew Hne1) as [Hge Hget].
           destruct (Hlook k') as [Hge1 Hget1].
           split; [by rewrite Hge | by rewrite Hget].
  - pose proof (find_entry_found _ _ _ _ HR Hf Hnz) as (Hin & e & He & _).
    destruct (put_update_spec s bs k v p e HR Hin He) as (s' & Hup & Hs' & _).
    exists 0, s'. split.
    { rewrite (put_found_eq _ _ _ _ _ _ Hf Hnz), Hup. done. }
    intros k'. rewrite Hs'. split.
    + intros _ Heq. by destruct (put_update_same s bs k v p e k' HR HK HL Hf Hnz He Heq).
    + intros [Hne | ?]; [|done]. by apply (put_update_other s bs k v p e k').
Qed.

Lemma put_keeps_other_lookups_witness :
  Rep digit_state digit_chains /\ KeysRep digit_state digit_chains /\
  lawful (table digit_state) /\ alloc_ok (heap digit_state) 106 /\
  exists rc s',
    zc_hashtable_put digit_state (Some 23) (Some 50) true 106 = Some (rc, s') /\
    forall k',
      (rc = 0 -> equal_fn (table digit_state) k' 23 = true ->
       zc_hashtable_get s' (Some k') = Some (Some 50)) /\
      (equal_fn (table digit_state) k' 23 = false \/ rc <> 0 ->
       zc_hashtable_get_entry s' (Some k') = zc_hashtable_get_entry digit_state (Some k') /\
       zc_hashtable_get s' (Some k') = zc_hashtable_get digit_state (Some k')).
Proof.
  assert (Ha : alloc_ok (heap digit_state) 106) by (right; by vm_compute).
  split; [exact digit_state_rep|]. split; [exact digit_state_keys|].
  split; [apply digit_lawful|]. split; [exact Ha|].
  exact (put_keeps_other_lookups digit_state digit_chains 23 (Some 50) true 106
           digit_state_rep digit_state_keys (digit_lawful _ _ _ _ _) Ha).
Defined.

(** X4: [Remove] acts on the table as on a finite map.  On a
    well-formed table with lawful strategy functions and well-kept keys
    [Remove] returns and the capacity is as before; afterwards every key
    judged equal to [k] has no entry, and every key that is not judged
    equal to [k] is looked up to the same entry and the same value as
    before. *)
Theorem remove_keeps_other_lookups {K V W : Type} (s : @state K V W) bs (k : K) :
  Rep s bs -> KeysRep s bs -> lawful (table s) ->
  exists s',
    zc_hashtable_remove s (Some k) = Some s' /\
    tab_size (table s') = tab_size (table s) /\
    forall k',
      (equal_fn (table s) k' k = true ->
       zc_hashtable_get_entry s' (Some k') = Some NULL /\
       zc_hashtable_get s' (Some k') = Some None) /\
      (equal_fn (table s) k' k = false ->
       zc_hashtable_get_entry s' (Some k') = zc_hashtable_get_entry s (Some k') /\
       zc_hashtable_get s' (Some k') = zc_hashtable_get s (Some k')).
Proof.
  intros HR HK HL.
  destruct (remove_preserves_rep s bs (Some k) HR) as (s' & _ & Hrem & _).
  exists s'. split; [done|].
  destruct (find_entry_spec s bs k HR) as (l & p & Hl & Hf & Hfound).
  destruct (Z.eq_dec p 0) as [-> | Hnz].
  - assert (s' = s) as ->.
    { rewrite (remove_absent_spec s bs k HR (or_introl Hf)) in Hrem. congruence. }
    split; [done|]. intros k'. split; [|done].
    intros Heq. by apply (remove_same s bs k s k').
  - destruct (remove_found_spec s bs k p HR Hf Hnz)
      as (e' & s'' & l1' & l2' & _ & _ & Hrem' & _ & Ht & _).
    rewrite Hrem in Hrem'. injection Hrem' as <-.
    split; [by rewrite Ht|]. intros k'. split.
    + intros Heq. by apply (remove_same s bs k s' k').
    + intros Hne.
      destruct (remove_other s bs k p k' HR HK HL Hf Hnz Hne) as (s'' & Hrem' & _ & Hlook).
      rewrite Hrem in Hrem'. by injection Hrem' as <-.
Qed.

Lemma remove_keeps_other_lookups_witness :
  Rep digit_state digit_chains /\ KeysRep digit_state digit_chains /\
  lawful (table digit_state) /\
  exists s',
    zc_hashtable_remove digit_state (Some 23) = Some s' /\
    tab_size (table s') = tab_size (table digit_state) /\
    forall k',
      (equal_fn (table digit_state) k' 23 = true ->
       zc_hashtable_get_entry s' (Some k') = Some NULL /\
       zc_hashtable_get s' (Some k') = Some None) /\
      (equal_fn (table digit_state) k' 23 = false ->
       zc_hashtable_get_entry s' (Some k') = zc_hashtable_get_entry digit_state (Some k') /\
       zc_hashtable_get s' (Some k') = zc_hashtable_get digit_state (Some k')).
Proof.
  split; [exact digit_state_rep|]. split; [exact digit_state_keys|].
  split; [apply digit_lawful|].
  exact (remove_keeps_other_lookups digit_state digit_chains 23 digit_state_rep
           digit_state_keys (digit_lawful _ _ _ _ _)).
Defined.

(** X5: keys that [equal_fn] judges equal are interchangeable.  On a
    well-formed table with lawful strategy functions and well-kept keys,
    two keys judged equal are looked up to the same entry and the same
    value, whatever objects they are. *)
Theorem equal_keys_same_lookup {K V W : Type} (s : @state K V W) bs (k1 k2 : K) :
  Rep s bs -> KeysRep s bs -> lawful (table s) ->
  equal_fn (table s) k1 k2 = true ->
  zc_hashtable_get_entry s (Some k1) = zc_hashtable_get_entry s (Some k2) /\
  zc_hashtable_get s (Some k1) = zc_hashtable_get s (Some k2).
Proof.
  intros HR HK HL Heq.
  apply (lookup_transfer s bs k2 s bs k1); try done.
  - intros a Hm. split; [|done]. by apply (matches_equal_keys s bs k1 k2 a HL Heq).
  - intros a Hm. by apply (matches_equal_keys s bs k1 k2 a HL Heq).
Qed.

(** X6: a rehash is invisible to lookups.  On a well-formed table with
    lawful strategy functions and well-kept keys the rehash returns 0 or
    -1; the count is as before, no destructor is called, the state is
    untouched when it fails, and every key is looked up to the same
    entry and the same value as before, although the entries have moved
    to other chains. *)
Theorem rehash_keeps_lookups {K V W : Type} (s : @state K V W) bs (tab_alloc : bool) :
  Rep s bs -> KeysRep s bs -> lawful (table s) ->
  exists rc s',
    zc_hashtable_rehash s tab_alloc = Some (rc, s') /\
    (rc = 0 \/ rc = -1) /\
    (rc = -1 -> s' = s) /\
    nelem (table s') = nelem (table s) /\
    world s' = world s /\
    forall k,
      zc_hashtable_get_entry s' (Some k) = zc_hashtable_get_entry s (Some k) /\
      zc_hashtable_get s' (Some k) = zc_hashtable_get s (Some k).
Proof.
  intros HR HK HL.
  destruct (rehash_spec s bs tab_alloc HR) as [Hfail | (s' & Hok & _ & _ & Hw & _)].
  - exists (-1), s. split_and!; try done. by right.
  - destruct (rehash_keys s bs tab_alloc s' HR HK HL Hok) as (_ & _ & _ & _ & Hn & Hlook).
    exists 0, s'. split_and!; try done. by left.
Qed.

Lemma rehash_keeps_lookups_witness :
  Rep ex_state ex_chains /\ KeysRep ex_state ex_chains /\ lawful (table ex_state) /\
  exists rc s',
    zc_hashtable_rehash ex_state true = Some (rc, s') /\
    (rc = 0 \/ rc = -1) /\
    (rc = -1 -> s' = ex_state) /\
    nelem (table s') = nelem (table ex_state) /\
    world s' = world ex_state /\
    forall k,
      zc_hashtable_get_entry s' (Some k) = zc_hashtable_get_entry ex_state (Some k) /\
      zc_hashtable_get s' (Some k) = zc_hashtable_get ex_state (Some k).
Proof.
  split; [exact ex_state_rep|]. split; [exact ex_state_keys|].
  split; [exact (int_lawful 3 [104; 102] 2)|].
  exact (rehash_keeps_lookups ex_state ex_chains true ex_state_rep
           ex_state_keys (int_lawful 3 [104; 102] 2)).
Defined.

(** ** Empty tables, [Clean] and destruction *)

Section Empty.

Context {K V W : Type}.
Implicit Types (h : gmap Z (@zc_hashtable_entry_t K V)).
Implicit Types (s : @state K V W) (bs : list (list Z)).

(** A table with no entry answers null to every lookup and its
    iteration visits nothing. *)
Lemma empty_lookups s (n : nat) :
  Rep s (replicate n []) ->
  (forall k, zc_hashtable_get_entry s (Some k) = Some NULL /\
             zc_hashtable_get s (Some k) = Some None) /\
  zc_hashtable_begin s = Some NULL /\ iterate s = Some [].
Proof.
  intros HR. split_and!.
  - intros k. destruct (find_entry_spec s _ k HR) as (l & p & Hl & Hf & Hfound).
    apply lookup_replicate in Hl as [-> _].
    destruct Hfound as [[-> _] | (l1 & l2 & e & Hl & _)].
    + split; [done | by apply get_of_null].
    + by destruct l1.
  - rewrite (begin_spec s _ HR). by rewrite concat_replicate_nil.
  - rewrite (iterate_spec s _ HR). by rewrite concat_replicate_nil.
Qed.

Lemma freed_unique h0 l h1 h2 : freed h0 l h1 -> freed h0 l h2 -> h1 = h2.
Proof.
  intros [Hin1 Hout1] [Hin2 Hout2]. apply map_eq. intros x.
  destruct (decide (x ∈ l)) as [Hx | Hx].
  - by rewrite (Hin1 x Hx), (Hin2 x Hx).
  - by rewrite (Hout1 x Hx), (Hout2 x Hx).
Qed.

End Empty.

(** X7: [New] refuses a zero size, a null hash function, a null
    comparison function and a failed allocation (also the one of a
    bucket array too large to address), and nothing else; the table it
    returns has the capacity asked for, the strategy functions given, no
    entry, and answers null to every lookup and to [Begin]. *)
Theorem new_table_empty {K V W : Type} (a_size : Z)
    (hf : option (K -> Z)) (ef : option (K -> K -> bool))
    (kd : option (K -> W -> W)) (vd : option (option V -> W -> W))
    (table_alloc tab_alloc : bool) :
  0 <= a_size < SIZE_MOD ->
  (zc_hashtable_new a_size hf ef kd vd table_alloc tab_alloc = None <->
   a_size = 0 \/ hf = None \/ ef = None \/ table_alloc = false \/
   tab_alloc = false \/ SIZE_MOD <= a_size * 8) /\
  (forall t, zc_hashtable_new a_size hf ef kd vd table_alloc tab_alloc = Some t ->
     tab_size t = a_size /\ nelem t = 0 /\
     tab t = replicate (Z.to_nat a_size) NULL /\
     hf = Some (hash_fn t) /\ ef = Some (equal_fn t) /\
     key_del_fn t = kd /\ value_del_fn t = vd /\
     forall h (w : W),
       (forall k, zc_hashtable_get_entry (State t h w) (Some k) = Some NULL /\
                  zc_hashtable_get (State t h w) (Some k) = Some None) /\
       zc_hashtable_begin (State t h w) = Some NULL /\
       iterate (State t h w) = Some []).
Proof.
  intros Hrange. split.
  - unfold zc_hashtable_new, zc_assert, calloc_tab.
    destruct (Z.eqb_spec a_size 0) as [-> | Hnz]; simpl; [split; [intros _; by left | done]|].
    destruct hf as [hf|]; [|split; [intros _; by right; left | done]].
    destruct ef as [ef|]; [|split; [intros _; by right; right; left | done]].
    destruct table_alloc; simpl; [|split; [intros _; by right; right; right; left | done]].
    destruct tab_alloc; simpl;
      [|split; [intros _; by right; right; right; right; left | done]].
    destruct (Z.ltb_spec 0 a_size); [|lia]. simpl.
    destruct (Z.ltb_spec (a_size * 8) SIZE_MOD); simpl.
    + split; [done|]. intros [? | [? | [? | [? | [? | ?]]]]]; try done; lia.
    + split; [|done]. intros _. by repeat right.
  - intros t Hnew.
    destruct (new_spec _ _ _ _ _ _ _ _ Hnew) as (Hhf & Hef & Hkd & Hvd & Hsz & Hn & Hpos & HR).
    split_and!; try done.
    + unfold zc_hashtable_new, zc_assert in Hnew.
      destruct (a_size =? 0); simpl in Hnew; [done|].
      destruct hf; [|done]. destruct ef; [|done].
      destruct (negb table_alloc); [done|].
      destruct (calloc_tab tab_alloc a_size) as [a_tab|] eqn:Hcal; [|done].
      apply calloc_tab_Some in Hcal as (_ & _ & _ & ->). by injection Hnew as <-.
    + intros h w. apply (empty_lookups _ _ (HR h w)).
Qed.

Lemma new_table_empty_witness :
  0 <= 2 < SIZE_MOD /\
  (zc_hashtable_new (V := Z) (W := list del_event)
     2 (Some int_hash) (Some Z.eqb) (Some log_key) (Some log_value) true true = None <->
   2 = 0 \/ Some int_hash = None \/ Some Z.eqb = None \/ true = false \/
   true = false \/ SIZE_MOD <= 2 * 8) /\
  (forall t, zc_hashtable_new 2 (Some int_hash) (Some Z.eqb) (Some log_key)
               (Some log_value) true true = Some t ->
     tab_size t = 2 /\ nelem t = 0 /\
     tab t = replicate (Z.to_nat 2) NULL /\
     Some int_hash = Some (hash_fn t) /\ Some Z.eqb = Some (equal_fn t) /\
     key_del_fn t = Some log_key /\ value_del_fn t = Some log_value /\
     forall h (w : list del_event),
       (forall k, zc_hashtable_get_entry (State t h w) (Some k) = Some NULL /\
                  zc_hashtable_get (V := Z) (State t h w) (Some k) = Some None) /\
       zc_hashtable_begin (State t h w) = Some NULL /\
       iterate (State t h w) = Some []).
Proof.
  assert (Hrange : 0 <= 2 < SIZE_MOD) by (by vm_compute).
  split; [exact Hrange|].
  exact (new_table_empty 2 (Some int_hash) (Some Z.eqb) (Some log_key) (Some log_value)
           true true Hrange).
Defined.

(** X8: [Clean] destroys every entry and leaves an empty table of the
    same capacity.  On a well-formed table it returns; the destructors
    have been called on the key and then the value of every entry, once
    each, in the order of the iteration; every entry is freed and no
    other part of the store is touched; the count is 0, every bucket is
    null: the table record is the one [New] returns for the same
    capacity and functions, and the table answers null to every lookup
    and to [Begin]. *)
Theorem clean_empties {K V W : Type} (s : @state K V W) bs :
  Rep s bs ->
  exists s' visited,
    zc_hashtable_clean s = Some s' /\
    iterate s = Some visited /\
    world s' = clean_world (table s) (heap s) visited (world s) /\
    (forall a, a ∈ visited -> heap s' !! a = None) /\
    (forall a, a ∉ visited -> heap s' !! a = heap s !! a) /\
    table s' = set_nelem (set_tab (table s)
                 (replicate (Z.to_nat (tab_size (table s))) NULL)) 0 /\
    zc_hashtable_new (tab_size (table s)) (Some (hash_fn (table s)))
      (Some (equal_fn (table s))) (key_del_fn (table s)) (value_del_fn (table s))
      true true = Some (table s') /\
    (forall k, zc_hashtable_get_entry s' (Some k) = Some NULL /\
               zc_hashtable_get s' (Some k) = Some None) /\
    zc_hashtable_begin s' = Some NULL /\
    iterate s' = Some [].
Proof.
  intros HR. destruct (clean_spec s bs HR) as (s' & Hcl & HR' & Ht & Hw & Hin & Hout).
  destruct (rep_size _ _ HR) as [Hpos Hfit].
  assert (Ht' : table s' = set_nelem (set_tab (table s)
                  (replicate (Z.to_nat (tab_size (table s))) NULL)) 0).
  { rewrite Ht. by rewrite <- (rep_length_Z _ _ HR), Nat2Z.id. }
  exists s', (concat bs). split; [done|]. split; [by apply iterate_spec|].
  split; [done|]. split; [done|]. split; [done|]. split; [done|]. split.
  - rewrite (new_success _ _ _ _ _ Hpos Hfit), Ht'. done.
  - apply (empty_lookups _ _ HR').
Qed.

Lemma clean_empties_witness :
  Rep ex_state ex_chains /\
  exists s' visited,
    zc_hashtable_clean ex_state = Some s' /\
    iterate ex_state = Some visited /\
    world s' = clean_world (table ex_state) (heap ex_state) visited (world ex_state) /\
    (forall a, a ∈ visited -> heap s' !! a = None) /\
    (forall a, a ∉ visited -> heap s' !! a = heap ex_state !! a) /\
    table s' = set_nelem (set_tab (table ex_state)
                 (replicate (Z.to_nat (tab_size (table ex_state))) NULL)) 0 /\
    zc_hashtable_new (tab_size (table ex_state)) (Some (hash_fn (table ex_state)))
      (Some (equal_fn (table ex_state))) (key_del_fn (table ex_state))
      (value_del_fn (table ex_state)) true true = Some (table s') /\
    (forall k, zc_hashtable_get_entry s' (Some k) = Some NULL /\
               zc_hashtable_get s' (Some k) = Some None) /\
    zc_hashtable_begin s' = Some NULL /\
    iterate s' = Some [].
Proof.
  split; [exact ex_state_rep|].
  exact (clean_empties ex_state ex_chains ex_state_rep).
Defined.

(** The destructor calls of a [Clean] of the example table. *)
Example clean_example :
  world <$> zc_hashtable_clean ex_state
  = Some [KeyDel 2; ValueDel (Some 20); KeyDel 3; ValueDel (Some 30);
          KeyDel 1; ValueDel (Some 10)] /\
  (s' ← zc_hashtable_clean ex_state; Some (nelem (table s'), tab (table s'), heap s'))
  = Some (0, [0; 0], ∅).
Proof. by vm_compute. Qed.

(** X9: destroying a table destroys its entries as [Clean] does.  On a
    well-formed table [zc_hashtable_del] returns, having called the
    destructors on the key and then the value of every entry, once each,
    in the order of the iteration, and having freed every entry and no
    other part of the store: the store and the world are the ones
    [Clean] leaves.  After a [Clean] it calls no destructor and frees
    no entry. *)
Theorem del_destroys_entries {K V W : Type} (s : @state K V W) bs :
  Rep s bs ->
  exists h' visited,
    iterate s = Some visited /\
    zc_hashtable_del s
    = Some (h', clean_world (table s) (heap s) visited (world s)) /\
    (forall a, a ∈ visited -> h' !! a = None) /\
    (forall a, a ∉ visited -> h' !! a = heap s !! a) /\
    exists s', zc_hashtable_clean s = Some s' /\
               zc_hashtable_del s = Some (heap s', world s') /\
               zc_hashtable_del s' = Some (heap s', world s').
Proof.
  intros HR. destruct (del_spec s bs HR) as (h' & Hdel & Hfr).
  destruct (clean_spec s bs HR) as (s' & Hcl & HR' & _ & Hw & Hfr').
  exists h', (concat bs). split; [by apply iterate_spec|]. split; [done|].
  destruct Hfr as [Hin Hout]. split; [done|]. split; [done|].
  exists s'. split; [done|].
  rewrite (freed_unique _ _ _ _ Hfr' (conj Hin Hout)), Hw. split; [done|].
  destruct (del_spec s' _ HR') as (h'' & Hdel' & Hfr'').
  rewrite concat_replicate_nil in Hdel', Hfr''. simpl in Hdel'.
  rewrite Hdel'. f_equal. f_equal.
  - rewrite <- (freed_unique _ _ _ _ Hfr' (conj Hin Hout)).
    apply (freed_unique (heap s') [] h'' (heap s')); [done|].
    split; [by intros x ?%elem_of_nil | done].
  - by rewrite Hw.
Qed.

Lemma del_destroys_entries_witness :
  Rep ex_state ex_chains /\
  exists h' visited,
    iterate ex_state = Some visited /\
    zc_hashtable_del ex_state
    = Some (h', clean_world (table ex_state) (heap ex_state) visited (world ex_state)) /\
    (forall a, a ∈ visited -> h' !! a = None) /\
    (forall a, a ∉ visited -> h' !! a = heap ex_state !! a) /\
    exists s', zc_hashtable_clean ex_state = Some s' /\
               zc_hashtable_del ex_state = Some (heap s', world s') /\
               zc_hashtable_del s' = Some (heap s', world s').
Proof.
  split; [exact ex_state_rep|].
  exact (del_destroys_entries ex_state ex_chains ex_state_rep).
Defined.

(** ** Insertion undone by removal *)

Section RoundTrip.

Context {K V W : Type}.
Implicit Types (h : gmap Z (@zc_hashtable_entry_t K V)).
Implicit Types (s : @state K V W) (bs : list (list Z)).

(** The chains fix the links: two stores that hold the same chain, with
    the same keys, values and cached hashes, hold the same entries. *)
Lemma chain_same_entries h h' l : forall pv p,
  chain h pv p l -> chain h' pv p l ->
  (forall x, x ∈ l -> payload <$> h' !! x = payload <$> h !! x) ->
  forall x, x ∈ l -> h' !! x = h !! x.
Proof.
  induction l as [|a l IH]; intros pv p Hc Hc' Hpay x Hx; [by apply elem_of_nil in Hx|].
  simpl in Hc, Hc'.
  destruct Hc as (_ & _ & e & He & Hpv & Hc). destruct Hc' as (_ & _ & e' & He' & Hpv' & Hc').
  pose proof (chain_head _ _ _ _ Hc) as Hn. pose proof (chain_head _ _ _ _ Hc') as Hn'.
  assert (Hee : e' = e).
  { specialize (Hpay a ltac:(left)). rewrite He, He' in Hpay. simpl in Hpay.
    unfold payload in Hpay. destruct e, e'; simpl in *. congruence. }
  subst e'. apply elem_of_cons in Hx as [-> | Hx]; [by rewrite He, He'|].
  apply (IH a (next e) Hc Hc'); [|done]. intros y Hy. apply Hpay. by right.
Qed.

(** The chains fix the bucket heads. *)
Lemma heads_same h h' bs : forall (t1 t2 : list Z),
  Forall2 (chain h NULL) t1 bs -> Forall2 (chain h' NULL) t2 bs -> t1 = t2.
Proof.
  induction bs as [|l bs IH]; intros t1 t2 H1 H2.
  - apply Forall2_nil_inv_r in H1 as ->. by apply Forall2_nil_inv_r in H2 as ->.
  - apply Forall2_cons_inv_r in H1 as (p1 & t1' & Hc1 & H1 & ->).
    apply Forall2_cons_inv_r in H2 as (p2 & t2' & Hc2 & H2 & ->).
    rewrite (chain_head _ _ _ _ Hc1), (chain_head _ _ _ _ Hc2).
    f_equal. by apply IH.
Qed.

Lemma push_abs_undo bs (i : nat) (a : Z) l0 :
  bs !! i = Some l0 -> <[i := l0]> (push_abs i a bs) = bs.
Proof.
  intros Hl. apply list_eq. intros j. unfold push_abs.
  destruct (decide (i = j)) as [<- | Hne].
  - rewrite list_lookup_insert_eq; [done|].
    rewrite length_alter. by eapply lookup_lt_Some.
  - rewrite list_lookup_insert_ne by done. by rewrite list_lookup_alter_ne.
Qed.

Lemma put_new_entry_undone s bs k v a s' :
  Rep s bs -> equal_fn (table s) k k = true ->
  heap s !! a = None -> 0 < a < SIZE_MOD ->
  put_new_entry s k v a = Some s' ->
  zc_hashtable_remove s' (Some k)
  = Some (State (table s) (heap s)
            (call_del (value_del_fn (table s)) v
               (call_del (key_del_fn (table s)) k (world s)))).
Proof.
  intros HR Hrefl Hfresh Hrange Hnew.
  destruct (put_new_entry_spec s bs k v a HR Hfresh Hrange)
    as (s0 & Hs0 & HR' & Ht & Hw & (e & He & Hpaya) & Hpay & Hfr).
  rewrite Hnew in Hs0. injection Hs0 as <-.
  destruct (put_new_entry_lookup s bs k v a s' HR Hrefl Hfresh Hrange Hnew) as [Hf _].
  assert (Hnz : a <> NULL) by lia.
  assert (Hidx : bucket_index (table s') k = bucket_index (table s) k).
  { unfold bucket_index, call_hash. by rewrite Ht. }
  set (i := bucket_index (table s) k) in *.
  destruct (remove_found_spec s' (push_abs i a bs) k a HR' Hf Hnz)
    as (e' & s'' & l1 & l2 & He' & Hl & -> & HR'' & Ht'' & Hw'' & Hh'').
  rewrite He in He'. injection He' as <-.
  unfold payload in Hpaya. injection Hpaya as _ Hkk Hvv.
  pose proof (bucket_index_lt s bs k HR) as Hlt. fold i in Hlt.
  destruct (lookup_lt_is_Some_2 bs _ Hlt) as [l0 Hl0].
  rewrite Hidx in Hl, HR''.
  assert (Hl' : push_abs i a bs !! i = Some ([] ++ a :: l0)).
  { unfold push_abs. by rewrite list_lookup_alter_eq, Hl0. }
  assert (Hsplit : [] = l1 /\ l0 = l2).
  { rewrite Hl in Hl'. injection Hl' as Hl'.
    apply (NoDup_split_unique a [] l0 l1 l2); [|done].
    apply (NoDup_concat_bucket _ i _ (rep_nodup _ _ HR')).
    unfold push_abs. by rewrite list_lookup_alter_eq, Hl0. }
  destruct Hsplit as [<- <-]. simpl in HR''. rewrite (push_abs_undo _ _ _ _ Hl0) in HR''.
  assert (Hnin : a ∉ concat bs).
  { intros Hin. destruct (rep_entry _ _ _ HR Hin) as [_ [? ?]]. congruence. }
  (* the entry that is removed is the head of its chain *)
  destruct (rep_bucket_chain _ _ _ _ HR' Hl) as (pa & _ & Hca). simpl in Hca.
  destruct Hca as (_ & _ & ea & Hea & Hprev & Hca).
  rewrite He in Hea. injection Hea as <-.
  pose proof (chain_head _ _ _ _ Hca) as Hnext.
  assert (Hheap : heap s'' = heap s).
  { apply map_eq. intros x. destruct (decide (x = a)) as [-> | Hxa].
    { rewrite Hh'', unlink_heap_self. done. }
    destruct (decide (x ∈ concat bs)) as [Hx | Hx].
    - apply elem_of_concat in Hx as (j & l & Hlj & Hxl).
      destruct (rep_bucket_chain _ _ _ _ HR Hlj) as (p & _ & Hc).
      destruct (rep_bucket_chain _ _ _ _ HR'' Hlj) as (p'' & _ & Hc'').
      rewrite (chain_head _ _ _ _ Hc) in Hc. rewrite (chain_head _ _ _ _ Hc'') in Hc''.
      apply (chain_same_entries (heap s) (heap s'') l NULL _ Hc Hc''); [|done].
      intros y Hy. assert (Hya : y <> a).
      { intros ->. apply Hnin. apply elem_of_concat. by exists j, l. }
      rewrite Hh'', unlink_heap_payload by done. by apply Hpay.
    - rewrite Hh''. unfold unlink_heap. rewrite lookup_delete_ne by done.
      rewrite Hprev. simpl.
      rewrite <- (Hfr x Hxa Hx).
      destruct (Z.eqb_spec (next e) 0) as [|Hn0]; [done|].
      apply lookup_alter_ne. intros Heq. apply Hx.
      apply elem_of_concat. exists i, l0. split; [done|].
      rewrite <- Heq, Hnext. destruct l0 as [|c l0]; simpl in *; [done | left]. }
  assert (Htab : tab (table s'') = tab (table s)).
  { apply (heads_same (heap s'') (heap s) bs);
      [exact (rep_chains _ _ HR'') | exact (rep_chains _ _ HR)]. }
  f_equal. destruct s'' as [t'' h'' w'']. simpl in *. f_equal.
  - rewrite Ht'', Ht, Htab. destruct (table s). unfold set_nelem, set_tab. simpl.
    f_equal. lia.
  - done.
  - rewrite Hw'', Ht, Hw, Hkk, Hvv. done.
Qed.

End RoundTrip.

(** X10: a removal undoes an insertion.  On a well-formed table, when a
    key that has no entry and is judged equal to itself is put while no
    rehash is due, the [Put] succeeds and a [Remove] of the key then
    gives back the table as it was: the same table record, bucket heads
    included, and the same store, every link as before; the world has
    seen the destructors called on the key and the value. *)
Theorem put_then_remove_restores {K V W : Type} (s : @state K V W) bs
    (k : K) (v : option V) (tab_alloc : bool) (entry_alloc : Z) :
  Rep s bs -> equal_fn (table s) k k = true ->
  find_entry s k = Some NULL ->
  load_exceeded (nelem (table s)) (tab_size (table s)) = false ->
  heap s !! entry_alloc = None -> 0 < entry_alloc < SIZE_MOD ->
  exists s',
    zc_hashtable_put s (Some k) v tab_alloc entry_alloc = Some (0, s') /\
    nelem (table s') = nelem (table s) + 1 /\
    zc_hashtable_remove s' (Some k)
    = Some (State (table s) (heap s)
              (call_del (value_del_fn (table s)) v
                 (call_del (key_del_fn (table s)) k (world s)))).
Proof.
  intros HR Hrefl Hf Hload Hfresh Hrange.
  assert (Ha : alloc_ok (heap s) entry_alloc) by (by right).
  destruct (put_absent_spec s bs k v tab_alloc entry_alloc HR Hf Ha)
    as [(Hload' & _) | (s1 & bs1 & Hstep & Hcases)]; [congruence|].
  destruct Hstep as [(_ & -> & ->) | (Hload' & _)]; [|congruence].
  destruct Hcases as [[-> _] | (_ & s' & Hput & Hnew)]; [lia|].
  exists s'. split; [done|].
  destruct (put_new_entry_spec s bs k v entry_alloc HR Hfresh Hrange)
    as (s0 & Hs0 & _ & Ht & _).
  rewrite Hnew in Hs0. injection Hs0 as <-.
  split; [by rewrite Ht|]. by apply (put_new_entry_undone s bs k v entry_alloc).
Qed.

(** ** The states of the interface *)

Section Reachable.

Context {K V W : Type}.
Implicit Types (s : @state K V W) (bs : list (list Z)).

Lemma keys_rep_empty s (n : nat) : KeysRep s (replicate n []).
Proof.
  constructor; rewrite concat_replicate_nil.
  - intros a e Ha. by apply elem_of_nil in Ha.
  - intros a b ea eb Ha. by apply elem_of_nil in Ha.
Qed.

Lemma reachable_rep s :
  reachable s -> exists bs, Rep s bs /\ KeysRep s bs /\ lawful (table s).
Proof.
  induction 1 as [a_size hf ef kd vd ta tb t h w Hnew HL
                 | s k v b a rc s' _ IH Ha Hput
                 | s k s' _ IH Hrem
                 | s s' _ IH Hcl].
  - destruct (new_spec _ _ _ _ _ _ _ _ Hnew) as (_ & _ & _ & _ & _ & _ & _ & HR).
    exists (replicate (Z.to_nat a_size) []). split; [apply HR|].
    split; [apply keys_rep_empty | done].
  - destruct IH as (bs & HR & HK & HL).
    destruct (put_preserves_keys s bs k v b a HR HK HL Ha)
      as (rc' & s'' & bs' & Hput' & HR' & HK' & HL').
    rewrite Hput in Hput'. injection Hput' as _ <-. by exists bs'.
  - destruct IH as (bs & HR & HK & HL).
    destruct (remove_preserves_keys s bs k HR HK HL) as (s'' & bs' & Hrem' & HR' & HK' & HL').
    rewrite Hrem in Hrem'. injection Hrem' as <-. by exists bs'.
  - destruct IH as (bs & HR & HK & HL).
    destruct (clean_spec s bs HR) as (s'' & Hcl' & HR' & Ht & _).
    rewrite Hcl in Hcl'. injection Hcl' as <-.
    exists (replicate (length bs) []). split; [done|]. split; [apply keys_rep_empty|].
    apply (lawful_transfer (table s)); [by rewrite Ht | by rewrite Ht | done].
Qed.

Lemma rehash_step_size s bs b s1 bs1 :
  Rep s bs -> rehash_step s bs b s1 bs1 ->
  tab_size (table s1) = tab_size (table s) \/
  tab_size (table s1) = 2 * tab_size (table s).
Proof.
  intros HR [(_ & -> & _) | (_ & Hre & _)]; [by left | right].
  destruct (rehash_spec s bs b HR) as [Hfail | (s' & Hok & _ & Ht & _)]; [congruence|].
  rewrite Hre in Hok. injection Hok as <-. by rewrite Ht.
Qed.

Lemma put_returns s bs k v b a :
  Rep s bs -> alloc_ok (heap s) a ->
  exists rc s', zc_hashtable_put s k v b a = Some (rc, s') /\ (rc = 0 \/ rc = -1) /\
    (tab_size (table s') = tab_size (table s) \/
     tab_size (table s') = 2 * tab_size (table s)).
Proof.
  intros HR Ha. destruct k as [k|]; [|exists (-1), s; split_and!; [done | by right | by left]].
  destruct (find_entry_spec s bs k HR) as (l & p & Hl & Hf & Hfound).
  destruct (Z.eq_dec p 0) as [-> | Hnz].
  - destruct (put_absent_spec s bs k v b a HR Hf Ha)
      as [(_ & _ & Hput) | (s1 & bs1 & Hstep & Hcases)].
    + exists (-1), s. split_and!; [done | by right | by left].
    + pose proof (rehash_step_size _ _ _ _ _ HR Hstep) as Hsize.
      destruct Hcases as [[_ Hput] | (Hnz & s' & Hput & Hnew)].
      * exists (-1), s1. split_and!; [done | by right | done].
      * exists 0, s'. split_and!; [done | by left |].
        destruct (rehash_step_facts _ _ _ _ _ HR Hstep) as (HR1 & _ & _ & _ & Hpay & _).
        destruct Ha as [? | [Hfresh Hrange]]; [done|].
        assert (Hfresh1 : heap s1 !! a = None).
        { specialize (Hpay a). rewrite Hfresh in Hpay. simpl in Hpay.
          by destruct (heap s1 !! a). }
        destruct (put_new_entry_spec s1 bs1 k v a HR1 Hfresh1 Hrange)
          as (s'' & Hs'' & _ & Ht' & _).
        rewrite Hnew in Hs''. injection Hs'' as <-. by rewrite Ht'.
  - pose proof (find_entry_found _ _ _ _ HR Hf Hnz) as (Hin & e & He & _).
    destruct (put_update_spec s bs k v p e HR Hin He) as (s' & Hup & -> & _).
    eexists 0, _. split; [by rewrite (put_found_eq _ _ _ _ _ _ Hf Hnz), Hup|].
    split; by left.
Qed.

Lemma remove_returns s bs k :
  Rep s bs ->
  exists s', zc_hashtable_remove s k = Some s' /\
             tab_size (table s') = tab_size (table s).
Proof.
  intros HR. destruct k as [k|]; [|by exists s].
  destruct (find_entry_spec s bs k HR) as (l & p & Hl & Hf & Hfound).
  destruct (Z.eq_dec p 0) as [-> | Hnz].
  - exists s. split; [|done]. apply (remove_absent_spec s bs); [done | by left].
  - destruct (remove_found_spec s bs k p HR Hf Hnz)
      as (e & s' & l1 & l2 & _ & _ & Hrem & _ & Ht & _).
    exists s'. split; [done | by rewrite Ht].
Qed.

Lemma get_returns s bs k :
  Rep s bs ->
  exists p v, zc_hashtable_get_entry s k = Some p /\ zc_hashtable_get s k = Some v.
Proof.
  intros HR. destruct k as [k|]; [|by exists NULL, None].
  destruct (find_entry_spec s bs k HR) as (l & p & Hl & Hf & Hfound).
  destruct (Z.eq_dec p 0) as [-> | Hnz].
  - exists NULL, None. split; [done | by apply get_of_null].
  - pose proof (find_entry_found _ _ _ _ HR Hf Hnz) as (_ & e & He & _).
    exists p, (value e). split; [done | by eapply get_of_entry].
Qed.

End Reachable.

(** X11: the interface never leaves the well-formed tables.  In every
    state a program gets to from a table [New] returned for lawful
    strategy functions, through [Put]s (whatever the allocations
    answer), [Remove]s and [Clean]s, the capacity is positive and its
    bucket array fits the address space, and every function of the
    interface returns (no division by zero, no access through a null or
    dangling pointer, no endless walk); [Put] returns 0 or -1 and keeps or doubles the capacity,
    [Remove] and [Clean] keep the capacity; the iteration visits each
    entry once and [nelem] entries in all; the cached hash of every
    entry is the hash of the key it holds; and no two entries have keys
    that [equal_fn] judges equal. *)
Theorem reachable_well_formed {K V W : Type} (s : @state K V W) :
  reachable s ->
  0 < tab_size (table s) /\ tab_size (table s) * 8 < SIZE_MOD /\
  (forall k, exists p v,
     zc_hashtable_get_entry s k = Some p /\ zc_hashtable_get s k = Some v) /\
  (forall k v tab_alloc entry_alloc, alloc_ok (heap s) entry_alloc ->
     exists rc s', zc_hashtable_put s k v tab_alloc entry_alloc = Some (rc, s') /\
                   (rc = 0 \/ rc = -1) /\
                   (tab_size (table s') = tab_size (table s) \/
                    tab_size (table s') = 2 * tab_size (table s))) /\
  (forall k, exists s', zc_hashtable_remove s k = Some s' /\
                        tab_size (table s') = tab_size (table s)) /\
  (exists s', zc_hashtable_clean s = Some s' /\
              tab_size (table s') = tab_size (table s)) /\
  (exists h w, zc_hashtable_del s = Some (h, w)) /\
  (exists p, zc_hashtable_begin s = Some p) /\
  exists visited,
    iterate s = Some visited /\ NoDup visited /\
    nelem (table s) = Z.of_nat (length visited) /\
    (forall a, a ∈ visited -> exists q, zc_hashtable_next s a = Some q) /\
    (forall a, a ∈ visited ->
       exists e, heap s !! a = Some e /\ hash_key e = call_hash (table s) (key e)) /\
    forall a b ea eb, a ∈ visited -> b ∈ visited -> a <> b ->
      heap s !! a = Some ea -> heap s !! b = Some eb ->
      equal_fn (table s) (key ea) (key eb) = false.
Proof.
  intros (bs & HR & HK & HL)%reachable_rep. destruct (rep_size _ _ HR) as [Hpos Hfit].
  split_and!; [done | done | ..].
  - intros k. by apply (get_returns s bs).
  - intros k v b a Ha. by apply (put_returns s bs).
  - intros k. by apply (remove_returns s bs).
  - destruct (clean_spec s bs HR) as (s' & Hcl & _ & Ht & _).
    exists s'. split; [done | by rewrite Ht].
  - destruct (del_spec s bs HR) as (h' & Hdel & _). by eexists _, _.
  - exists (hd NULL (concat bs)). by apply begin_spec.
  - exists (concat bs). split_and!.
    + by apply iterate_spec.
    + exact (rep_nodup _ _ HR).
    + exact (rep_count _ _ HR).
    + intros a (l1 & l2 & Heq)%list_elem_of_split.
      exists (hd NULL l2). by apply (next_in_traversal s bs l1 a l2).
    + intros a Ha. destruct (rep_entry _ _ _ HR Ha) as [_ [e He]].
      exists e. split; [done|]. exact (keys_hash _ _ HK a e Ha He).
    + exact (keys_uniq _ _ HK).
Qed.

Lemma reachable_well_formed_witness :
  reachable ex_state /\
  0 < tab_size (table ex_state) /\ tab_size (table ex_state) * 8 < SIZE_MOD /\
  (forall k, exists p v,
     zc_hashtable_get_entry ex_state k = Some p /\ zc_hashtable_get ex_state k = Some v) /\
  (forall k v tab_alloc entry_alloc, alloc_ok (heap ex_state) entry_alloc ->
     exists rc s', zc_hashtable_put ex_state k v tab_alloc entry_alloc = Some (rc, s') /\
                   (rc = 0 \/ rc = -1) /\
                   (tab_size (table s') = tab_size (table ex_state) \/
                    tab_size (table s') = 2 * tab_size (table ex_state))) /\
  (forall k, exists s', zc_hashtable_remove ex_state k = Some s' /\
                        tab_size (table s') = tab_size (table ex_state)) /\
  (exists s', zc_hashtable_clean ex_state = Some s' /\
              tab_size (table s') = tab_size (table ex_state)) /\
  (exists h w, zc_hashtable_del ex_state = Some (h, w)) /\
  (exists p, zc_hashtable_begin ex_state = Some p) /\
  exists visited,
    iterate ex_state = Some visited /\ NoDup visited /\
    nelem (table ex_state) = Z.of_nat (length visited) /\
    (forall a, a ∈ visited -> exists q, zc_hashtable_next ex_state a = Some q) /\
    (forall a, a ∈ visited ->
       exists e, heap ex_state !! a = Some e /\
                 hash_key e = call_hash (table ex_state) (key e)) /\
    forall a b ea eb, a ∈ visited -> b ∈ visited -> a <> b ->
      heap ex_state !! a = Some ea -> heap ex_state !! b = Some eb ->
      equal_fn (table ex_state) (key ea) (key eb) = false.
Proof.
  split; [exact ex_state_reachable|].
  exact (reachable_well_formed ex_state ex_state_reachable).
Defined.

Lemma put_then_remove_restores_witness :
  Rep small_state small_chains /\
  exists s',
    zc_hashtable_put small_state (Some 5) (Some 50) true 106 = Some (0, s') /\
    nelem (table s') = nelem (table small_state) + 1 /\
    zc_hashtable_remove s' (Some 5)
    = Some (State (table small_state) (heap small_state)
              (call_del (value_del_fn (table small_state)) (Some 50)
                 (call_del (key_del_fn (table small_state)) 5 (world small_state)))).
Proof.
  split; [exact small_state_rep|].
  apply (put_then_remove_restores small_state small_chains 5 (Some 50) true 106
           small_state_rep); by vm_compute.
Defined.

(** The insertion of the key 5 in front of the keys 3 and 1, and its
    removal. *)
Example put_then_remove_example :
  (s' ← snd <$> zc_hashtable_put small_state (Some 5) (Some 50) true 106;
   Some (tab (table s'), heap s' !! 102))
  = Some ([0; 106], Some (Entry 3 3 (Some 30) 106 100)) /\
  (s' ← snd <$> zc_hashtable_put small_state (Some 5) (Some 50) true 106;
   zc_hashtable_remove s' (Some 5))
  = Some (State (table small_state) (heap small_state) [KeyDel 5; ValueDel (Some 50)]).
Proof. by vm_compute. Qed.

(** The keys 23 and 3 are both looked up to the entry of the key 13. *)
Lemma equal_keys_same_lookup_witness :
  Rep digit_state digit_chains /\ KeysRep digit_state digit_chains /\
  lawful (table digit_state) /\ equal_fn (table digit_state) 23 3 = true /\
  zc_hashtable_get_entry digit_state (Some 23) = zc_hashtable_get_entry digit_state (Some 3) /\
  zc_hashtable_get digit_state (Some 23) = zc_hashtable_get digit_state (Some 3).
Proof.
  assert (Heq : equal_fn (table digit_state) 23 3 = true) by (by vm_compute).
  split; [exact digit_state_rep|]. split; [exact digit_state_keys|].
  split; [apply digit_lawful|]. split; [exact Heq|].
  exact (equal_keys_same_lookup digit_state digit_chains 23 3 digit_state_rep
           digit_state_keys (digit_lawful _ _ _ _ _) Heq).
Defined.

Example digit_example :
  zc_hashtable_get digit_state (Some 23) = Some (Some 1) /\
  zc_hashtable_get digit_state (Some 3) = Some (Some 1) /\
  zc_hashtable_get digit_state (Some 14) = Some (Some 2) /\
  zc_hashtable_get digit_state (Some 5) = Some None.
Proof. by vm_compute. Qed.

(** ** Iteration and the other operations *)

(** X12: the iteration and the lookups see the same entries.  On a
    well-formed table with lawful strategy functions and well-kept keys,
    an entry that a lookup answers is one the iteration visits, and an
    entry the iteration visits is the one its own key is looked up to,
    with its value, when that key is judged equal to itself. *)
Theorem iteration_agrees_with_lookup {K V W : Type} (s : @state K V W) bs :
  Rep s bs -> KeysRep s bs -> lawful (table s) ->
  exists visited,
    iterate s = Some visited /\
    (forall k p, zc_hashtable_get_entry s (Some k) = Some p -> p <> NULL ->
                 p ∈ visited) /\
    (forall a, a ∈ visited ->
       exists e, heap s !! a = Some e /\
         (equal_fn (table s) (key e) (key e) = true ->
          zc_hashtable_get_entry s (Some (key e)) = Some a /\
          zc_hashtable_get s (Some (key e)) = Some (value e))).
Proof.
  intros HR HK HL. exists (concat bs). split; [by apply iterate_spec|]. split.
  - intros k p Hf Hnz. by destruct (find_entry_found s bs k p HR Hf Hnz).
  - intros a Ha. destruct (rep_entry _ _ _ HR Ha) as [Hnz [e He]].
    exists e. split; [done|]. intros Hrefl.
    assert (Hf : find_entry s (key e) = Some a).
    { apply (find_entry_matches s bs); try done. split; [done | by exists e]. }
    split; [done | by eapply get_of_entry].
Qed.

Lemma iteration_agrees_with_lookup_witness :
  Rep ex_state ex_chains /\ KeysRep ex_state ex_chains /\ lawful (table ex_state) /\
  exists visited,
    iterate ex_state = Some visited /\
    (forall k p, zc_hashtable_get_entry ex_state (Some k) = Some p -> p <> NULL ->
                 p ∈ visited) /\
    (forall a, a ∈ visited ->
       exists e, heap ex_state !! a = Some e /\
         (equal_fn (table ex_state) (key e) (key e) = true ->
          zc_hashtable_get_entry ex_state (Some (key e)) = Some a /\
          zc_hashtable_get ex_state (Some (key e)) = Some (value e))).
Proof.
  split; [exact ex_state_rep|]. split; [exact ex_state_keys|].
  split; [exact (int_lawful 3 [104; 102] 2)|].
  exact (iteration_agrees_with_lookup ex_state ex_chains ex_state_rep ex_state_keys
           (int_lawful 3 [104; 102] 2)).
Defined.

Section RemoveWhileIterating.

Context {K V W : Type}.
Implicit Types (s : @state K V W) (bs : list (list Z)).

Lemma rest_after_unlink bs (i : nat) l1 p l2 :
  bs !! i = Some (l1 ++ p :: l2) ->
  rest_of (<[i := l1 ++ l2]> bs) (l2 ++ concat (drop (S i) bs)).
Proof.
  intros Hl. pose proof (lookup_lt_Some _ _ _ Hl) as Hi.
  exists i, l1, l2. split; [by apply list_lookup_insert_eq|].
  by rewrite drop_insert_lt by lia.
Qed.

End RemoveWhileIterating.

(** X13: entries can be removed while the table is iterated, when [Next]
    is asked before the [Remove].  On a well-formed table, let [p] be
    the entry a key is looked up to, and [q] what [Next] answers on [p];
    after the [Remove] of the key, the iteration that goes on from [q]
    visits exactly the entries that came after [p], in the same order,
    and the whole iteration visits the entries that were there without
    [p].  [Next] on the removed entry itself reads freed memory. *)
Theorem remove_while_iterating {K V W : Type} (s : @state K V W) bs (k : K) (p : Z) :
  Rep s bs -> zc_hashtable_get_entry s (Some k) = Some p -> p <> NULL ->
  exists before after q s',
    iterate s = Some (before ++ p :: after) /\
    zc_hashtable_next s p = Some q /\
    zc_hashtable_remove s (Some k) = Some s' /\
    iterate_from (chain_fuel (heap s')) s' q = Some after /\
    iterate s' = Some (before ++ after) /\
    zc_hashtable_next s' p = None.
Proof.
  intros HR Hf Hnz. simpl in Hf.
  destruct (remove_found_spec s bs k p HR Hf Hnz)
    as (e & s' & l1 & l2 & He & Hl & Hrem & HR' & _ & _ & Hh).
  set (i := bucket_index (table s) k) in *.
  exists (concat (take i bs) ++ l1), (l2 ++ concat (drop (S i) bs)),
         (hd NULL (l2 ++ concat (drop (S i) bs))), s'.
  split_and!.
  - rewrite (iterate_spec s bs HR), (concat_split _ _ _ Hl). f_equal.
    by rewrite <- !app_assoc.
  - by apply (next_spec s bs i l1 p l2).
  - done.
  - apply (iterate_from_spec s' _ HR'); [exact (rest_after_unlink bs i l1 p l2 Hl)|].
    etrans; [|apply (rep_fuel_all s' _ HR')].
    rewrite (concat_insert _ _ _ _ Hl), !length_app. lia.
  - rewrite (iterate_spec s' _ HR'), (concat_insert _ _ _ _ Hl). f_equal.
    by rewrite <- !app_assoc.
  - unfold zc_hashtable_next, zc_assert. destruct (Z.eqb_spec p 0); [done|]. simpl.
    by rewrite Hh, unlink_heap_self.
Qed.

Lemma remove_while_iterating_witness :
  Rep ex_state ex_chains /\ zc_hashtable_get_entry ex_state (Some 3) = Some 102 /\
  exists before after q s',
    iterate ex_state = Some (before ++ 102 :: after) /\
    zc_hashtable_next ex_state 102 = Some q /\
    zc_hashtable_remove ex_state (Some 3) = Some s' /\
    iterate_from (chain_fuel (heap s')) s' q = Some after /\
    iterate s' = Some (before ++ after) /\
    zc_hashtable_next s' 102 = None.
Proof.
  assert (Hf : zc_hashtable_get_entry ex_state (Some 3) = Some 102) by (by vm_compute).
  split; [exact ex_state_rep|]. split; [exact Hf|].
  apply (remove_while_iterating ex_state ex_chains 3 102 ex_state_rep Hf). done.
Defined.

(** ** The ready-made strategies *)

Section StrStrategy.

Lemma str_equal_true (k1 : list byte) : forall k2,
  zc_hashtable_str_equal k1 k2 = Some true <->
  exists s r1 r2, (x00 ∉ s) /\ k1 = s ++ x00 :: r1 /\ k2 = s ++ x00 :: r2.
Proof.
  induction k1 as [|c1 k1 IH]; intros k2.
  - split; [done|]. intros (s & r1 & r2 & _ & Heq & _). by destruct s.
  - destruct k2 as [|c2 k2].
    { split; [done|]. intros (s & r1 & r2 & _ & _ & Heq). by destruct s. }
    simpl. destruct (Byte.eqb c1 c2) eqn:Hc; simpl.
    + apply Byte.byte_dec_bl in Hc as <-.
      destruct (Byte.eqb c1 x00) eqn:Hz.
      * apply Byte.byte_dec_bl in Hz as ->. split; [|done]. intros _.
        exists [], k1, k2. split; [apply not_elem_of_nil | done].
      * apply Byte.eqb_false in Hz. rewrite IH. split.
        -- intros (s & r1 & r2 & Hs & -> & ->). exists (c1 :: s), r1, r2.
           split; [|done]. by apply not_elem_of_cons.
        -- intros (s & r1 & r2 & Hs & H1 & H2). destruct s as [|c s]; simpl in *.
           { injection H1 as -> _. done. }
           injection H1 as -> ->. injection H2 as ->.
           apply not_elem_of_cons in Hs as [_ Hs]. by exists s, r1, r2.
    + apply Byte.eqb_false in Hc. split; [done|].
      intros (s & r1 & r2 & _ & H1 & H2). destruct s as [|c s]; simpl in *; congruence.
Qed.

Lemma terminated_prefix_unique (s : list byte) : forall s' r r',
  x00 ∉ s -> x00 ∉ s' -> s ++ x00 :: r = s' ++ x00 :: r' -> s = s'.
Proof.
  induction s as [|c s IH]; intros s' r r' Hs Hs' Heq.
  - destruct s' as [|c' s']; [done|]. injection Heq as <- _.
    exfalso. apply Hs'. left.
  - destruct s' as [|c' s']; simpl in Heq.
    + injection Heq as -> _. exfalso. apply Hs. left.
    + injection Heq as <- Heq. f_equal.
      apply not_elem_of_cons in Hs as [_ Hs]. apply not_elem_of_cons in Hs' as [_ Hs'].
      by apply (IH s' r r').
Qed.

Lemma terminated_split (k : list byte) :
  x00 ∈ k -> exists s r, (x00 ∉ s) /\ k = s ++ x00 :: r.
Proof.
  induction k as [|c k IH]; [by intros ?%elem_of_nil|]. intros Hin.
  destruct (Byte.byte_eq_dec c x00) as [-> | Hc].
  - exists [], k. split; [apply not_elem_of_nil | done].
  - apply elem_of_cons in Hin as [? | Hin]; [done|].
    destruct (IH Hin) as (s & r & Hs & ->). exists (c :: s), r.
    split; [|done]. by apply not_elem_of_cons.
Qed.

End StrStrategy.

(** X14: the string strategy fits the table.  The string comparison is
    symmetric and transitive, and two strings it judges equal have the
    same string hash, an [unsigned int], whether [char] is signed or
    not: the pair is a lawful strategy for a table.  A buffer is judged
    equal to itself, and has a hash, exactly when it holds a terminator;
    without one both functions read past its end. *)
Theorem str_strategy_lawful (char_signed : bool) :
  (forall k1 k2, zc_hashtable_str_equal k1 k2 = Some true ->
     zc_hashtable_str_equal k2 k1 = Some true /\
     exists hv, zc_hashtable_str_hash char_signed k1 = Some hv /\
                zc_hashtable_str_hash char_signed k2 = Some hv /\
                0 <= hv < UINT_MOD) /\
  (forall k1 k2 k3,
     zc_hashtable_str_equal k1 k2 = Some true ->
     zc_hashtable_str_equal k2 k3 = Some true ->
     zc_hashtable_str_equal k1 k3 = Some true) /\
  (forall k, x00 ∈ k <-> zc_hashtable_str_equal k k = Some true) /\
  (forall k, x00 ∈ k <-> is_Some (zc_hashtable_str_hash char_signed k)) /\
  (forall (V W : Type) n a_tab size kd vd,
     lawful (Table (V := V) (W := W) n a_tab size str_hash_fn str_equal_fn kd vd)).
Proof.
  assert (Hsym : forall k1 k2, zc_hashtable_str_equal k1 k2 = Some true ->
                               zc_hashtable_str_equal k2 k1 = Some true).
  { intros k1 k2 (s & r1 & r2 & Hs & -> & ->)%str_equal_true.
    apply str_equal_true. by exists s, r2, r1. }
  assert (Htrans : forall k1 k2 k3,
            zc_hashtable_str_equal k1 k2 = Some true ->
            zc_hashtable_str_equal k2 k3 = Some true ->
            zc_hashtable_str_equal k1 k3 = Some true).
  { intros k1 k2 k3 (s & r1 & r2 & Hs & -> & ->)%str_equal_true
                    (s' & r2' & r3 & Hs' & Heq & ->)%str_equal_true.
    pose proof (terminated_prefix_unique _ _ _ _ Hs Hs' Heq) as <-.
    apply str_equal_true. by exists s, r1, r3. }
  assert (Hhash : forall cs k1 k2, zc_hashtable_str_equal k1 k2 = Some true ->
            exists hv, zc_hashtable_str_hash cs k1 = Some hv /\
                       zc_hashtable_str_hash cs k2 = Some hv /\ 0 <= hv < UINT_MOD).
  { intros cs k1 k2 (s & r1 & r2 & Hs & -> & ->)%str_equal_true.
    exists (str_hash_acc cs s). unfold zc_hashtable_str_hash, str_hash_acc.
    rewrite !str_hash_loop_spec by done. split; [done|]. split; [done|].
    assert (Hrange : forall h0, 0 <= h0 < UINT_MOD ->
              0 <= fold_left (fun h b => (h * 129 + char_value cs b) mod 2 ^ 32) s h0
              < UINT_MOD).
    { clear. unfold UINT_MOD. induction s as [|c s IH]; intros h0 H0; simpl; [done|].
      apply IH. apply Z.mod_pos_bound. lia. }
    apply Hrange. unfold UINT_MOD. lia. }
  split_and!.
  - intros k1 k2 Heq. split; [by apply Hsym | by apply Hhash].
  - exact Htrans.
  - intros k. split.
    + intros (s & r & Hs & ->)%terminated_split. apply str_equal_true. by exists s, r, r.
    + intros (s & r & _ & _ & -> & _)%str_equal_true. apply elem_of_app. right. left.
  - intros k. split.
    + intros (s & r & Hs & ->)%terminated_split.
      unfold zc_hashtable_str_hash. by rewrite str_hash_loop_spec.
    + unfold zc_hashtable_str_hash. generalize 0.
      induction k as [|c k IH]; intros h0 [hv Hhv]; simpl in Hhv; [done|].
      destruct (Z.eqb_spec (char_value char_signed c) 0) as [Hz | _].
      * apply char_value_zero in Hz as ->. left.
      * right. apply (IH _ (mk_is_Some _ _ Hhv)).
  - intros V W n a_tab size kd vd. constructor; unfold call_hash, str_equal_fn, str_hash_fn;
      simpl.
    + intros k1 k2 Heq. destruct (zc_hashtable_str_equal k1 k2) as [[]|] eqn:H12; try done.
      by rewrite (Hsym _ _ H12).
    + intros k1 k2 k3 H12 H23.
      destruct (zc_hashtable_str_equal k1 k2) as [[]|] eqn:E12; try done.
      destruct (zc_hashtable_str_equal k2 k3) as [[]|] eqn:E23; try done.
      by rewrite (Htrans _ _ _ E12 E23).
    + intros k1 k2 Heq. destruct (zc_hashtable_str_equal k1 k2) as [[]|] eqn:H12; try done.
      destruct (Hhash true _ _ H12) as (hv & -> & -> & _). done.
Qed.

(** The keys ["ab"] in two buffers, with different bytes behind the
    terminator. *)
Example str_strategy_example :
  zc_hashtable_str_equal ["a"; "b"; x00; "x"]%byte ["a"; "b"; x00]%byte = Some true /\
  zc_hashtable_str_hash true ["a"; "b"; x00; "x"]%byte = Some 12611 /\
  zc_hashtable_str_hash true ["a"; "b"; x00]%byte = Some 12611 /\
  zc_hashtable_str_equal ["a"; "b"; x00]%byte ["a"; x00]%byte = Some false /\
  zc_hashtable_str_equal ["a"; "b"]%byte ["a"; "b"]%byte = None.
Proof. by vm_compute. Qed.

(** ** Tables without destructors *)

Section NoDestructor.

Context {K V W : Type}.
Implicit Types (s : @state K V W) (bs : list (list Z)).

Lemma clean_world_none (t : @zc_hashtable_t K V W) h l (w : W) :
  key_del_fn t = None -> value_del_fn t = None -> clean_world t h l w = w.
Proof.
  intros Hk Hv. unfold clean_world. rewrite Hk, Hv.
  induction l as [|a l IH]; simpl; [done|]. by destruct (h !! a).
Qed.

End NoDestructor.

(** X16: a table without destructors never touches the objects it is
    given.  On a well-formed table whose two destructors are null,
    [Put] (update, insertion, rehash or failure), [Remove], [Clean] and
    the destruction of the table return with the world of the keys and
    values as it was: the caller keeps the ownership of every key and
    value, those that are replaced or removed included. *)
Theorem no_destructor_no_effect {K V W : Type} (s : @state K V W) bs :
  Rep s bs -> key_del_fn (table s) = None -> value_del_fn (table s) = None ->
  (forall k v tab_alloc entry_alloc, alloc_ok (heap s) entry_alloc ->
     exists rc s', zc_hashtable_put s k v tab_alloc entry_alloc = Some (rc, s') /\
                   world s' = world s /\
                   key_del_fn (table s') = None /\ value_del_fn (table s') = None) /\
  (forall k, exists s', zc_hashtable_remove s k = Some s' /\ world s' = world s /\
                        key_del_fn (table s') = None /\ value_del_fn (table s') = None) /\
  (exists s', zc_hashtable_clean s = Some s' /\ world s' = world s /\
              key_del_fn (table s') = None /\ value_del_fn (table s') = None) /\
  (exists h', zc_hashtable_del s = Some (h', world s)).
Proof.
  intros HR Hkd Hvd. split_and!.
  - intros k v b a Ha. destruct k as [k|]; [|by exists (-1), s].
    destruct (find_entry_spec s bs k HR) as (l & p & Hl & Hf & Hfound).
    destruct (Z.eq_dec p 0) as [-> | Hnz].
    + destruct (put_absent_spec s bs k v b a HR Hf Ha)
        as [(_ & _ & Hput) | (s1 & bs1 & Hstep & Hcases)]; [by exists (-1), s|].
      destruct (rehash_step_facts _ _ _ _ _ HR Hstep) as (HR1 & Ht1 & Hw1 & _ & Hpay & _).
      destruct Hcases as [[_ Hput] | (Hnz & s' & Hput & Hnew)].
      * exists (-1), s1. split_and!; try done; by rewrite Ht1.
      * exists 0, s'. split; [done|].
        destruct Ha as [? | [Hfresh Hrange]]; [done|].
        assert (Hfresh1 : heap s1 !! a = None).
        { specialize (Hpay a). rewrite Hfresh in Hpay. simpl in Hpay.
          by destruct (heap s1 !! a). }
        destruct (put_new_entry_spec s1 bs1 k v a HR1 Hfresh1 Hrange)
          as (s'' & Hs'' & _ & Ht' & Hw' & _).
        rewrite Hnew in Hs''. injection Hs'' as <-.
        split_and!; [congruence | by rewrite Ht', Ht1 | by rewrite Ht', Ht1].
    + pose proof (find_entry_found _ _ _ _ HR Hf Hnz) as (Hin & e & He & _).
      destruct (put_update_spec s bs k v p e HR Hin He) as (s' & Hup & -> & _).
      eexists 0, _. split; [by rewrite (put_found_eq _ _ _ _ _ _ Hf Hnz), Hup|].
      simpl. by rewrite Hkd, Hvd.
  - intros k. destruct k as [k|]; [|by exists s].
    destruct (find_entry_spec s bs k HR) as (l & p & Hl & Hf & Hfound).
    destruct (Z.eq_dec p 0) as [-> | Hnz].
    + exists s. split; [|done]. apply (remove_absent_spec s bs); [done | by left].
    + destruct (remove_found_spec s bs k p HR Hf Hnz)
        as (e & s' & l1 & l2 & _ & _ & Hrem & _ & Ht & Hw & _).
      exists s'. split; [done|]. rewrite Hw, Ht, Hkd, Hvd. done.
  - destruct (clean_spec s bs HR) as (s' & Hcl & _ & Ht & Hw & _).
    exists s'. split; [done|]. rewrite Hw, Ht. split; [by apply clean_world_none | done].
  - destruct (del_spec s bs HR) as (h' & Hdel & _). exists h'.
    by rewrite Hdel, clean_world_none.
Qed.

Lemma no_destructor_no_effect_witness :
  Rep plain_state small_chains /\
  (forall k v tab_alloc entry_alloc, alloc_ok (heap plain_state) entry_alloc ->
     exists rc s', zc_hashtable_put plain_state k v tab_alloc entry_alloc = Some (rc, s') /\
                   world s' = world plain_state /\
                   key_del_fn (table s') = None /\ value_del_fn (table s') = None) /\
  (forall k, exists s', zc_hashtable_remove plain_state k = Some s' /\
                        world s' = world plain_state /\
                        key_del_fn (table s') = None /\ value_del_fn (table s') = None) /\
  (exists s', zc_hashtable_clean plain_state = Some s' /\ world s' = world plain_state /\
              key_del_fn (table s') = None /\ value_del_fn (table s') = None) /\
  (exists h', zc_hashtable_del plain_state = Some (h', world plain_state)).
Proof.
  split; [exact plain_state_rep|].
  exact (no_destructor_no_effect plain_state small_chains plain_state_rep
           eq_refl eq_refl).
Defined.


(** ** Emptiness *)

(** X17: [Begin] tells whether the table is empty.  On a well-formed
    table [Begin] answers null exactly when the count is 0; otherwise it
    answers a stored entry, the head of the first bucket that is not
    empty, which no [Next] ever answers. *)
Theorem begin_null_iff_empty {K V W : Type} (s : @state K V W) bs :
  Rep s bs ->
  exists p,
    zc_hashtable_begin s = Some p /\
    (p = NULL <-> nelem (table s) = 0) /\
    (p <> NULL ->
     is_Some (heap s !! p) /\
     (exists i : nat, tab (table s) !! i = Some p /\
        forall j : nat, (j < i)%nat -> tab (table s) !! j = Some NULL) /\
     forall a, a ∈ concat bs -> zc_hashtable_next s a <> Some p).
Proof.
  intros HR. exists (hd NULL (concat bs)). split; [by apply begin_spec|].
  pose proof (rep_count _ _ HR) as Hcount.
  destruct (concat bs) as [|a l] eqn:Hcat; simpl in *.
  { split; [done|]. done. }
  assert (Ha : a ∈ concat bs) by (rewrite Hcat; left).
  destruct (rep_entry _ _ _ HR Ha) as [Hnz Hsome].
  split; [split; [done | lia]|]. intros _. split; [done|]. split.
  - clear Hcount Ha Hnz Hsome. pose proof (rep_chains _ _ HR) as HF. clear HR.
    revert HF. generalize (tab (table s)). revert Hcat.
    induction bs as [|b bs IH]; intros Hcat a_tab HF; [done|].
    apply Forall2_cons_inv_r in HF as (q & a_tab' & Hc & HF & ->).
    destruct b as [|b0 b]; simpl in Hcat.
    + simpl in Hc. subst q. destruct (IH Hcat a_tab' HF) as (i & Hi & Hlt).
      exists (S i). split; [done|]. intros [|j] Hj; [done|]. apply Hlt. lia.
    + injection Hcat as -> _. rewrite (chain_head _ _ _ _ Hc). simpl.
      exists 0%nat. split; [done|]. intros j Hj. lia.
  - intros x Hx Hnext.
    apply list_elem_of_split in Hx as (l1 & l2 & Hsplit).
    rewrite <- Hcat in Hsplit.
    rewrite (next_in_traversal s bs l1 x l2 HR Hsplit) in Hnext.
    injection Hnext as Hhd.
    pose proof (rep_nodup _ _ HR) as Hnd. rewrite Hsplit in Hnd.
    destruct l2 as [|c l2]; simpl in Hhd; [done|]. subst c.
    rewrite Hcat in Hsplit.
    destruct l1 as [|c l1]; simpl in Hsplit; injection Hsplit as -> _.
    + apply NoDup_cons in Hnd as [Hn _]. apply Hn. left.
    + simpl in Hnd. apply NoDup_cons in Hnd as [Hn _]. apply Hn.
      apply elem_of_app. right. right. left.
Qed.

Lemma begin_null_iff_empty_witness :
  Rep ex_state ex_chains /\
  exists p,
    zc_hashtable_begin ex_state = Some p /\
    (p = NULL <-> nelem (table ex_state) = 0) /\
    (p <> NULL ->
     is_Some (heap ex_state !! p) /\
     (exists i : nat, tab (table ex_state) !! i = Some p /\
        forall j : nat, (j < i)%nat -> tab (table ex_state) !! j = Some NULL) /\
     forall a, a ∈ concat ex_chains -> zc_hashtable_next ex_state a <> Some p).
Proof.
  split; [exact ex_state_rep|].
  exact (begin_null_iff_empty ex_state ex_chains ex_state_rep).
Defined.
